(** * analyze-google-apps-oauth-log: a shallow embedding of [main.py]

    The program reads a Google Apps OAuth audit log (a CSV file of event
    text and date text), keeps the rows that mention the deprecated
    Documents List API, decomposes every kept row with a regular
    expression and [strptime], sorts the rows by date, groups them by user
    and prints one block per user.

    [main.py] is Python 2 and does its work through [re], [datetime],
    [pandasql] (SQLite) and [pandas] (NumPy).  Part I embeds the program
    together with the library operations it calls; Part II states and
    proves properties of it. *)

From Stdlib Require Import List Ascii NArith ZArith Lia Bool Arith.
From Stdlib Require Import Permutation Sorted.
From Stdlib Require String.
Import ListNotations.
Import String.StringSyntax.
Delimit Scope string_scope with string.
Bind Scope string_scope with String.string.

Set Implicit Arguments.

(* ================================================================== *)
(** * Part I: the embedding *)
(* ================================================================== *)

(** ** Text

    A Python text is a sequence of characters.  Characters are 8-bit codes
    here (Rocq's [ascii]); the codes 128..255 stand for the Latin-1 code
    points. *)

Module Text.

Definition str : Type := list ascii.

(** A literal of the source, e.g. [lit "scopes"]. *)
Definition lit (s : String.string) : str := String.list_ascii_of_string s.

Definition code (c : ascii) : N := N_of_ascii c.

Definition chr_eqb (a b : ascii) : bool := Ascii.eqb a b.

Fixpoint str_eqb (s t : str) : bool :=
  match s, t with
  | [], [] => true
  | a :: s', b :: t' => chr_eqb a b && str_eqb s' t'
  | _, _ => false
  end.

(** ASCII case folding: what SQLite's LIKE and [re.IGNORECASE] (without
    [re.UNICODE]) apply to a character. *)
Definition is_upper (c : ascii) : bool :=
  (65 <=? code c)%N && (code c <=? 90)%N.

Definition lower (c : ascii) : ascii :=
  if is_upper c then ascii_of_N (code c + 32) else c.

Definition lower_str (s : str) : str := map lower s.

(** [\s] of [re] for a byte pattern without [re.UNICODE]:
    space, \t, \n, \v, \f, \r. *)
Definition re_space (c : ascii) : bool :=
  (code c =? 32)%N || ((9 <=? code c)%N && (code c <=? 13)%N).

(** [\d] of [re]: the ten ASCII digits. *)
Definition re_digit (c : ascii) : bool :=
  (48 <=? code c)%N && (code c <=? 57)%N.

(** [unicode.isspace], which [split()] without argument uses, on the
    code points below 256: \t..\r, \x1c..\x1f, space, \x85, \xa0. *)
Definition isspace (c : ascii) : bool :=
  re_space c
  || ((28 <=? code c)%N && (code c <=? 31)%N)
  || (code c =? 133)%N || (code c =? 160)%N.

Definition newline : ascii := ascii_of_N 10.

(** [s.split()]: the maximal runs of non-whitespace characters.  [cur] is
    the run being read, last character first. *)
Fixpoint split_from (cur : str) (s : str) : list str :=
  match s with
  | [] => match cur with [] => [] | _ => [rev cur] end
  | c :: s' =>
      if isspace c
      then match cur with
           | [] => split_from [] s'
           | _ => rev cur :: split_from [] s'
           end
      else split_from (c :: cur) s'
  end.

Definition split (s : str) : list str := split_from [] s.

(** [sep.join(l)]. *)
Fixpoint join (sep : str) (l : list str) : str :=
  match l with
  | [] => []
  | [x] => x
  | x :: l' => x ++ sep ++ join sep l'
  end.

(** [t in s]: [t] occurs in [s] as a substring. *)
Fixpoint starts_with (t s : str) : bool :=
  match t, s with
  | [], _ => true
  | a :: t', b :: s' => chr_eqb a b && starts_with t' s'
  | _ :: _, [] => false
  end.

Fixpoint contains (t s : str) : bool :=
  starts_with t s ||
  match s with
  | [] => false
  | _ :: s' => contains t s'
  end.

(** Lexicographic comparison by character code: [<] on Python texts. *)
Fixpoint str_ltb (s t : str) : bool :=
  match s, t with
  | _, [] => false
  | [], _ :: _ => true
  | a :: s', b :: t' =>
      (code a <? code b)%N || ((code a =? code b)%N && str_ltb s' t')
  end.

(** Decimal digits. *)
Definition digit_val (c : ascii) : Z := (Z.of_N (code c) - 48)%Z.

(** [int(s)] for a text of digits. *)
Definition int_of_digits (s : str) : Z :=
  fold_left (fun acc c => (10 * acc + digit_val c)%Z) s 0%Z.

Definition digit_chr (d : Z) : ascii := ascii_of_N (Z.to_N (48 + d)%Z).

(** ["%02d" % n] and ["%04d" % n] for [0 <= n]. *)
Definition dec2 (n : Z) : str :=
  [digit_chr (n / 10 mod 10)%Z; digit_chr (n mod 10)%Z].

Definition dec4 (n : Z) : str :=
  [digit_chr (n / 1000 mod 10)%Z; digit_chr (n / 100 mod 10)%Z;
   digit_chr (n / 10 mod 10)%Z; digit_chr (n mod 10)%Z].

End Text.

Import Text.

(** ** Errors

    An exception that leaves [main] ends the process: the interpreter
    prints the traceback and exits with status 1.  [result] is the error
    monad the embedding threads through the calls that can raise. *)

Inductive exn : Type :=
| RuntimeError (msg : str)
| ValueError (msg : str)
| KeyError (key : str).

Definition message (e : exn) : str :=
  match e with
  | RuntimeError m => m
  | ValueError m => m
  | KeyError k => k
  end.

Inductive result (A : Type) : Type :=
| Ok (a : A)
| Raise (e : exn).

Arguments Ok {A} a.
Arguments Raise {A} e.

Definition bind {A B : Type} (r : result A) (f : A -> result B) : result B :=
  match r with
  | Ok a => f a
  | Raise e => Raise e
  end.

Notation "x <- r ;; k" := (bind r (fun x => k))
  (at level 61, r at next level, right associativity).

(** [map f] over the rows in order, stopping at the first row that raises. *)
Fixpoint map_result {A B : Type} (f : A -> result B) (l : list A)
  : result (list B) :=
  match l with
  | [] => Ok []
  | a :: l' => b <- f a ;; bs <- map_result f l' ;; Ok (b :: bs)
  end.

(** ** SQLite's LIKE

    [x LIKE p]: [%] in the pattern stands for any sequence of characters,
    [_] for any one character, and every other character for itself, upper
    and lower case ASCII letters being the same (SQLite's default, which
    [pandasql] does not change). *)

Module Sqlite.

Definition percent : ascii := ascii_of_N 37.
Definition underscore : ascii := ascii_of_N 95.

Fixpoint like (p : str) : str -> bool :=
  match p with
  | [] => fun s => match s with [] => true | _ :: _ => false end
  | c :: p' =>
      if chr_eqb c percent then
        fix skip (s : str) : bool :=
          like p' s || match s with [] => false | _ :: s' => skip s' end
      else if chr_eqb c underscore then
        fun s => match s with [] => false | _ :: s' => like p' s' end
      else
        fun s => match s with
                 | [] => false
                 | d :: s' => chr_eqb (lower c) (lower d) && like p' s'
                 end
  end.

End Sqlite.

(** ** Regular expressions

    The fragment of [re] that [main.py] and [_strptime] use: literal text,
    character classes, a greedy [+] on a class, sequence, alternation,
    capturing groups and the anchors [^] and [$].  The matcher is the
    backtracking one of [re]: alternatives are tried left to right, [+]
    takes as many characters as it can and gives them back one by one. *)

Module Re.

Inductive regex : Type :=
| Empty
| Chars (w : str)                 (* literal text *)
| Class (p : ascii -> bool)       (* one character of a class *)
| PlusClass (p : ascii -> bool)   (* [c+] for a class c, greedy *)
| Seq (r1 r2 : regex)
| Alt (r1 r2 : regex)
| Group (n : nat) (r : regex)     (* capturing group number n *)
| Bol                             (* ^ *)
| Eol.                            (* $ *)

(** Captured groups, the latest first. *)
Definition captures : Type := list (nat * str).

Fixpoint group (n : nat) (c : captures) : option str :=
  match c with
  | [] => None
  | (k, w) :: c' => if Nat.eqb k n then Some w else group n c'
  end.

(** [.] matches every character but a newline. *)
Definition dot (c : ascii) : bool := negb (chr_eqb c newline).

(** Where a match ends: the position, the text that follows, the groups. *)
Definition mend : Type := (nat * str * captures)%type.

Section Matcher.

(** [re.IGNORECASE] *)
Variable icase : bool.

Definition same_chr (a b : ascii) : bool :=
  if icase then chr_eqb (lower a) (lower b) else chr_eqb a b.

(** Reads the literal [w] at the front of [s]. *)
Fixpoint eat (w s : str) : option str :=
  match w, s with
  | [], _ => Some s
  | a :: w', b :: s' => if same_chr a b then eat w' s' else None
  | _ :: _, [] => None
  end.

(** The rest of a greedy [c+], one character already taken: takes further
    characters of the class first and falls back to stopping here. *)
Fixpoint more (p : ascii -> bool) (pos : nat) (s : str)
  (k : nat -> str -> option mend) : option mend :=
  match s with
  | c :: s' =>
      if p c then
        match more p (S pos) s' k with
        | Some r => Some r
        | None => k pos s
        end
      else k pos s
  | [] => k pos s
  end.

(** [m r pos s caps k]: matches [r] at position [pos], where the text [s]
    starts, then continues with [k]; [None] when every way fails. *)
Fixpoint m (r : regex) (pos : nat) (s : str) (caps : captures)
  (k : nat -> str -> captures -> option mend) : option mend :=
  match r with
  | Empty => k pos s caps
  | Chars w =>
      match eat w s with
      | Some s' => k (pos + length w) s' caps
      | None => None
      end
  | Class p =>
      match s with
      | c :: s' => if p c then k (S pos) s' caps else None
      | [] => None
      end
  | PlusClass p =>
      match s with
      | c :: s' =>
          if p c then more p (S pos) s' (fun pos' s'' => k pos' s'' caps)
          else None
      | [] => None
      end
  | Seq r1 r2 => m r1 pos s caps (fun pos' s' caps' => m r2 pos' s' caps' k)
  | Alt r1 r2 =>
      match m r1 pos s caps k with
      | Some r => Some r
      | None => m r2 pos s caps k
      end
  | Group n r1 =>
      m r1 pos s caps
        (fun pos' s' caps' => k pos' s' ((n, firstn (pos' - pos) s) :: caps'))
  | Bol => if Nat.eqb pos 0 then k pos s caps else None
  | Eol =>
      match s with
      | [] => k pos s caps
      | [c] => if chr_eqb c newline then k pos s caps else None
      | _ => None
      end
  end.

Definition accept (pos : nat) (s : str) (caps : captures) : option mend :=
  Some (pos, s, caps).

(** [pattern.match(s)]: a match that starts at the start of [s]. *)
Definition match_ (r : regex) (s : str) : option mend := m r 0 s [] accept.

(** [pattern.search(s)]: the first position of [s] where a match starts. *)
Fixpoint search_from (r : regex) (pos : nat) (s : str) : option mend :=
  match m r pos s [] accept with
  | Some e => Some e
  | None =>
      match s with
      | [] => None
      | _ :: s' => search_from r (S pos) s'
      end
  end.

Definition search (r : regex) (s : str) : option mend := search_from r 0 s.

End Matcher.

(** [r1 r2 ... rn] *)
Definition seqs (l : list regex) : regex := fold_right Seq Empty l.

(** [w1|w2|...|wn] for literal words. *)
Fixpoint alts (l : list str) : regex :=
  match l with
  | [] => Chars []
  | [w] => Chars w
  | w :: l' => Alt (Chars w) (alts l')
  end.

(** *** What a match is

    [matches icase r pos x tail c]: the expression [r] matches the text
    [x] at position [pos], with [tail] the text after it, and captures the
    groups [c].  This says which matches exist; [m] says which one [re]
    finds. *)

Definition same_text (icase : bool) (w x : str) : Prop :=
  Forall2 (fun a b => same_chr icase a b = true) w x.

Inductive matches (icase : bool)
  : regex -> nat -> str -> str -> captures -> Prop :=
| M_Empty pos tail : matches icase Empty pos [] tail []
| M_Chars w pos x tail :
    same_text icase w x -> matches icase (Chars w) pos x tail []
| M_Class (p : ascii -> bool) pos c tail :
    p c = true -> matches icase (Class p) pos [c] tail []
| M_PlusClass (p : ascii -> bool) pos x tail :
    x <> [] -> forallb p x = true -> matches icase (PlusClass p) pos x tail []
| M_Seq r1 r2 pos x1 x2 tail c1 c2 :
    matches icase r1 pos x1 (x2 ++ tail) c1 ->
    matches icase r2 (pos + length x1) x2 tail c2 ->
    matches icase (Seq r1 r2) pos (x1 ++ x2) tail (c2 ++ c1)
| M_AltL r1 r2 pos x tail c :
    matches icase r1 pos x tail c -> matches icase (Alt r1 r2) pos x tail c
| M_AltR r1 r2 pos x tail c :
    matches icase r2 pos x tail c -> matches icase (Alt r1 r2) pos x tail c
| M_Group n r pos x tail c :
    matches icase r pos x tail c ->
    matches icase (Group n r) pos x tail ((n, x) :: c)
| M_Bol tail : matches icase Bol 0 [] tail []
| M_Eol pos tail :
    tail = [] \/ tail = [newline] -> matches icase Eol pos [] tail [].

End Re.

Import Re.

(** ** [datetime]

    A naive [datetime.datetime] (no time zone attached): the value
    [datetime.strptime] returns. *)

Record datetime : Type := mk_datetime {
  year : Z; month : Z; day : Z; hour : Z; minute : Z; second : Z
}.

Definition dt_tuple (d : datetime) : list Z :=
  [year d; month d; day d; hour d; minute d; second d].

(** Python compares datetimes field by field, the year first. *)
Fixpoint lex_ltb (a b : list Z) : bool :=
  match a, b with
  | _, [] => false
  | [], _ :: _ => true
  | x :: a', y :: b' => (x <? y)%Z || ((x =? y)%Z && lex_ltb a' b')
  end.

Definition dt_ltb (a b : datetime) : bool := lex_ltb (dt_tuple a) (dt_tuple b).

(** [a <= b] *)
Definition dt_leb (a b : datetime) : bool := negb (dt_ltb b a).

Definition is_leap (y : Z) : bool :=
  ((y mod 4 =? 0) && (negb (y mod 100 =? 0) || (y mod 400 =? 0)))%Z.

Definition days_in_month (y mo : Z) : Z :=
  if (mo =? 2)%Z then (if is_leap y then 29 else 28)%Z
  else if ((mo =? 4) || (mo =? 6) || (mo =? 9) || (mo =? 11))%Z then 30%Z
  else 31%Z.

(** [str(d)]: ["%04d-%02d-%02d %02d:%02d:%02d"]. *)
Definition dt_str (d : datetime) : str :=
  dec4 (year d) ++ lit "-" ++ dec2 (month d) ++ lit "-" ++ dec2 (day d)
  ++ lit " " ++ dec2 (hour d) ++ lit ":" ++ dec2 (minute d) ++ lit ":"
  ++ dec2 (second d).

(** ** [_strptime]

    [datetime.strptime(data, format)] as CPython's [_strptime.py] does it:
    the format is turned into a regular expression with one named group
    per directive, the expression is matched against the whole text
    ignoring case, and the groups are converted to the fields of a date,
    which [datetime] then checks. *)

Module Strptime.

(** What [_strptime] reads from the process: [time.tzname] and
    [time.daylight].  Month names and AM/PM are those of the C locale. *)
Record locale_time : Type := {
  tzname : str * str;
  daylight : bool
}.

Definition f_month : list str :=
  [lit "january"; lit "february"; lit "march"; lit "april"; lit "may";
   lit "june"; lit "july"; lit "august"; lit "september"; lit "october";
   lit "november"; lit "december"].

Definition am_pm : list str := [lit "am"; lit "pm"].

(** [LocaleTime.timezone]: the zone names [%Z] accepts. *)
Definition timezone (lt : locale_time) : list str :=
  [lit "utc"; lit "gmt"; lower_str (fst (tzname lt))]
  ++ (if daylight lt then [lower_str (snd (tzname lt))] else []).

(** A named group is numbered by the code of its directive letter. *)
Definition key (d : String.string) : nat :=
  match lit d with
  | c :: _ => nat_of_ascii c
  | [] => 0
  end.

(** [sorted(words, key=len, reverse=True)] *)
Fixpoint insert_by_len (w : str) (l : list str) : list str :=
  match l with
  | [] => [w]
  | x :: l' =>
      if length x <=? length w then w :: l else x :: insert_by_len w l'
  end.

Definition sort_by_len (l : list str) : list str :=
  fold_right insert_by_len [] l.

(** [TimeRE.__seqToRE] *)
Definition seqToRE (words : list str) (d : String.string) : regex :=
  Group (key d) (alts (sort_by_len words)).

Definition range (a b : String.string) (c : ascii) : bool :=
  match lit a, lit b with
  | [x], [y] => (code x <=? code c)%N && (code c <=? code y)%N
  | _, _ => false
  end.

Definition digit : regex := Class re_digit.

(** The expressions of the numeric directives ([TimeRE.__init__]). *)

(** [%d]: [3[0-1]|[1-2]\d|0[1-9]|[1-9]| [1-9]] *)
Definition re_d : regex :=
  Alt (Seq (Chars (lit "3")) (Class (range "0" "1")))
 (Alt (Seq (Class (range "1" "2")) digit)
 (Alt (Seq (Chars (lit "0")) (Class (range "1" "9")))
 (Alt (Class (range "1" "9"))
      (Seq (Chars (lit " ")) (Class (range "1" "9")))))).

(** [%I]: [1[0-2]|0[1-9]|[1-9]] *)
Definition re_I : regex :=
  Alt (Seq (Chars (lit "1")) (Class (range "0" "2")))
 (Alt (Seq (Chars (lit "0")) (Class (range "1" "9")))
      (Class (range "1" "9"))).

(** [%M]: [[0-5]\d|\d] *)
Definition re_M : regex := Alt (Seq (Class (range "0" "5")) digit) digit.

(** [%S]: [6[0-1]|[0-5]\d|\d] *)
Definition re_S : regex :=
  Alt (Seq (Chars (lit "6")) (Class (range "0" "1")))
 (Alt (Seq (Class (range "0" "5")) digit) digit).

(** [%Y]: [\d\d\d\d] *)
Definition re_Y : regex := Seq digit (Seq digit (Seq digit digit)).

(** The expression of a directive, in its named group. *)
Definition directive (lt : locale_time) (d : ascii) : option regex :=
  let on x := chr_eqb d x in
  if on "d"%char then Some (Group (key "d") re_d)
  else if on "I"%char then Some (Group (key "I") re_I)
  else if on "M"%char then Some (Group (key "M") re_M)
  else if on "S"%char then Some (Group (key "S") re_S)
  else if on "Y"%char then Some (Group (key "Y") re_Y)
  else if on "B"%char then Some (seqToRE f_month "B")
  else if on "p"%char then Some (seqToRE am_pm "p")
  else if on "Z"%char then Some (seqToRE (timezone lt) "Z")
  else None.

(** [TimeRE.pattern]: a run of whitespace of the format becomes [\s+],
    a directive its expression, any other character itself. *)
Fixpoint pattern (lt : locale_time) (format : str) : option (list regex) :=
  match format with
  | [] => Some []
  | c :: f1 =>
      if chr_eqb c "%"%char then
        match f1 with
        | d :: f2 =>
            match directive lt d, pattern lt f2 with
            | Some r, Some rs => Some (r :: rs)
            | _, _ => None
            end
        | [] => None
        end
      else
        match pattern lt f1 with
        | Some rs =>
            if re_space c then
              match f1 with
              | c' :: _ =>
                  if re_space c' then Some rs
                  else Some (PlusClass re_space :: rs)
              | [] => Some (PlusClass re_space :: rs)
              end
            else Some (Chars [c] :: rs)
        | None => None
        end
  end.

Fixpoint index_of (w : str) (l : list str) : Z :=
  match l with
  | [] => 0%Z
  | x :: l' => if str_eqb x w then 0%Z else (1 + index_of w l')%Z
  end.

(** [int(s)] on the text of a numeric group; [int] skips blanks. *)
Fixpoint int_ (s : str) : Z :=
  match s with
  | c :: s' => if isspace c then int_ s' else int_of_digits s
  | [] => 0%Z
  end.

(** [repr] of a text of 8-bit characters: in single quotes, or in double
    quotes when the text has a single quote and no double quote; the quote
    and the backslash are escaped, tab, newline and return are written
    [\t], [\n] and [\r], and every other character outside the printable
    ASCII range as [\xNN]. *)
Definition quote : ascii := "'"%char.
Definition double_quote : ascii := ascii_of_N 34.
Definition backslash : ascii := "\"%char.

Definition hex_digit (n : N) : ascii :=
  nth (N.to_nat n) (lit "0123456789abcdef") "0"%char.

Definition repr_chr (q c : ascii) : str :=
  if chr_eqb c q || chr_eqb c backslash then [backslash; c]
  else if (code c =? 9)%N then lit "\t"
  else if (code c =? 10)%N then lit "\n"
  else if (code c =? 13)%N then lit "\r"
  else if (code c <? 32)%N || (127 <=? code c)%N
       then lit "\x" ++ [hex_digit (code c / 16); hex_digit (code c mod 16)]
       else [c].

Definition repr_s (s : str) : str :=
  let q := if existsb (chr_eqb quote) s
              && negb (existsb (chr_eqb double_quote) s)
           then double_quote else quote in
  [q] ++ flat_map (repr_chr q) s ++ [q].

(** [repr] of a [unicode] text. *)
Definition repr_u (s : str) : str := lit "u" ++ repr_s s.

Definition found (c : captures) (d : String.string) : option str :=
  group (key d) c.

(** The fields of the date, read from the groups ([_strptime._strptime]);
    a directive the format lacks leaves its default. *)
Definition fields (c : captures) : datetime :=
  let num (d : String.string) (dflt : Z) :=
    match found c d with Some w => int_ w | None => dflt end in
  let mo := match found c "B" with
            | Some w => (1 + index_of (lower_str w) f_month)%Z
            | None => 1%Z
            end in
  let ampm := match found c "p" with Some w => lower_str w | None => [] end in
  let h := match found c "I" with
           | Some w =>
               let h := int_ w in
               if str_eqb ampm [] || str_eqb ampm (lit "am")
               then (if h =? 12 then 0 else h)%Z
               else if str_eqb ampm (lit "pm")
               then (if h =? 12 then h else h + 12)%Z
               else h
           | None => 0%Z
           end in
  mk_datetime (num "Y"%string 1900%Z) mo (num "d"%string 1%Z) h
    (num "M"%string 0%Z) (num "S"%string 0%Z).

(** The checks of [datetime.date] and [datetime.datetime] on the fields. *)
Definition check (d : datetime) : result datetime :=
  if negb ((1 <=? year d) && (year d <=? 9999))%Z then
    Raise (ValueError (lit "year is out of range"))
  else if negb ((1 <=? day d) && (day d <=? days_in_month (year d) (month d)))%Z
  then Raise (ValueError (lit "day is out of range for month"))
  else if negb (second d <=? 59)%Z then
    Raise (ValueError (lit "second must be in 0..59"))
  else Ok d.

Definition strptime (lt : locale_time) (data format : str) : result datetime :=
  match pattern lt format with
  | None => Raise (ValueError (lit "bad directive in format"))
  | Some rs =>
      match match_ true (seqs rs) data with
      | None =>
          Raise (ValueError (lit "time data " ++ repr_u data
                             ++ lit " does not match format "
                             ++ repr_s format))
      | Some (_, rest, c) =>
          match rest with
          | _ :: _ =>
              Raise (ValueError (lit "unconverted data remains: " ++ rest))
          | [] => check (fields c)
          end
      end
  end.

End Strptime.

(** ** NumPy's [argsort]

    [a.argsort(kind='quicksort')], NumPy's [aquicksort] (npysort): the
    index array [tosort] is sorted by the values [v] it points to.  A
    sub-array of more than 16 entries is partitioned around the median of
    its first, middle and last entry; a sub-array of at most 16 entries is
    sorted by insertion.  The C code keeps the sub-arrays still to sort on
    a stack; they do not overlap, so the embedding sorts the two sides of
    a partition by recursion, each as a list of its own. *)

Module Numpy.

Section Argsort.

Variable K : Type.
Variable lt : K -> K -> bool.      (* [<] on the values *)
Variable v : nat -> K.             (* [v[i]] *)

(** [tosort[p]] and [tosort[p] = x] *)
Definition get (a : list nat) (p : nat) : nat := nth p a 0.

Fixpoint set (a : list nat) (p : nat) (x : nat) : list nat :=
  match a, p with
  | [], _ => []
  | _ :: a', 0 => x :: a'
  | y :: a', S p' => y :: set a' p' x
  end.

(** [INTP_SWAP(tosort[p], tosort[q])] *)
Definition swap (a : list nat) (p q : nat) : list nat :=
  set (set a p (get a q)) q (get a p).

(** [v[tosort[p]] < v[tosort[q]]] *)
Definition less (a : list nat) (p q : nat) : bool :=
  lt (v (get a p)) (v (get a q)).

(** The median of [a[0]], [a[pm]] and [a[pr]] goes to [pm]. *)
Definition median3 (a : list nat) (pm pr : nat) : list nat :=
  let a := if less a pm 0 then swap a pm 0 else a in
  let a := if less a pr pm then swap a pr pm else a in
  if less a pm 0 then swap a pm 0 else a.

(** [do ++pi; while (v[*pi] < vp);] *)
Fixpoint scan_up (fuel : nat) (a : list nat) (vp : K) (pi : nat) : nat :=
  match fuel with
  | 0 => S pi
  | S f => if lt (v (get a (S pi))) vp then scan_up f a vp (S pi) else S pi
  end.

(** [do --pj; while (vp < v[*pj]);] *)
Fixpoint scan_down (fuel : nat) (a : list nat) (vp : K) (pj : nat) : nat :=
  match fuel with
  | 0 => pj - 1
  | S f =>
      if lt vp (v (get a (pj - 1))) then scan_down f a vp (pj - 1) else pj - 1
  end.

(** The partition loop: the two scans, then a swap, until they cross. *)
Fixpoint partition_loop (fuel : nat) (a : list nat) (vp : K) (pi pj : nat)
  : list nat * nat :=
  match fuel with
  | 0 => (a, pi)
  | S f =>
      let pi' := scan_up (length a) a vp pi in
      let pj' := scan_down (length a) a vp pj in
      if pj' <=? pi' then (a, pi')
      else partition_loop f (swap a pi' pj') vp pi' pj'
  end.

(** What holds each time the loop is entered: the entries up to [pi] are
    not above the pivot value [vp], those from [pj] on are not below it. *)
Definition between (a : list nat) (vp : K) (pi pj : nat) : Prop :=
  pi < pj /\ pj < length a
  /\ (forall k, k <= pi -> lt vp (v (get a k)) = false)
  /\ (forall k, pj <= k -> k < length a -> lt (v (get a k)) vp = false).

(** One partition of the sub-array [a]: the array afterwards and the
    place of the pivot. *)
Definition partition (a : list nat) : list nat * nat :=
  let pr := length a - 1 in
  let pm := pr / 2 in
  let a := median3 a pm pr in
  let vp := v (get a pm) in
  let pj := pr - 1 in
  let a := swap a pm pj in
  let '(a, pi) := partition_loop (length a) a vp 0 pj in
  (swap a pi (pr - 1), pi).

(** Insertion of [vi] into the sorted entries before it, given last entry
    first: entries whose value is greater move one place up. *)
Fixpoint insert_back (vi : nat) (before : list nat) : list nat :=
  match before with
  | x :: r => if lt (v vi) (v x) then x :: insert_back vi r else vi :: before
  | [] => [vi]
  end.

Definition insertion_sort (a : list nat) : list nat :=
  rev (fold_left (fun before vi => insert_back vi before) a []).

Definition SMALL_QUICKSORT : nat := 15.

Fixpoint aquicksort (fuel : nat) (a : list nat) : list nat :=
  match fuel with
  | 0 => a
  | S f =>
      if SMALL_QUICKSORT <? length a - 1 then
        let '(a', pi) := partition a in
        aquicksort f (firstn pi a') ++ [get a' pi]
        ++ aquicksort f (skipn (S pi) a')
      else insertion_sort a
  end.

(** [v[i] <= v[j]] *)
Definition le_at (i j : nat) : Prop := lt (v j) (v i) = false.

(** A set of indices whose values are all equal under [lt]. *)
Definition tied (p : nat -> bool) : Prop :=
  forall i j, p i = true -> p j = true -> lt (v i) (v j) = false.

End Argsort.

(** [values.argsort(kind='quicksort')] *)
Definition argsort {K : Type} (lt : K -> K -> bool) (dflt : K)
  (values : list K) : list nat :=
  aquicksort lt (fun i => nth i values dflt) (length values)
    (seq 0 (length values)).

End Numpy.

(** ** pandas *)

Module Pandas.

(** [frame.take(indexer)] *)
Definition take {A : Type} (rows : list A) (indexer : list nat) : list A :=
  flat_map (fun i => match nth_error rows i with
                     | Some r => [r]
                     | None => []
                     end) indexer.

(** The distinct keys in the order they first appear. *)
Fixpoint unique (l : list str) : list str :=
  match l with
  | [] => []
  | x :: l' => x :: filter (fun y => negb (str_eqb x y)) (unique l')
  end.

Fixpoint insert_key (x : str) (l : list str) : list str :=
  match l with
  | [] => [x]
  | y :: l' => if str_ltb y x then y :: insert_key x l' else x :: l
  end.

(** The group keys in ascending order ([groupby] sorts them). *)
Definition sorted_keys (l : list str) : list str :=
  fold_right insert_key [] (unique l).

(** [frame.groupby(key)], as iterating over it enumerates it: one group
    per distinct key, the keys ascending, the rows of a group in the order
    of the frame. *)
Definition groupby {A : Type} (key : A -> str) (rows : list A)
  : list (str * list A) :=
  map (fun k => (k, filter (fun r => str_eqb (key r) k) rows))
    (sorted_keys (map key rows)).

End Pandas.

(** ** [main.py] *)

(** A row of the log as [read_csv] hands it over, the third, empty column
    removed: the columns [event] and [date]. *)
Module Log.

Record row : Type := { event : str; date : str }.

End Log.

(** A row after [transform_row]. *)
Record row : Type := {
  user : str;
  action : str;
  app : str;
  scope : list str;
  date : datetime
}.

(** [^(.+) (revoked|authorized) access to (.+) for (.+) scopes$] *)
Definition EVENT_PARSER : regex :=
  seqs [Bol;
        Group 1 (PlusClass dot);
        Chars (lit " ");
        Group 2 (Alt (Chars (lit "revoked")) (Chars (lit "authorized")));
        Chars (lit " access to ");
        Group 3 (PlusClass dot);
        Chars (lit " for ");
        Group 4 (PlusClass dot);
        Chars (lit " scopes");
        Eol].

(** The WHERE clause of [QUERY]. *)
Definition QUERY_where (event : str) : bool :=
  Sqlite.like (lit "%docs.google.com/feeds%") event
  || Sqlite.like (lit "%docs.googleusercontent.com%") event
  || Sqlite.like (lit "%spreadsheets.google.com/feeds%") event.

(** [pandasql.sqldf(QUERY, locals())]: the rows of [log] that satisfy the
    WHERE clause, in the order of the table. *)
Definition QUERY (log : list Log.row) : list Log.row :=
  filter (fun r => QUERY_where (Log.event r)) log.

(** [re.sub(r'\s+', ' ', s)]: every run of whitespace becomes one space.
    [blank] tells that the character before was whitespace. *)
Fixpoint collapse (blank : bool) (s : str) : str :=
  match s with
  | [] => []
  | c :: s' =>
      if re_space c then (if blank then collapse true s'
                          else " "%char :: collapse true s')
      else c :: collapse false s'
  end.

Definition DATE_FORMAT : str := lit "%B %d %Y %I:%M:%S %p %Z".

Definition parse_date (lt : Strptime.locale_time) (s : str) : result datetime :=
  let s := collapse false s in
  Strptime.strptime lt s DATE_FORMAT.

(** [m.groups()] for the four groups of [EVENT_PARSER]. *)
Definition groups (c : captures) : str * str * str * str :=
  let g n := match group n c with Some w => w | None => [] end in
  (g 1, g 2, g 3, g 4).

Definition transform_row (lt : Strptime.locale_time) (r : Log.row)
  : result row :=
  let event := Log.event r in
  let date := Log.date r in
  match search false EVENT_PARSER event with
  | None =>
      Raise (RuntimeError
               (lit "Event does not follow expected format: " ++ event))
  | Some (_, _, c) =>
      let '(user, action, app, scope) := groups c in
      let scope := split scope in
      d <- parse_date lt date ;;
      Ok {| user := user; action := action; app := app; scope := scope;
            date := d |}
  end.

(** [frame.apply(transform_row, axis=1)]: [transform_row] on every row, in
    order.  On a frame without rows [apply] calls nothing and returns the
    frame as it is, with the columns [event] and [date] and no [user]. *)
Inductive frame : Type :=
| Untransformed
| Transformed (rows : list row).

Definition apply_transform_row (lt : Strptime.locale_time)
  (selected : list Log.row) : result frame :=
  match selected with
  | [] => Ok Untransformed
  | _ :: _ => rows <- map_result (transform_row lt) selected ;;
              Ok (Transformed rows)
  end.

Definition epoch : datetime := mk_datetime 1970 1 1 0 0 0.

(** [frame.sort('date')]: the rows taken in the order [argsort] gives for
    the [date] column (a single column is sorted with [kind='quicksort'],
    the default). *)
Definition sort_by_date (rows : list row) : list row :=
  Pandas.take rows (Numpy.argsort dt_ltb epoch (map date rows)).

(** [.sort('date').groupby('user')]; [groupby] raises [KeyError] for a
    column the frame does not have. *)
Definition sort_groupby (f : frame) : result (list (str * list row)) :=
  match f with
  | Untransformed => Raise (KeyError (lit "user"))
  | Transformed rows => Ok (Pandas.groupby user (sort_by_date rows))
  end.

(** The value of [result] in [main]. *)
Definition report (lt : Strptime.locale_time) (log : list Log.row)
  : result (list (str * list row)) :=
  f <- apply_transform_row lt (QUERY log) ;;
  sort_groupby f.

(** The lines [main] prints for one user. *)
Definition print_row (r : row) : str :=
  dt_str (date r) ++ lit ": " ++ action r ++ lit " " ++ app r ++ lit ": "
  ++ join (lit " ") (scope r).

Definition print_user (g : str * list row) : list str :=
  [[]; lit "=== " ++ fst g ++ lit " ==="] ++ map print_row (snd g).

(** [main(args)] on the log [read_csv] has loaded: the lines printed and
    the value returned. *)
Definition main (lt : Strptime.locale_time) (log : list Log.row)
  : result (list str * Z) :=
  result <- report lt log ;;
  Ok (flat_map print_user result, 0%Z).

(** The process: what it wrote to standard output, its exit status, and
    the exception the interpreter reported, if any. *)
Record outcome : Type := {
  stdout : list str;
  status : Z;
  raised : option exn
}.

Definition run (lt : Strptime.locale_time) (log : list Log.row) : outcome :=
  match main lt log with
  | Ok (lines, rv) => {| stdout := lines; status := rv; raised := None |}
  | Raise e => {| stdout := []; status := 1%Z; raised := Some e |}
  end.

(** ** Shapes of text, for the statements of Part II *)

(** A text [.+] can match: not empty, no newline in it. *)
Definition plain (x : str) : Prop := x <> [] /\ forallb dot x = true.

(** The text [EVENT_PARSER] describes, [nl] being what may follow. *)
Definition event_text (u act a x nl : str) : str :=
  u ++ lit " " ++ act ++ lit " access to " ++ a ++ lit " for " ++ x
  ++ lit " scopes" ++ nl.

(** [s] reads as an event with these four parts. *)
Definition event_shape (s u act a x : str) : Prop :=
  plain u /\ (act = lit "revoked" \/ act = lit "authorized") /\ plain a
  /\ plain x
  /\ exists nl, (nl = [] \/ nl = [newline]) /\ s = event_text u act a x nl.

(** The marker texts of [QUERY]. *)
Definition MARKERS : list str :=
  [lit "docs.google.com/feeds"; lit "docs.googleusercontent.com";
   lit "spreadsheets.google.com/feeds"].

(** [t] is [s] up to the case of ASCII letters. *)
Definition case_variant (s t : str) : Prop := lower_str s = lower_str t.

(** A LIKE pattern text without wildcard that case folding leaves alone. *)
Definition literal_pattern (w : str) : bool :=
  forallb (fun c => negb (chr_eqb c Sqlite.percent)
                    && negb (chr_eqb c Sqlite.underscore)
                    && chr_eqb (lower c) c) w.

(** A token of [split]: not empty, no whitespace in it. *)
Definition token (t : str) : Prop :=
  t <> [] /\ forallb (fun c => negb (isspace c)) t = true.

(** ** Inputs used in the statements of Part II *)

(** A process whose local zone is US Pacific time, where the log was
    exported: [time.tzname = ('PST', 'PDT')]. *)
Definition pacific : Strptime.locale_time :=
  {| Strptime.tzname := (lit "PST", lit "PDT"); Strptime.daylight := true |}.

(** A process that runs in UTC. *)
Definition utc : Strptime.locale_time :=
  {| Strptime.tzname := (lit "UTC", lit "UTC"); Strptime.daylight := false |}.

Definition log_row (event date : String.string) : Log.row :=
  {| Log.event := lit event; Log.date := lit date |}.

(** The three rows of the specification's end-to-end example. *)
Definition example_log : list Log.row :=
  [log_row "alice@example.com authorized access to docs.google.com/feeds for read write scopes"
           "January 5 2021 3:04:05 PM PST";
   log_row "alice@example.com revoked access to docs.google.com/feeds for read write scopes"
           "January 6 2021 9:00:00 AM PST";
   log_row "bob@example.com authorized access to unrelated-app for metadata scopes"
           "January 4 2021 1:00:00 PM PST"].

(** The in-scope row of the specification that is not an event. *)
Definition odd_row : Log.row :=
  log_row "alice did something odd to docs.google.com/feeds"
          "January 5 2021 3:04:05 PM UTC".

(** An event whose scopes text is a single blank. *)
Definition blank_scope_row : Log.row :=
  log_row "a authorized access to b for   scopes"
          "January 5 2021 3:04:05 PM UTC".

(** A selected, well-formed event dated February 30. *)
Definition february_30_row : Log.row :=
  log_row "alice@example.com authorized access to docs.google.com/feeds for read scopes"
          "February 30 2021 3:04:05 PM UTC".

(** The two rows the example's report holds. *)
Definition alice_authorized : row :=
  {| user := lit "alice@example.com"; action := lit "authorized";
     app := lit "docs.google.com/feeds"; scope := [lit "read"; lit "write"];
     date := mk_datetime 2021 1 5 15 4 5 |}.

Definition alice_revoked : row :=
  {| user := lit "alice@example.com"; action := lit "revoked";
     app := lit "docs.google.com/feeds"; scope := [lit "read"; lit "write"];
     date := mk_datetime 2021 1 6 9 0 0 |}.

(** Equal timestamps: neither is before the other. *)
Definition dt_eqb (a b : datetime) : bool :=
  negb (dt_ltb a b) && negb (dt_ltb b a).

(** Eighteen selected events of the same second, by the users [a] to [r]
    in this order. *)
Definition tie_log : list Log.row :=
  map (fun u => {| Log.event :=
                     lit u ++ lit " authorized access to docs.google.com/feeds for read scopes";
                   Log.date := lit "January 5 2021 3:04:05 PM UTC" |})
    ["a"; "b"; "c"; "d"; "e"; "f"; "g"; "h"; "i"; "j"; "k"; "l"; "m"; "n";
     "o"; "p"; "q"; "r"]%string.

Definition tie_rows : list row :=
  map (fun u => {| user := lit u; action := lit "authorized";
                   app := lit "docs.google.com/feeds"; scope := [lit "read"];
                   date := mk_datetime 2021 1 5 15 4 5 |})
    ["a"; "b"; "c"; "d"; "e"; "f"; "g"; "h"; "i"; "j"; "k"; "l"; "m"; "n";
     "o"; "p"; "q"; "r"]%string.

(** ** Shapes of date text *)

(** A text in which whitespace is single spaces only, as [collapse]
    leaves it.  [blank] tells that the character before was whitespace. *)
Fixpoint single_spaced (blank : bool) (s : str) : bool :=
  match s with
  | [] => true
  | c :: s' =>
      if re_space c
      then negb blank && chr_eqb c " "%char && single_spaced true s'
      else single_spaced false s'
  end.

(** A character that matches only itself when case is ignored. *)
Definition caseless (c : ascii) : Prop :=
  forall b, same_chr true c b = true -> b = c.

(** The texts the numeric directives accept once blanks are collapsed. *)
Definition is_day (x : str) : bool :=
  match x with
  | [a] => Strptime.range "1" "9" a
  | [a; b] =>
      (chr_eqb a "3"%char && Strptime.range "0" "1" b)
      || (Strptime.range "1" "2" a && re_digit b)
      || (chr_eqb a "0"%char && Strptime.range "1" "9" b)
  | _ => false
  end.

Definition is_year (x : str) : bool :=
  match x with
  | [a; b; c; d] => re_digit a && re_digit b && re_digit c && re_digit d
  | _ => false
  end.

Definition is_hour (x : str) : bool :=
  match x with
  | [a] => Strptime.range "1" "9" a
  | [a; b] =>
      (chr_eqb a "1"%char && Strptime.range "0" "2" b)
      || (chr_eqb a "0"%char && Strptime.range "1" "9" b)
  | _ => false
  end.

Definition is_minute (x : str) : bool :=
  match x with
  | [a] => re_digit a
  | [a; b] => Strptime.range "0" "5" a && re_digit b
  | _ => false
  end.

Definition is_second (x : str) : bool :=
  match x with
  | [a] => re_digit a
  | [a; b] =>
      (chr_eqb a "6"%char && Strptime.range "0" "1" b)
      || (Strptime.range "0" "5" a && re_digit b)
  | _ => false
  end.

(** The eight parts of a date text. *)
Record date_text : Type := {
  t_month : str; t_day : str; t_year : str;
  t_hour : str; t_minute : str; t_second : str;
  t_ampm : str; t_zone : str
}.

(** [<month> <day> <year> <hour>:<minute>:<second> <am/pm> <zone>] *)
Definition date_prefix (f : date_text) : str :=
  t_month f ++ lit " " ++ t_day f ++ lit " " ++ t_year f ++ lit " "
  ++ t_hour f ++ lit ":" ++ t_minute f ++ lit ":" ++ t_second f ++ lit " "
  ++ t_ampm f ++ lit " ".

Definition date_render (f : date_text) : str := date_prefix f ++ t_zone f.

(** The parts [strptime] accepts for [DATE_FORMAT]: an English month name,
    AM or PM, and UTC, GMT or a local zone name, in any letter case; day
    1..31, hour 1..12, minute 0..59, second 0..61, with or without a
    leading zero; a year of four digits. *)
Definition prefix_accepted (f : date_text) : Prop :=
  In (lower_str (t_month f)) Strptime.f_month
  /\ is_day (t_day f) = true
  /\ is_year (t_year f) = true
  /\ is_hour (t_hour f) = true
  /\ is_minute (t_minute f) = true
  /\ is_second (t_second f) = true
  /\ In (lower_str (t_ampm f)) Strptime.am_pm.

Definition date_accepted (lt : Strptime.locale_time) (f : date_text) : Prop :=
  prefix_accepted f /\ In (lower_str (t_zone f)) (Strptime.timezone lt).

(** The expression of [DATE_FORMAT] up to the zone, and the groups it
    captures. *)
Definition blanks : regex := PlusClass re_space.

Definition DATE_PREFIX_RE : list regex :=
  [Strptime.seqToRE Strptime.f_month "B"; blanks;
   Group (Strptime.key "d") Strptime.re_d; blanks;
   Group (Strptime.key "Y") Strptime.re_Y; blanks;
   Group (Strptime.key "I") Strptime.re_I; Chars (lit ":");
   Group (Strptime.key "M") Strptime.re_M; Chars (lit ":");
   Group (Strptime.key "S") Strptime.re_S; blanks;
   Strptime.seqToRE Strptime.am_pm "p"; blanks].

Definition prefix_caps (f : date_text) : captures :=
  [(Strptime.key "p", t_ampm f); (Strptime.key "S", t_second f);
   (Strptime.key "M", t_minute f); (Strptime.key "I", t_hour f);
   (Strptime.key "Y", t_year f); (Strptime.key "d", t_day f);
   (Strptime.key "B", t_month f)].

(** The hour of the day for an hour of the 12-hour clock. *)
Definition hour24 (h : Z) (ampm : str) : Z :=
  if str_eqb (lower_str ampm) (lit "am")
  then (if h =? 12 then 0 else h)%Z
  else (if h =? 12 then h else h + 12)%Z.

(** The date the parts denote. *)
Definition date_value (f : date_text) : datetime :=
  mk_datetime (int_of_digits (t_year f))
    (1 + Strptime.index_of (lower_str (t_month f)) Strptime.f_month)
    (int_of_digits (t_day f))
    (hour24 (int_of_digits (t_hour f)) (t_ampm f))
    (int_of_digits (t_minute f))
    (int_of_digits (t_second f)).

(** A date [datetime] accepts: a year from 1 to 9999, a day the month
    has, a second below 60. *)
Definition date_valid (d : datetime) : Prop :=
  (1 <= year d <= 9999 /\ 1 <= day d <= days_in_month (year d) (month d)
   /\ second d <= 59)%Z.

(** The shape of a timestamp in section 4.1 of the specification, read
    literally: an English month name, a day and a time of one or two
    digits per number, a year of four digits, AM or PM, and an
    abbreviation of capital letters. *)
Definition spec_month_names : list str :=
  [lit "January"; lit "February"; lit "March"; lit "April"; lit "May";
   lit "June"; lit "July"; lit "August"; lit "September"; lit "October";
   lit "November"; lit "December"].

Definition one_or_two_digits (x : str) : bool :=
  match x with
  | [a] => re_digit a
  | [a; b] => re_digit a && re_digit b
  | _ => false
  end.

Definition spec_timestamp_shape (s : str) : Prop :=
  exists f,
    s = date_render f
    /\ In (t_month f) spec_month_names
    /\ one_or_two_digits (t_day f) = true
    /\ is_year (t_year f) = true
    /\ one_or_two_digits (t_hour f) = true
    /\ one_or_two_digits (t_minute f) = true
    /\ one_or_two_digits (t_second f) = true
    /\ (t_ampm f = lit "AM" \/ t_ampm f = lit "PM")
    /\ t_zone f <> [] /\ forallb is_upper (t_zone f) = true.

(** ** Rendering an event *)

(** The fields of a row in the template of the log:
    [<user> <action> access to <app> for <scope-1> ... <scope-n> scopes]. *)
Definition render_event (t : row) : str :=
  user t ++ lit " " ++ action t ++ lit " access to " ++ app t ++ lit " for "
  ++ join (lit " ") (scope t) ++ lit " scopes".

(** The part of [EVENT_PARSER] after the user, and the part after the
    application. *)
Definition AFTER_USER : list regex :=
  [Chars (lit " ");
   Group 2 (Alt (Chars (lit "revoked")) (Chars (lit "authorized")));
   Chars (lit " access to ")].

Definition AFTER_APP : list regex :=
  [Chars (lit " for "); Group 4 (PlusClass dot); Chars (lit " scopes"); Eol].

(** The text [seqs AFTER_APP] matches, and the text that follows the user. *)
Definition after_app_text (x : str) : str :=
  lit " for " ++ x ++ lit " scopes".

Definition after_user_text (act a x : str) : str :=
  lit " " ++ act ++ lit " access to " ++ a ++ after_app_text x.

(** An event whose scopes are separated by tabs, one of them [for]. *)
Definition tab_scope_row : Log.row :=
  {| Log.event :=
       lit "a authorized access to b for p" ++ [ascii_of_N 9] ++ lit "for"
       ++ [ascii_of_N 9] ++ lit "q scopes";
     Log.date := lit "January 5 2021 3:04:05 PM UTC" |}.

(** The events [transform_row] makes of [blank_scope_row] and of
    [tab_scope_row]. *)
Definition blank_scope_event : row :=
  {| user := lit "a"; action := lit "authorized"; app := lit "b";
     scope := []; date := mk_datetime 2021 1 5 15 4 5 |}.

Definition tab_scope_event : row :=
  {| user := lit "a"; action := lit "authorized"; app := lit "b";
     scope := [lit "p"; lit "for"; lit "q"];
     date := mk_datetime 2021 1 5 15 4 5 |}.

(** The first event of [example_log], its scopes two blanks apart. *)
Definition wide_scope_row : Log.row :=
  log_row "alice@example.com authorized access to docs.google.com/feeds for read  write scopes"
          "January 5 2021 3:04:05 PM PST".

(** The reading of [s] that [EVENT_PARSER] takes: of all the ways to read
    [s] as an event, the one with the longest user and, for that user, the
    longest application ([.+] is greedy). *)
Definition longest_reading (s u act a x : str) : Prop :=
  event_shape s u act a x
  /\ (forall d act' a' x', d <> [] -> ~ event_shape s (u ++ d) act' a' x')
  /\ (forall d x', d <> [] -> ~ event_shape s u act (a ++ d) x').

(** ** Inputs for the statements on newlines and blanks *)

(** The first event of [example_log] with a newline inside the user. *)
Definition broken_line_row : Log.row :=
  {| Log.event :=
       lit "alice" ++ [newline]
       ++ lit "bob authorized access to docs.google.com/feeds for read scopes";
     Log.date := lit "January 5 2021 3:04:05 PM PST" |}.

(** Two users, the later event first. *)
Definition two_user_log : list Log.row :=
  [log_row "bob@example.com authorized access to docs.googleusercontent.com for read scopes"
           "January 7 2021 1:00:00 PM PST";
   log_row "alice@example.com revoked access to docs.google.com/feeds for read write scopes"
           "January 6 2021 9:00:00 AM PST";
   log_row "alice@example.com authorized access to docs.google.com/feeds for read write scopes"
           "January 5 2021 3:04:05 PM PST"].

Definition bob_authorized : row :=
  {| user := lit "bob@example.com"; action := lit "authorized";
     app := lit "docs.googleusercontent.com"; scope := [lit "read"];
     date := mk_datetime 2021 1 7 13 0 0 |}.

Definition two_user_rows : list row :=
  [bob_authorized; alice_revoked; alice_authorized].

Definition two_user_report : list (str * list row) :=
  [(lit "alice@example.com", [alice_authorized; alice_revoked]);
   (lit "bob@example.com", [bob_authorized])].

(** A row without a marker, neither an event nor a date. *)
Definition odd_date_row : Log.row :=
  log_row "carol did something odd" "not a date".

(** The parts of the two dates of [example_log] that the query selects. *)
Definition january_5 : date_text :=
  {| t_month := lit "January"; t_day := lit "5"; t_year := lit "2021";
     t_hour := lit "3"; t_minute := lit "04"; t_second := lit "05";
     t_ampm := lit "PM"; t_zone := lit "PST" |}.

Definition january_6 : date_text :=
  {| t_month := lit "January"; t_day := lit "6"; t_year := lit "2021";
     t_hour := lit "9"; t_minute := lit "00"; t_second := lit "00";
     t_ampm := lit "AM"; t_zone := lit "PST" |}.

(* ================================================================== *)
(** * Part II: properties *)
(* ================================================================== *)

(** ** Characters and text *)

Lemma chr_eqb_eq (a b : ascii) : chr_eqb a b = true <-> a = b.
Proof. apply Ascii.eqb_eq. Qed.

Lemma chr_eqb_refl (a : ascii) : chr_eqb a a = true.
Proof. apply Ascii.eqb_refl. Qed.

Lemma chr_eqb_neq (a b : ascii) : chr_eqb a b = false <-> a <> b.
Proof. apply Ascii.eqb_neq. Qed.

Lemma str_eqb_eq (s t : str) : str_eqb s t = true <-> s = t.
Proof.
  revert t; induction s as [|a s IH]; intros [|b t]; simpl;
    try (split; congruence).
  rewrite andb_true_iff, chr_eqb_eq, IH. split.
  - intros [-> ->]; reflexivity.
  - intros H; injection H as -> ->; auto.
Qed.

Lemma str_eqb_refl (s : str) : str_eqb s s = true.
Proof. apply str_eqb_eq; reflexivity. Qed.

Lemma str_eqb_neq (s t : str) : str_eqb s t = false <-> s <> t.
Proof.
  destruct (str_eqb s t) eqn:E.
  - apply str_eqb_eq in E. split; congruence.
  - split; auto. intros _ H. apply str_eqb_eq in H. congruence.
Qed.

Lemma lower_idem (c : ascii) : lower (lower c) = lower c.
Proof. destruct c as [[] [] [] [] [] [] [] []]; reflexivity. Qed.

Lemma lower_str_idem (s : str) : lower_str (lower_str s) = lower_str s.
Proof.
  unfold lower_str. rewrite map_map. apply map_ext. intros; apply lower_idem.
Qed.

(** ** The matcher finds a match, and finds one whenever one exists *)

Section MatcherFacts.

Variable icase : bool.

Lemma eat_same_text (w s s' : str) :
  eat icase w s = Some s' ->
  exists x, s = x ++ s' /\ same_text icase w x.
Proof.
  revert s; induction w as [|a w IH]; intros s H; simpl in H.
  - injection H as <-. exists []; split; [reflexivity | constructor].
  - destruct s as [|b s]; [discriminate|].
    destruct (same_chr icase a b) eqn:E; [|discriminate].
    destruct (IH _ H) as (x & -> & Hx).
    exists (b :: x); split; [reflexivity | constructor; assumption].
Qed.

Lemma same_text_eat (w x tail : str) :
  same_text icase w x -> eat icase w (x ++ tail) = Some tail.
Proof.
  induction 1 as [|a b w x Hab _ IH]; simpl; [reflexivity|].
  rewrite Hab; exact IH.
Qed.

Lemma same_text_length (w x : str) :
  same_text icase w x -> length x = length w.
Proof. induction 1; simpl; congruence. Qed.

Lemma more_sound (p : ascii -> bool) (s : str) :
  forall pos k e,
    more p pos s k = Some e ->
    exists y tail,
      s = y ++ tail /\ forallb p y = true /\ k (pos + length y) tail = Some e.
Proof.
  induction s as [|c s IH]; intros pos k e H; simpl in H.
  - exists [], []. rewrite Nat.add_0_r. auto.
  - destruct (p c) eqn:Hc.
    + destruct (more p (S pos) s k) eqn:Hm.
      * injection H as <-. destruct (IH _ _ _ Hm) as (y & tail & -> & Hy & Hk).
        exists (c :: y), tail. simpl. rewrite Hc, Hy.
        replace (pos + S (length y)) with (S pos + length y) by lia. auto.
      * exists [], (c :: s). rewrite Nat.add_0_r. auto.
    + exists [], (c :: s). rewrite Nat.add_0_r. auto.
Qed.

Lemma more_complete (p : ascii -> bool) (y : str) :
  forall pos tail k e,
    forallb p y = true ->
    k (pos + length y) tail = Some e ->
    exists e', more p pos (y ++ tail) k = Some e'.
Proof.
  induction y as [|c y IH]; intros pos tail k e Hy Hk; simpl in *.
  - rewrite Nat.add_0_r in Hk. destruct tail as [|c s]; simpl.
    + eauto.
    + destruct (p c); [|eauto]. destruct (more p (S pos) s k); eauto.
  - apply andb_true_iff in Hy as [Hc Hy]. rewrite Hc.
    replace (pos + S (length y)) with (S pos + length y) in Hk by lia.
    destruct (IH _ _ _ _ Hy Hk) as [e' He']. rewrite He'. eauto.
Qed.

Lemma m_sound (r : regex) :
  forall pos s caps k e,
    m icase r pos s caps k = Some e ->
    exists x tail c,
      s = x ++ tail /\ matches icase r pos x tail c
      /\ k (pos + length x) tail (c ++ caps) = Some e.
Proof.
  induction r as [|w|p|p|r1 IH1 r2 IH2|r1 IH1 r2 IH2|n r IH| |];
    intros pos s caps k e H; simpl in H.
  - exists [], s, []. rewrite Nat.add_0_r. repeat split; auto. constructor.
  - destruct (eat icase w s) as [s'|] eqn:E; [|discriminate].
    destruct (eat_same_text _ _ E) as (x & -> & Hx).
    exists x, s', []. rewrite (same_text_length Hx).
    repeat split; auto. constructor; assumption.
  - destruct s as [|c s]; [discriminate|].
    destruct (p c) eqn:Hc; [|discriminate].
    exists [c], s, []. simpl. replace (pos + 1) with (S pos) by lia.
    repeat split; auto. constructor; assumption.
  - destruct s as [|c s]; [discriminate|].
    destruct (p c) eqn:Hc; [|discriminate].
    destruct (more_sound _ _ _ _ H) as (y & tail & -> & Hy & Hk).
    exists (c :: y), tail, []. simpl.
    replace (pos + S (length y)) with (S pos + length y) by lia.
    repeat split; auto. constructor; [discriminate|]. simpl. now rewrite Hc.
  - destruct (IH1 _ _ _ _ _ H) as (x1 & t1 & c1 & -> & M1 & H1).
    destruct (IH2 _ _ _ _ _ H1) as (x2 & t2 & c2 & -> & M2 & H2).
    exists (x1 ++ x2), t2, (c2 ++ c1).
    rewrite <- app_assoc, length_app, Nat.add_assoc, <- app_assoc.
    repeat split; auto. constructor; assumption.
  - destruct (m icase r1 pos s caps k) eqn:E.
    + injection H as <-. destruct (IH1 _ _ _ _ _ E) as (x & t & c & -> & M1 & H1).
      exists x, t, c. repeat split; auto. now apply M_AltL.
    + destruct (IH2 _ _ _ _ _ H) as (x & t & c & -> & M1 & H1).
      exists x, t, c. repeat split; auto. now apply M_AltR.
  - destruct (IH _ _ _ _ _ H) as (x & t & c & -> & M1 & H1).
    exists x, t, ((n, x) :: c).
    replace (pos + length x - pos) with (length x) in H1 by lia.
    rewrite firstn_app, Nat.sub_diag, firstn_all in H1. simpl in H1.
    rewrite app_nil_r in H1.
    repeat split; auto. constructor; assumption.
  - destruct (Nat.eqb pos 0) eqn:E; [|discriminate].
    apply Nat.eqb_eq in E; subst pos.
    exists [], s, []. repeat split; auto. constructor.
  - exists [], s, []. rewrite Nat.add_0_r.
    destruct s as [|c [|c' s]]; try discriminate.
    + repeat split; auto. constructor; auto.
    + destruct (chr_eqb c newline) eqn:E; [|discriminate].
      apply chr_eqb_eq in E; subst c.
      repeat split; auto. constructor; auto.
Qed.

Lemma m_complete (r : regex) (pos : nat) (x tail : str) (c : captures) :
  matches icase r pos x tail c ->
  forall caps k e,
    k (pos + length x) tail (c ++ caps) = Some e ->
    exists e', m icase r pos (x ++ tail) caps k = Some e'.
Proof.
  induction 1 as [pos tail|w pos x tail Hx|p pos c tail Hc|p pos x tail Hne Hx
                 |r1 r2 pos x1 x2 tail c1 c2 _ IH1 _ IH2
                 |r1 r2 pos x tail c _ IH|r1 r2 pos x tail c _ IH
                 |n r pos x tail c _ IH|tail|pos tail Ht];
    intros caps k e Hk; simpl in *.
  - rewrite Nat.add_0_r in Hk. eauto.
  - rewrite (same_text_eat _ Hx). rewrite (same_text_length Hx) in Hk. eauto.
  - rewrite Hc. replace (pos + 1) with (S pos) in Hk by lia. eauto.
  - destruct x as [|a x]; [congruence|]. simpl in *.
    apply andb_true_iff in Hx as [Ha Hx]. rewrite Ha.
    replace (pos + S (length x)) with (S pos + length x) in Hk by lia.
    exact (more_complete p x (S pos) tail
             (fun pos' s'' => k pos' s'' caps) Hx Hk).
  - rewrite <- app_assoc.
    rewrite length_app, Nat.add_assoc, <- app_assoc in Hk.
    destruct (IH2 _ _ _ Hk) as [e2 He2].
    exact (IH1 caps (fun pos' s' caps' => m icase r2 pos' s' caps' k) e2 He2).
  - destruct (IH _ _ _ Hk) as [e' ->]. eauto.
  - destruct (m icase r1 pos (x ++ tail) caps k); eauto.
  - apply (IH caps
             (fun pos' s' caps' =>
                k pos' s' ((n, firstn (pos' - pos) (x ++ tail)) :: caps')) e).
    replace (pos + length x - pos) with (length x) by lia.
    rewrite firstn_app, Nat.sub_diag, firstn_all. simpl.
    rewrite app_nil_r. exact Hk.
  - eauto.
  - rewrite Nat.add_0_r in Hk. destruct Ht as [-> | ->]; simpl; eauto.
Qed.

End MatcherFacts.

(** ** [EVENT_PARSER] *)

Lemma same_text_exact (w x : str) : same_text false w x <-> w = x.
Proof.
  unfold same_text; split.
  - induction 1 as [|a b w x Hab _ IH]; [reflexivity|].
    simpl in Hab. apply chr_eqb_eq in Hab. congruence.
  - intros <-. induction w; constructor; auto. simpl. apply chr_eqb_refl.
Qed.

Ltac inv_matches :=
  repeat match goal with
  | H : matches _ (seqs _) _ _ _ _ |- _ => unfold seqs in H; simpl in H
  | H : matches _ (Seq _ _) _ _ _ _ |- _ => inversion H; subst; clear H
  | H : matches _ (Group _ _) _ _ _ _ |- _ => inversion H; subst; clear H
  | H : matches _ (Alt _ _) _ _ _ _ |- _ => inversion H; subst; clear H
  | H : matches _ (Chars _) _ _ _ _ |- _ => inversion H; subst; clear H
  | H : matches _ (Class _) _ _ _ _ |- _ => inversion H; subst; clear H
  | H : matches _ (PlusClass _) _ _ _ _ |- _ => inversion H; subst; clear H
  | H : matches _ Empty _ _ _ _ |- _ => inversion H; subst; clear H
  | H : matches _ Bol _ _ _ _ |- _ => inversion H; subst; clear H
  | H : matches _ Eol _ _ _ _ |- _ => inversion H; subst; clear H
  end.

Lemma EVENT_PARSER_matches (pos : nat) (s tail : str) (c : captures) :
  matches false EVENT_PARSER pos s tail c ->
  pos = 0 /\
  exists u act a x,
    c = [(4, x); (3, a); (2, act); (1, u)] /\
    s = u ++ lit " " ++ act ++ lit " access to " ++ a ++ lit " for " ++ x
        ++ lit " scopes" /\
    plain u /\ (act = lit "revoked" \/ act = lit "authorized") /\ plain a
    /\ plain x /\ (tail = [] \/ tail = [newline]).
Proof.
  intros H. unfold EVENT_PARSER in H. inv_matches.
  all: repeat match goal with
       | H : same_text false _ _ |- _ => apply same_text_exact in H; subst
       end.
  all: split; [reflexivity|].
  all: do 4 eexists; simpl; rewrite ?app_nil_r; repeat split; eauto.
Qed.

Lemma search_from_anchored (icase : bool) (r : regex) (s : str) :
  forall pos, pos <> 0 -> search_from icase (Seq Bol r) pos s = None.
Proof.
  induction s as [|c s IH]; intros pos Hpos; simpl;
    destruct (Nat.eqb_neq pos 0) as [_ E]; rewrite (E Hpos); auto.
Qed.

Lemma search_anchored (icase : bool) (r : regex) (s : str) :
  search icase (Seq Bol r) s = match_ icase (Seq Bol r) s.
Proof.
  unfold search, match_. destruct s as [|c s]; simpl.
  - destruct (m icase r 0 [] [] (accept)); reflexivity.
  - destruct (m icase r 0 (c :: s) [] (accept)); [reflexivity|].
    now rewrite search_from_anchored.
Qed.

Lemma search_EVENT_PARSER_sound (s : str) (e : mend) :
  search false EVENT_PARSER s = Some e ->
  exists u act a x,
    snd e = [(4, x); (3, a); (2, act); (1, u)] /\ event_shape s u act a x.
Proof.
  unfold EVENT_PARSER, seqs; simpl fold_right. rewrite search_anchored.
  unfold match_. intros H.
  destruct (m_sound _ _ _ _ _ _ H) as (x & tail & c & -> & M & Hk).
  apply EVENT_PARSER_matches in M as (_ & u & act & a & y & -> & -> & Hu & Hact & Ha & Hy & Ht).
  unfold accept in Hk. injection Hk as <-. cbn [snd app].
  exists u, act, a, y. split; [reflexivity|].
  unfold event_shape. repeat (split; [tauto|]).
  exists tail. split; [assumption|]. unfold event_text.
  repeat rewrite <- app_assoc. reflexivity.
Qed.

Lemma event_shape_matches (s u act a x : str) :
  event_shape s u act a x ->
  exists y tail,
    s = y ++ tail /\
    matches false EVENT_PARSER 0 y tail [(4, x); (3, a); (2, act); (1, u)].
Proof.
  intros (Hu & Hact & Ha & Hx & nl & Hnl & ->).
  exists (u ++ lit " " ++ act ++ lit " access to " ++ a ++ lit " for " ++ x
          ++ lit " scopes"), nl.
  split. { unfold event_text. repeat rewrite <- app_assoc. reflexivity. }
  unfold EVENT_PARSER, seqs; simpl fold_right.
  apply (M_Seq (x1 := []) (c1 := []) (c2 := [(4, x); (3, a); (2, act); (1, u)])).
  { constructor. }
  apply (M_Seq (x1 := u) (c1 := [(1, u)]) (c2 := [(4, x); (3, a); (2, act)])).
  { constructor. constructor; apply Hu. }
  apply (M_Seq (x1 := lit " ") (c1 := []) (c2 := [(4, x); (3, a); (2, act)])).
  { constructor. now apply same_text_exact. }
  apply (M_Seq (x1 := act) (c1 := [(2, act)]) (c2 := [(4, x); (3, a)])).
  { constructor. destruct Hact as [-> | ->].
    - apply M_AltL. constructor. now apply same_text_exact.
    - apply M_AltR. constructor. now apply same_text_exact. }
  apply (M_Seq (x1 := lit " access to ") (c1 := []) (c2 := [(4, x); (3, a)])).
  { constructor. now apply same_text_exact. }
  apply (M_Seq (x1 := a) (c1 := [(3, a)]) (c2 := [(4, x)])).
  { constructor. constructor; apply Ha. }
  apply (M_Seq (x1 := lit " for ") (c1 := []) (c2 := [(4, x)])).
  { constructor. now apply same_text_exact. }
  apply (M_Seq (x1 := x) (c1 := [(4, x)]) (c2 := [])).
  { constructor. constructor; apply Hx. }
  apply (M_Seq (x1 := lit " scopes") (x2 := []) (c1 := []) (c2 := [])).
  { constructor. now apply same_text_exact. }
  apply (M_Seq (x1 := []) (x2 := []) (c1 := []) (c2 := [])).
  { constructor. assumption. }
  constructor.
Qed.

Lemma search_EVENT_PARSER_complete (s u act a x : str) :
  event_shape s u act a x ->
  exists e, search false EVENT_PARSER s = Some e.
Proof.
  intros H. destruct (event_shape_matches H) as (y & tail & -> & M).
  unfold EVENT_PARSER, seqs in *; simpl fold_right in *.
  rewrite search_anchored. unfold match_.
  eapply m_complete; [exact M|]. reflexivity.
Qed.

(** ** Substrings *)

Lemma starts_with_spec (t s : str) :
  starts_with t s = true <-> exists post, s = t ++ post.
Proof.
  revert s; induction t as [|a t IH]; intros s; simpl.
  - split; eauto.
  - destruct s as [|b s].
    + split; [discriminate | intros [post H]; discriminate].
    + rewrite andb_true_iff, chr_eqb_eq, IH. split.
      * intros [-> [post ->]]. eauto.
      * intros [post H]. injection H as -> ->. eauto.
Qed.

Lemma contains_spec (t s : str) :
  contains t s = true <-> exists pre post, s = pre ++ t ++ post.
Proof.
  induction s as [|b s IH]; simpl; rewrite orb_true_iff.
  - rewrite starts_with_spec. split.
    + intros [[post H] | H]; [|discriminate]. exists [], post. exact H.
    + intros (pre & post & H). left.
      destruct pre as [|c pre]; [eauto | discriminate].
  - rewrite starts_with_spec, IH. split.
    + intros [[post H] | (pre & post & ->)].
      * exists [], post. exact H.
      * exists (b :: pre), post. reflexivity.
    + intros (pre & post & H). destruct pre as [|c pre]; simpl in H.
      * left. eauto.
      * right. injection H as _ ->. eauto.
Qed.

(** ** LIKE *)

Lemma like_percent (p s : str) :
  Sqlite.like (Sqlite.percent :: p) s
  = Sqlite.like p s
    || match s with
       | [] => false
       | _ :: s' => Sqlite.like (Sqlite.percent :: p) s'
       end.
Proof. destruct s; reflexivity. Qed.

Lemma like_lower (p s : str) : Sqlite.like p (lower_str s) = Sqlite.like p s.
Proof.
  revert s; induction p as [|c p IH]; intros s.
  - destruct s; reflexivity.
  - destruct (chr_eqb c Sqlite.percent) eqn:E1.
    + apply chr_eqb_eq in E1; subst c.
      induction s as [|d s IHs].
      * reflexivity.
      * change (lower_str (d :: s)) with (lower d :: lower_str s).
        rewrite (like_percent p (lower d :: lower_str s)).
        rewrite (like_percent p (d :: s)), IHs, <- (IH (d :: s)).
        reflexivity.
    + simpl. rewrite E1.
      destruct (chr_eqb c Sqlite.underscore) eqn:E2; destruct s as [|d s]; simpl;
        try reflexivity; rewrite IH; [reflexivity|].
      now rewrite lower_idem.
Qed.

Lemma like_only_percent (s : str) : Sqlite.like [Sqlite.percent] s = true.
Proof.
  induction s as [|d s IH]; [reflexivity|].
  rewrite like_percent, IH. apply orb_true_r.
Qed.

Lemma like_literal_prefix (w s : str) :
  literal_pattern w = true ->
  Sqlite.like (w ++ [Sqlite.percent]) s = starts_with w (lower_str s).
Proof.
  revert s; induction w as [|c w IH]; intros s Hw.
  - simpl app. rewrite like_only_percent. reflexivity.
  - simpl in Hw. apply andb_true_iff in Hw as [Hc Hw].
    apply andb_true_iff in Hc as [Hc Hl]. apply andb_true_iff in Hc as [H1 H2].
    apply negb_true_iff in H1, H2. apply chr_eqb_eq in Hl.
    simpl. rewrite H1, H2. destruct s as [|d s]; simpl; [reflexivity|].
    rewrite (IH s Hw), Hl. reflexivity.
Qed.

Lemma like_contains (w s : str) :
  literal_pattern w = true ->
  Sqlite.like (Sqlite.percent :: w ++ [Sqlite.percent]) s
  = contains w (lower_str s).
Proof.
  intros Hw. induction s as [|d s IH].
  - rewrite like_percent, like_literal_prefix by assumption.
    simpl. now rewrite orb_false_r.
  - rewrite like_percent, like_literal_prefix by assumption.
    rewrite IH. reflexivity.
Qed.

Lemma QUERY_where_contains (s : str) :
  QUERY_where s = existsb (fun mk => contains mk (lower_str s)) MARKERS.
Proof.
  unfold QUERY_where, MARKERS. cbn [existsb].
  rewrite <- 3 like_contains by reflexivity.
  rewrite orb_false_r, orb_assoc. reflexivity.
Qed.

Lemma QUERY_where_lower (s : str) : QUERY_where (lower_str s) = QUERY_where s.
Proof. unfold QUERY_where. now rewrite 3 like_lower. Qed.

(** C5 (as stated, refuted): the text [DOCS.GOOGLE.COM/FEEDS] is selected
    although none of the three markers occurs in it as a literal
    substring. *)
Lemma QUERY_where_not_literal :
  QUERY_where (lit "DOCS.GOOGLE.COM/FEEDS") = true
  /\ existsb (fun mk => contains mk (lit "DOCS.GOOGLE.COM/FEEDS")) MARKERS
     = false.
Proof. split; reflexivity. Qed.

(** C5 (amended): the filter is a total predicate that selects an event
    text exactly when the text contains one of the three markers up to
    the case of ASCII letters. *)
Theorem QUERY_where_iff (s : str) :
  QUERY_where s = true <->
  exists mk pre mid post,
    In mk MARKERS /\ s = pre ++ mid ++ post /\ lower_str mid = mk.
Proof.
  rewrite QUERY_where_contains, existsb_exists. split.
  - intros (mk & Hin & H). apply contains_spec in H as (pre' & post' & H).
    unfold lower_str in H.
    apply map_eq_app in H as (pre & rest & -> & Hpre & H).
    apply map_eq_app in H as (mid & post & -> & Hmid & Hpost).
    exists mk, pre, mid, post. auto.
  - intros (mk & pre & mid & post & Hin & -> & Hmid).
    exists mk. split; [assumption|]. apply contains_spec.
    exists (lower_str pre), (lower_str post).
    unfold lower_str in *. now rewrite 2 map_app, Hmid.
Qed.

(** C10: selection does not depend on the case of ASCII letters, and a
    text that contains [DOCS.GOOGLE.COM/FEEDS] is selected. *)
Theorem QUERY_where_case_insensitive :
  (forall s t, case_variant s t -> QUERY_where s = QUERY_where t)
  /\ (forall pre post,
        QUERY_where (pre ++ lit "DOCS.GOOGLE.COM/FEEDS" ++ post) = true).
Proof.
  split.
  - intros s t H. rewrite <- (QUERY_where_lower s), <- (QUERY_where_lower t).
    now rewrite H.
  - intros pre post. rewrite QUERY_where_contains. apply existsb_exists.
    exists (lit "docs.google.com/feeds"). split; [left; reflexivity|].
    apply contains_spec. exists (lower_str pre), (lower_str post).
    unfold lower_str. now rewrite 2 map_app.
Qed.

(** ** [transform_row] *)

Lemma check_raises (d : datetime) (e : exn) :
  Strptime.check d = Raise e -> exists msg, e = ValueError msg.
Proof.
  unfold Strptime.check.
  repeat match goal with
         | |- context [if ?b then _ else _] => destruct b
         end; intros H; try discriminate; injection H as <-; eauto.
Qed.

Lemma parse_date_raises (lt : Strptime.locale_time) (s : str) (e : exn) :
  parse_date lt s = Raise e -> exists msg, e = ValueError msg.
Proof.
  unfold parse_date, Strptime.strptime.
  destruct (Strptime.pattern lt DATE_FORMAT) as [rs|].
  - destruct (match_ true (seqs rs) (collapse false s)) as [[[p rest] c]|].
    + destruct rest.
      * apply check_raises.
      * intros H; injection H as <-; eauto.
    + intros H; injection H as <-; eauto.
  - intros H; injection H as <-; eauto.
Qed.

Lemma transform_row_Ok (lt : Strptime.locale_time) (r : Log.row) (t : row) :
  transform_row lt r = Ok t ->
  exists x,
    event_shape (Log.event r) (user t) (action t) (app t) x
    /\ scope t = split x
    /\ parse_date lt (Log.date r) = Ok (date t).
Proof.
  unfold transform_row.
  destruct (search false EVENT_PARSER (Log.event r)) as [[[p rest] c]|] eqn:E;
    [|discriminate].
  apply search_EVENT_PARSER_sound in E as (u & act & a & x & Hc & Hs).
  simpl in Hc; subst c. cbn [groups group Nat.eqb].
  destruct (parse_date lt (Log.date r)) as [d|e]; simpl; [|discriminate].
  intros H; injection H as <-. simpl. eauto.
Qed.

Lemma transform_row_RuntimeError (lt : Strptime.locale_time) (r : Log.row)
  (msg : str) :
  transform_row lt r = Raise (RuntimeError msg) <->
  search false EVENT_PARSER (Log.event r) = None
  /\ msg = lit "Event does not follow expected format: " ++ Log.event r.
Proof.
  unfold transform_row.
  destruct (search false EVENT_PARSER (Log.event r)) as [[[p rest] c]|] eqn:E.
  - destruct (groups c) as [[[u act] a] x].
    destruct (parse_date lt (Log.date r)) as [d|e] eqn:P; simpl.
    + split; [discriminate | intros [H _]; discriminate].
    + apply parse_date_raises in P as [m' ->].
      split; [discriminate | intros [H _]; discriminate].
  - split.
    + intros H; injection H as <-. auto.
    + intros [_ ->]. reflexivity.
Qed.

(** C3 (as stated, refuted): the specification's own malformed row is
    selected by the filter, and [transform_row] raises on it. *)
Lemma odd_row_selected_and_rejected :
  QUERY_where (Log.event odd_row) = true
  /\ transform_row utc odd_row
     = Raise (RuntimeError
                (lit "Event does not follow expected format: alice did something odd to docs.google.com/feeds")).
Proof. split; reflexivity. Qed.

(** C3 (amended): for a selected event text the error branch of
    [transform_row] is taken exactly when the text does not read
    [<user> (revoked|authorized) access to <app> for <scopes> scopes];
    being selected does not exclude it. *)
Theorem selected_row_error_branch (lt : Strptime.locale_time) (r : Log.row) :
  QUERY_where (Log.event r) = true ->
  (transform_row lt r
   = Raise (RuntimeError
              (lit "Event does not follow expected format: " ++ Log.event r))
   <-> ~ exists u act a x, event_shape (Log.event r) u act a x).
Proof.
  intros _. rewrite transform_row_RuntimeError. split.
  - intros [H _] (u & act & a & x & Hs).
    apply search_EVENT_PARSER_complete in Hs as [e He]. congruence.
  - intros H. split; [|reflexivity].
    destruct (search false EVENT_PARSER (Log.event r)) as [e|] eqn:E;
      [|reflexivity].
    exfalso. apply H.
    apply search_EVENT_PARSER_sound in E as (u & act & a & x & _ & Hs). eauto.
Qed.

Lemma selected_row_error_branch_witness :
  QUERY_where (Log.event odd_row) = true
  /\ (transform_row utc odd_row
      = Raise (RuntimeError
                 (lit "Event does not follow expected format: "
                  ++ Log.event odd_row))
      <-> ~ exists u act a x, event_shape (Log.event odd_row) u act a x).
Proof.
  split; [reflexivity|].
  apply (@selected_row_error_branch utc odd_row). reflexivity.
Defined.

(** ** [split] *)

Lemma split_from_tokens (s : str) :
  forall cur,
    forallb (fun c => negb (isspace c)) cur = true ->
    Forall token (split_from cur s).
Proof.
  assert (R : forall cur, cur <> [] ->
                forallb (fun c => negb (isspace c)) cur = true ->
                token (rev cur)).
  { intros cur Hne Hc. split.
    - intros E. apply Hne. apply (f_equal (@rev ascii)) in E.
      now rewrite rev_involutive in E.
    - rewrite forallb_forall in *. intros c Hin. apply Hc.
      now apply in_rev. }
  induction s as [|c s IH]; intros cur Hc; simpl.
  - destruct cur; constructor; [apply R; [discriminate | assumption] | constructor].
  - destruct (isspace c) eqn:E.
    + destruct cur.
      * now apply IH.
      * constructor; [apply R; [discriminate | assumption] | now apply IH].
    + apply IH. simpl. now rewrite E.
Qed.

Lemma split_from_nil (s : str) :
  forall cur,
    split_from cur s = [] <-> cur = [] /\ forallb isspace s = true.
Proof.
  induction s as [|c s IH]; intros cur; simpl.
  - destruct cur; split; try tauto; try discriminate. intros [H _]; discriminate.
  - destruct (isspace c) eqn:E; simpl.
    + destruct cur.
      * apply IH.
      * split; [discriminate | intros [H _]; discriminate].
    + rewrite IH. split; intros [H1 H2]; discriminate.
Qed.

Lemma split_tokens (s : str) : Forall token (split s).
Proof. now apply split_from_tokens. Qed.

Lemma split_nil (s : str) : split s = [] <-> forallb isspace s = true.
Proof. unfold split. rewrite split_from_nil. tauto. Qed.

(** C8 (as stated, refuted): the event text
    [a authorized access to b for   scopes] is decomposed, and its list of
    scopes is empty. *)
Lemma blank_scope_row_transformed :
  transform_row utc blank_scope_row
  = Ok {| user := lit "a"; action := lit "authorized"; app := lit "b";
          scope := []; date := mk_datetime 2021 1 5 15 4 5 |}.
Proof. reflexivity. Qed.

(** ** Fail-fast *)

Lemma map_result_Ok {A B : Type} (f : A -> result B) (l : list A)
  (ys : list B) :
  map_result f l = Ok ys <-> Forall2 (fun x y => f x = Ok y) l ys.
Proof.
  revert ys; induction l as [|a l IH]; intros ys; simpl.
  - split.
    + intros H; injection H as <-. constructor.
    + intros H; inversion H; reflexivity.
  - destruct (f a) as [b|e] eqn:E; simpl.
    + destruct (map_result f l) as [bs|e] eqn:M; simpl.
      * split.
        -- intros H; injection H as <-. constructor; [assumption|]. now apply IH.
        -- intros H; inversion H as [|? y ? ys' Hy Hys]; subst.
           apply IH in Hys. congruence.
      * split; [discriminate|].
        intros H; inversion H as [|? y ? ys' Hy Hys]; subst.
        apply IH in Hys. discriminate.
    + split; [discriminate|].
      intros H; inversion H; subst. congruence.
Qed.

Lemma map_result_Raise {A B : Type} (f : A -> result B) (l : list A)
  (e : exn) :
  map_result f l = Raise e <->
  exists pre bad post,
    l = pre ++ bad :: post
    /\ (forall x, In x pre -> exists y, f x = Ok y)
    /\ f bad = Raise e.
Proof.
  split.
  - induction l as [|a l IH]; simpl; [discriminate|].
    destruct (f a) as [b|e'] eqn:E; simpl.
    + destruct (map_result f l) as [bs|e'']; simpl; [discriminate|].
      intros H; injection H as ->.
      destruct (IH eq_refl) as (pre & bad & post & -> & Hpre & Hbad).
      exists (a :: pre), bad, post. repeat split; auto.
      intros x [<- | Hx]; eauto.
    + intros H; injection H as ->. exists [], a, l. repeat split; auto.
      intros x [].
  - intros (pre & bad & post & -> & Hpre & Hbad).
    induction pre as [|x pre IH]; simpl.
    + now rewrite Hbad.
    + destruct (Hpre x (or_introl eq_refl)) as [y ->]. simpl.
      rewrite IH; [reflexivity|]. intros z Hz. apply Hpre. now right.
Qed.

Lemma map_result_fails {A B : Type} (f : A -> result B) (l : list A)
  (a : A) (e : exn) :
  In a l -> f a = Raise e -> exists e', map_result f l = Raise e'.
Proof.
  intros Hin Ha. destruct (map_result f l) as [ys|e'] eqn:M; [|eauto].
  apply map_result_Ok in M. exfalso.
  induction M as [|x y l ys Hxy _ IH]; [destruct Hin|].
  destruct Hin as [-> | Hin]; [congruence | auto].
Qed.

Lemma report_Raise (lt : Strptime.locale_time) (log : list Log.row)
  (e : exn) :
  map_result (transform_row lt) (QUERY log) = Raise e ->
  report lt log = Raise e.
Proof.
  unfold report, apply_transform_row. intros H.
  destruct (QUERY log); [discriminate|]. now rewrite H.
Qed.

(** C7 (as stated, refuted): a selected row dated February 30 stops the
    run, and the message of the error is [day is out of range for month]:
    the date text of the row is no part of it. *)
Lemma february_30_message :
  raised (run utc [february_30_row])
  = Some (ValueError (lit "day is out of range for month"))
  /\ contains (Log.date february_30_row)
       (lit "day is out of range for month") = false.
Proof. split; reflexivity. Qed.

(** C7 (amended): if [transform_row] raises on a selected row, the run
    stops with the exception of the first selected row on which it raises:
    no report is built, nothing is printed and the exit status is 1.  When
    the event text of that row does not match, the exception is the
    [RuntimeError] whose message ends with the event text; otherwise it is
    the [ValueError] of [strptime] for the date text. *)
Theorem fail_fast (lt : Strptime.locale_time) (log : list Log.row)
  (r : Log.row) (e0 : exn) :
  In r (QUERY log) ->
  transform_row lt r = Raise e0 ->
  exists pre bad post e,
    QUERY log = pre ++ bad :: post
    /\ (forall x, In x pre -> exists t, transform_row lt x = Ok t)
    /\ transform_row lt bad = Raise e
    /\ report lt log = Raise e
    /\ run lt log = {| stdout := []; status := 1; raised := Some e |}
    /\ (search false EVENT_PARSER (Log.event bad) = None ->
        e = RuntimeError (lit "Event does not follow expected format: "
                          ++ Log.event bad)
        /\ contains (Log.event bad) (message e) = true)
    /\ (search false EVENT_PARSER (Log.event bad) <> None ->
        parse_date lt (Log.date bad) = Raise e
        /\ exists msg, e = ValueError msg).
Proof.
  intros Hin Hr.
  destruct (map_result_fails _ _ _ Hin Hr) as [e He].
  destruct (proj1 (map_result_Raise _ _ _) He) as (pre & bad & post & Hl & Hpre & Hbad).
  exists pre, bad, post, e. split; [assumption|]. split; [assumption|].
  split; [assumption|]. pose proof (report_Raise _ _ He) as Hrep.
  split; [assumption|]. split.
  { unfold run, main. now rewrite Hrep. }
  split.
  - intros Hs. unfold transform_row in Hbad. rewrite Hs in Hbad.
    injection Hbad as <-. split; [reflexivity|].
    simpl message. apply contains_spec.
    exists (lit "Event does not follow expected format: "), [].
    now rewrite app_nil_r.
  - intros Hs. unfold transform_row in Hbad.
    destruct (search false EVENT_PARSER (Log.event bad)) as [[[p rest] c]|];
      [|congruence].
    destruct (groups c) as [[[u act] a] x].
    destruct (parse_date lt (Log.date bad)) as [d|e'] eqn:P; simpl in Hbad;
      [discriminate|].
    injection Hbad as <-. split; [reflexivity|].
    now apply parse_date_raises in P.
Qed.

Lemma fail_fast_witness :
  In odd_row (QUERY [odd_row])
  /\ exists pre bad post e,
    QUERY [odd_row] = pre ++ bad :: post
    /\ (forall x, In x pre -> exists t, transform_row utc x = Ok t)
    /\ transform_row utc bad = Raise e
    /\ report utc [odd_row] = Raise e
    /\ run utc [odd_row] = {| stdout := []; status := 1; raised := Some e |}
    /\ (search false EVENT_PARSER (Log.event bad) = None ->
        e = RuntimeError (lit "Event does not follow expected format: "
                          ++ Log.event bad)
        /\ contains (Log.event bad) (message e) = true)
    /\ (search false EVENT_PARSER (Log.event bad) <> None ->
        parse_date utc (Log.date bad) = Raise e
        /\ exists msg, e = ValueError msg).
Proof.
  split; [left; reflexivity|].
  apply (@fail_fast utc [odd_row] odd_row
           (RuntimeError (lit "Event does not follow expected format: "
                          ++ Log.event odd_row))).
  - left; reflexivity.
  - reflexivity.
Defined.

(** ** [argsort] sorts *)

Section ArgsortFacts.

Variable K : Type.
Variable lt : K -> K -> bool.
Variable v : nat -> K.

(** [lt] is a strict weak order, as [<] on dates is. *)
Hypothesis lt_asym : forall x y, lt x y = true -> lt y x = false.
Hypothesis lt_negtrans :
  forall x y z, lt x y = false -> lt y z = false -> lt x z = false.

Import Numpy.

Lemma lt_irrefl (x : K) : lt x x = false.
Proof.
  destruct (lt x x) eqn:E; [|reflexivity].
  pose proof (lt_asym E). congruence.
Qed.

Lemma length_set (a : list nat) : forall p x, length (set a p x) = length a.
Proof.
  induction a as [|y a IH]; intros [|p] x; simpl; auto.
Qed.

Lemma get_set_eq (a : list nat) :
  forall p x, p < length a -> get (set a p x) p = x.
Proof.
  unfold get. induction a as [|y a IH]; intros [|p] x H; simpl in *;
    try lia; auto. apply IH; lia.
Qed.

Lemma get_set_neq (a : list nat) :
  forall p q x, p <> q -> get (set a p x) q = get a q.
Proof.
  unfold get. induction a as [|y a IH]; intros [|p] [|q] x H; simpl;
    auto; try lia.
Qed.

Lemma length_swap (a : list nat) (p q : nat) :
  length (swap a p q) = length a.
Proof. unfold swap. now rewrite 2 length_set. Qed.

Lemma get_swap (a : list nat) (p q k : nat) :
  p < length a -> q < length a ->
  get (swap a p q) k
  = if Nat.eqb k q then get a p else if Nat.eqb k p then get a q else get a k.
Proof.
  intros Hp Hq. unfold swap.
  destruct (Nat.eqb k q) eqn:E1.
  - apply Nat.eqb_eq in E1; subst k. apply get_set_eq. now rewrite length_set.
  - apply Nat.eqb_neq in E1. rewrite get_set_neq by congruence.
    destruct (Nat.eqb k p) eqn:E2.
    + apply Nat.eqb_eq in E2; subst k. now apply get_set_eq.
    + apply Nat.eqb_neq in E2. apply get_set_neq. congruence.
Qed.

Lemma swap_Permutation (a : list nat) (p q : nat) :
  p < length a -> q < length a -> Permutation (swap a p q) a.
Proof.
  intros Hp Hq. apply Permutation_sym. apply Permutation_nth_error.
  split; [now rewrite length_swap|].
  exists (fun k => if Nat.eqb k q then p else if Nat.eqb k p then q else k).
  split.
  - intros x y.
    destruct (Nat.eqb x q) eqn:E1; destruct (Nat.eqb x p) eqn:E2;
      destruct (Nat.eqb y q) eqn:E3; destruct (Nat.eqb y p) eqn:E4;
      repeat match goal with
             | H : Nat.eqb _ _ = true |- _ => apply Nat.eqb_eq in H
             | H : Nat.eqb _ _ = false |- _ => apply Nat.eqb_neq in H
             end; lia.
  - intros k. destruct (Nat.lt_ge_cases k (length a)) as [Hk | Hk].
    + rewrite (nth_error_nth' (swap a p q) 0) by now rewrite length_swap.
      fold (get (swap a p q) k). rewrite get_swap by assumption.
      destruct (Nat.eqb k q); [now rewrite (nth_error_nth' a 0)|].
      destruct (Nat.eqb k p); now rewrite (nth_error_nth' a 0).
    + destruct (Nat.eqb k q) eqn:E1; [apply Nat.eqb_eq in E1; lia|].
      destruct (Nat.eqb k p) eqn:E2; [apply Nat.eqb_eq in E2; lia|].
      rewrite (proj2 (nth_error_None _ _)) by now rewrite length_swap.
      symmetry. now apply nth_error_None.
Qed.

Lemma scan_up_spec (a : list nat) (vp : K) (q : nat) :
  lt (v (get a q)) vp = false ->
  forall fuel pi,
    pi < q -> q <= pi + fuel ->
    let r := scan_up lt v fuel a vp pi in
    pi < r /\ r <= q /\ lt (v (get a r)) vp = false
    /\ forall k, pi < k -> k < r -> lt (v (get a k)) vp = true.
Proof.
  intros Hq. induction fuel as [|f IH]; intros pi H1 H2; simpl; [lia|].
  destruct (lt (v (get a (S pi))) vp) eqn:E.
  - assert (S pi <> q) by (intros <-; congruence).
    destruct (IH (S pi)) as (R1 & R2 & R3 & R4); [lia | lia |].
    repeat split; [lia | assumption | assumption |].
    intros k Hk1 Hk2. destruct (Nat.eq_dec k (S pi)) as [-> | Hne]; auto.
    apply R4; lia.
  - repeat split; [lia | lia | assumption |]. intros k Hk1 Hk2. lia.
Qed.

Lemma scan_down_spec (a : list nat) (vp : K) (q : nat) :
  lt vp (v (get a q)) = false ->
  forall fuel pj,
    q < pj -> pj <= q + fuel ->
    let r := scan_down lt v fuel a vp pj in
    q <= r /\ r < pj /\ lt vp (v (get a r)) = false
    /\ forall k, r < k -> k < pj -> lt vp (v (get a k)) = true.
Proof.
  intros Hq. induction fuel as [|f IH]; intros pj H1 H2; simpl; [lia|].
  destruct (lt vp (v (get a (pj - 1)))) eqn:E.
  - assert (pj - 1 <> q) by (intros <-; congruence).
    destruct (IH (pj - 1)) as (R1 & R2 & R3 & R4); [lia | lia |].
    repeat split; [assumption | lia | assumption |].
    intros k Hk1 Hk2. destruct (Nat.eq_dec k (pj - 1)) as [-> | Hne]; auto.
    apply R4; lia.
  - repeat split; [lia | lia | assumption |]. intros k Hk1 Hk2. lia.
Qed.

Lemma partition_loop_spec (vp : K) :
  forall fuel a pi pj,
    between lt v a vp pi pj -> pj - pi <= fuel ->
    let r := partition_loop lt v fuel a vp pi pj in
    Permutation (fst r) a /\ length (fst r) = length a
    /\ pi < snd r /\ snd r <= pj
    /\ (forall k, k < snd r -> lt vp (v (get (fst r) k)) = false)
    /\ (forall k, snd r <= k -> k < length a ->
                  lt (v (get (fst r) k)) vp = false)
    /\ (forall k, pj <= k -> get (fst r) k = get a k).
Proof.
  induction fuel as [|f IH]; intros a pi pj (B1 & B2 & B3 & B4) Hf;
    [lia|].
  cbn [partition_loop].
  destruct (@scan_up_spec a vp pj (B4 pj (le_n _) B2) (length a) pi)
    as (U1 & U2 & U3 & U4); [lia | lia |].
  destruct (@scan_down_spec a vp pi (B3 pi (le_n _)) (length a) pj)
    as (D1 & D2 & D3 & D4); [lia | lia |].
  set (pi' := scan_up lt v (length a) a vp pi) in *.
  set (pj' := scan_down lt v (length a) a vp pj) in *.
  destruct (pj' <=? pi') eqn:E.
  - apply Nat.leb_le in E. cbn [fst snd].
    split; [apply Permutation_refl|]. split; [reflexivity|].
    split; [assumption|]. split; [assumption|]. split; [|split].
    + intros k Hk. destruct (Nat.le_gt_cases k pi) as [Hle | Hgt];
        [now apply B3 | apply lt_asym; apply U4; lia].
    + intros k Hk1 Hk2.
      destruct (Nat.eq_dec k pi') as [-> | Hne]; [assumption|].
      destruct (Nat.le_gt_cases pj k) as [Hle | Hgt];
        [now apply B4 | apply lt_asym; apply D4; lia].
    + reflexivity.
  - apply Nat.leb_gt in E.
    assert (Hpi' : pi' < length a) by lia.
    assert (Hpj' : pj' < length a) by lia.
    destruct (IH (swap a pi' pj') pi' pj') as (R1 & R2 & R3 & R4 & R5 & R6 & R7).
    + unfold between. rewrite length_swap. repeat split; auto.
      * intros k Hk. rewrite get_swap by assumption.
        destruct (Nat.eqb k pj') eqn:E1; [apply Nat.eqb_eq in E1; lia|].
        destruct (Nat.eqb k pi') eqn:E2; [assumption|].
        apply Nat.eqb_neq in E2.
        destruct (Nat.le_gt_cases k pi) as [Hle | Hgt];
          [now apply B3 | apply lt_asym; apply U4; lia].
      * intros k Hk1 Hk2. rewrite get_swap by assumption.
        destruct (Nat.eqb k pj') eqn:E1; [assumption|].
        apply Nat.eqb_neq in E1.
        destruct (Nat.eqb k pi') eqn:E2; [apply Nat.eqb_eq in E2; lia|].
        destruct (Nat.le_gt_cases pj k) as [Hle | Hgt];
          [now apply B4 | apply lt_asym; apply D4; lia].
    + lia.
    + rewrite length_swap in *.
      split; [rewrite R1; now apply swap_Permutation|].
      split; [assumption|]. split; [lia|]. split; [lia|].
      split; [assumption|]. split; [assumption|].
      intros k Hk. rewrite R7 by lia. rewrite get_swap by assumption.
      destruct (Nat.eqb k pj') eqn:E1; [apply Nat.eqb_eq in E1; lia|].
      destruct (Nat.eqb k pi') eqn:E2; [apply Nat.eqb_eq in E2; lia|].
      reflexivity.
Qed.

(** One compare-and-swap of [median3]. *)
Lemma compare_swap_spec (a : list nat) (p q : nat) :
  p < length a -> q < length a -> p <> q ->
  let a' := if less lt v a p q then swap a p q else a in
  Permutation a' a /\ length a' = length a
  /\ lt (v (get a' p)) (v (get a' q)) = false
  /\ (forall k, k <> p -> k <> q -> get a' k = get a k)
  /\ (a' = a
      \/ (lt (v (get a p)) (v (get a q)) = true
          /\ get a' p = get a q /\ get a' q = get a p)).
Proof.
  intros Hp Hq Hne. unfold less.
  destruct (lt (v (get a p)) (v (get a q))) eqn:E; cbn zeta.
  - assert (G1 : get (swap a p q) p = get a q).
    { rewrite get_swap by assumption.
      destruct (Nat.eqb p q) eqn:E1; [apply Nat.eqb_eq in E1; lia|].
      now rewrite Nat.eqb_refl. }
    assert (G2 : get (swap a p q) q = get a p).
    { rewrite get_swap by assumption. now rewrite Nat.eqb_refl. }
    split; [now apply swap_Permutation|]. split; [apply length_swap|].
    split; [rewrite G1, G2; now apply lt_asym|]. split; [|right; auto].
    intros k H1 H2. rewrite get_swap by assumption.
    destruct (Nat.eqb k q) eqn:E1; [apply Nat.eqb_eq in E1; lia|].
    destruct (Nat.eqb k p) eqn:E2; [apply Nat.eqb_eq in E2; lia|].
    reflexivity.
  - split; [apply Permutation_refl|]. auto.
Qed.

Lemma median3_spec (a : list nat) (pm pr : nat) :
  0 < pm -> pm < pr -> pr < length a ->
  let a' := median3 lt v a pm pr in
  Permutation a' a /\ length a' = length a
  /\ lt (v (get a' pm)) (v (get a' 0)) = false
  /\ lt (v (get a' pr)) (v (get a' pm)) = false.
Proof.
  intros H0 Hm Hr. unfold median3.
  destruct (@compare_swap_spec a pm 0) as (P1 & L1 & O1 & F1 & _);
    [lia | lia | lia |].
  set (a1 := if less lt v a pm 0 then swap a pm 0 else a) in *.
  destruct (@compare_swap_spec a1 pr pm) as (P2 & L2 & O2 & F2 & C2);
    [lia | lia | lia |].
  set (a2 := if less lt v a1 pr pm then swap a1 pr pm else a1) in *.
  destruct (@compare_swap_spec a2 pm 0) as (P3 & L3 & O3 & F3 & C3);
    [lia | lia | lia |].
  set (a3 := if less lt v a2 pm 0 then swap a2 pm 0 else a2) in *.
  split; [now rewrite P3, P2|]. split; [lia|]. split; [assumption|].
  destruct C3 as [-> | (T3 & G3 & G3')]; [assumption|].
  rewrite (F3 pr) by lia. rewrite G3. rewrite (F2 0) in * by lia.
  destruct C2 as [E2 | (_ & G2 & _)].
  - rewrite E2 in T3. congruence.
  - rewrite G2. assumption.
Qed.

Lemma partition_spec (a : list nat) :
  SMALL_QUICKSORT < length a - 1 ->
  let r := partition lt v a in
  Permutation (fst r) a /\ length (fst r) = length a
  /\ snd r < length a
  /\ (forall k, k < snd r ->
        lt (v (get (fst r) (snd r))) (v (get (fst r) k)) = false)
  /\ (forall k, snd r < k -> k < length a ->
        lt (v (get (fst r) k)) (v (get (fst r) (snd r))) = false).
Proof.
  unfold SMALL_QUICKSORT. intros Hn. unfold partition.
  set (pr := length a - 1). set (pm := pr / 2).
  assert (Hpm : 0 < pm /\ pm < pr).
  { unfold pm. split.
    - apply Nat.div_str_pos. lia.
    - apply Nat.div_lt; lia. }
  destruct (@median3_spec a pm pr) as (P1 & L1 & O1 & O2); [lia | lia | lia |].
  set (a1 := median3 lt v a pm pr) in *.
  set (vp := v (get a1 pm)).
  set (a2 := swap a1 pm (pr - 1)).
  assert (L2 : length a2 = length a) by (unfold a2; now rewrite length_swap).
  assert (P2 : Permutation a2 a).
  { unfold a2. rewrite swap_Permutation by lia. assumption. }
  assert (G2 : forall k, get a2 k
                         = if Nat.eqb k (pr - 1) then get a1 pm
                           else if Nat.eqb k pm then get a1 (pr - 1)
                           else get a1 k).
  { intros k. unfold a2. apply get_swap; lia. }
  assert (B : between lt v a2 vp 0 (pr - 1)).
  { unfold between. rewrite L2. split; [lia|]. split; [lia|]. split.
    - intros k Hk. assert (k = 0) by lia; subst k. rewrite G2.
      destruct (Nat.eqb 0 (pr - 1)) eqn:E1; [apply Nat.eqb_eq in E1; lia|].
      destruct (Nat.eqb 0 pm) eqn:E2; [apply Nat.eqb_eq in E2; lia|].
      exact O1.
    - intros k Hk1 Hk2. rewrite G2.
      destruct (Nat.eqb k (pr - 1)) eqn:E1; [apply lt_irrefl|].
      apply Nat.eqb_neq in E1. assert (k = pr) by lia; subst k.
      destruct (Nat.eqb pr pm) eqn:E2; [apply Nat.eqb_eq in E2; lia|].
      exact O2. }
  destruct (@partition_loop_spec vp (length a2) a2 0 (pr - 1) B)
    as (R1 & R2 & R3 & R4 & R5 & R6 & R7); [lia|].
  destruct (partition_loop lt v (length a2) a2 vp 0 (pr - 1)) as [a3 p].
  cbn [fst snd] in *. rewrite L2 in *.
  assert (G4 : forall k, get (swap a3 p (pr - 1)) k
                         = if Nat.eqb k (pr - 1) then get a3 p
                           else if Nat.eqb k p then get a3 (pr - 1)
                           else get a3 k).
  { intros k. apply get_swap; lia. }
  assert (Hpiv : v (get a3 (pr - 1)) = vp).
  { rewrite R7 by lia. rewrite G2, Nat.eqb_refl. reflexivity. }
  split; [rewrite swap_Permutation by lia; now rewrite R1|].
  split; [now rewrite length_swap|]. split; [lia|].
  assert (Hp : v (get (swap a3 p (pr - 1)) p) = vp).
  { rewrite G4. destruct (Nat.eqb p (pr - 1)) eqn:E1.
    - apply Nat.eqb_eq in E1. rewrite E1. exact Hpiv.
    - now rewrite Nat.eqb_refl. }
  rewrite Hp. split.
  - intros k Hk. rewrite G4.
    destruct (Nat.eqb k (pr - 1)) eqn:E1; [apply Nat.eqb_eq in E1; lia|].
    destruct (Nat.eqb k p) eqn:E2; [apply Nat.eqb_eq in E2; lia|].
    now apply R5.
  - intros k Hk1 Hk2. rewrite G4.
    destruct (Nat.eqb k (pr - 1)) eqn:E1; [apply R6; lia|].
    destruct (Nat.eqb k p) eqn:E2; [apply Nat.eqb_eq in E2; lia|].
    apply R6; lia.
Qed.

Lemma StronglySorted_app {A : Type} (R : A -> A -> Prop) (l1 l2 : list A) :
  StronglySorted R l1 -> StronglySorted R l2 ->
  (forall x y, In x l1 -> In y l2 -> R x y) ->
  StronglySorted R (l1 ++ l2).
Proof.
  induction l1 as [|a l1 IH]; intros S1 S2 H; simpl; [assumption|].
  apply StronglySorted_inv in S1 as [S1 F1]. constructor.
  - apply IH; auto. intros x y Hx Hy. apply H; [now right | assumption].
  - apply Forall_app. split; [assumption|].
    apply Forall_forall. intros y Hy. apply H; [now left | assumption].
Qed.

Lemma StronglySorted_rev {A : Type} (R : A -> A -> Prop) (l : list A) :
  StronglySorted R l -> StronglySorted (fun x y => R y x) (rev l).
Proof.
  induction 1 as [|a l _ IH F]; simpl; [constructor|].
  apply StronglySorted_app; [assumption | repeat constructor |].
  intros x y Hx [<- | []]. rewrite Forall_forall in F. apply F.
  now apply in_rev.
Qed.

Lemma insert_back_Permutation (vi : nat) (before : list nat) :
  Permutation (insert_back lt v vi before) (vi :: before).
Proof.
  induction before as [|x r IH]; simpl; [apply Permutation_refl|].
  destruct (lt (v vi) (v x)); [|apply Permutation_refl].
  rewrite IH. apply perm_swap.
Qed.

Lemma insert_back_sorted (vi : nat) (before : list nat) :
  StronglySorted (fun i j => le_at lt v j i) before ->
  StronglySorted (fun i j => le_at lt v j i) (insert_back lt v vi before).
Proof.
  unfold le_at. induction 1 as [|x r S IH F]; simpl.
  - repeat constructor.
  - destruct (lt (v vi) (v x)) eqn:E.
    + constructor; [assumption|].
      rewrite insert_back_Permutation. constructor; [|assumption].
      now apply lt_asym.
    + constructor; [now constructor|]. constructor; [assumption|].
      rewrite Forall_forall in *. intros y Hy.
      apply (lt_negtrans E). now apply F.
Qed.

Lemma insert_back_stable (p : nat -> bool) (vi : nat) (before : list nat) :
  tied lt v p ->
  filter p (rev (insert_back lt v vi before))
  = filter p (rev before) ++ filter p [vi].
Proof.
  intros T. induction before as [|x r IH]; simpl; [reflexivity|].
  destruct (lt (v vi) (v x)) eqn:E; simpl.
  - rewrite 2 filter_app, IH. simpl.
    destruct (p vi) eqn:Pi; destruct (p x) eqn:Px; rewrite ?app_nil_r;
      try reflexivity.
    rewrite (T _ _ Pi Px) in E. discriminate.
  - rewrite filter_app. reflexivity.
Qed.

Lemma insertion_fold_spec (p : nat -> bool) (a : list nat) :
  tied lt v p ->
  forall before,
    StronglySorted (fun i j => le_at lt v j i) before ->
    let r := fold_left (fun before vi => insert_back lt v vi before) a before in
    Permutation r (rev a ++ before)
    /\ StronglySorted (fun i j => le_at lt v j i) r
    /\ filter p (rev r) = filter p (rev before) ++ filter p a.
Proof.
  intros T. induction a as [|x a IH]; intros before S; simpl.
  - split; [apply Permutation_refl|]. split; [assumption|].
    now rewrite app_nil_r.
  - destruct (IH (insert_back lt v x before)) as (P1 & S1 & F1).
    { now apply insert_back_sorted. }
    split; [|split].
    + rewrite P1, insert_back_Permutation, <- app_assoc. simpl.
      apply Permutation_app_head. apply Permutation_refl.
    + assumption.
    + rewrite F1, insert_back_stable by assumption.
      rewrite <- app_assoc. f_equal. simpl. destruct (p x); reflexivity.
Qed.

Lemma tied_none : tied lt v (fun _ => false).
Proof. intros i j H; discriminate. Qed.

Lemma insertion_sort_spec (a : list nat) :
  Permutation (insertion_sort lt v a) a
  /\ StronglySorted (le_at lt v) (insertion_sort lt v a).
Proof.
  destruct (@insertion_fold_spec (fun _ => false) a tied_none [])
    as (P & S & _); [constructor|].
  unfold insertion_sort. split.
  - rewrite <- Permutation_rev, P, app_nil_r. symmetry. apply Permutation_rev.
  - apply StronglySorted_rev in S. exact S.
Qed.

(** Insertion keeps entries with equal values in their order. *)
Lemma insertion_sort_stable (p : nat -> bool) (a : list nat) :
  tied lt v p -> filter p (insertion_sort lt v a) = filter p a.
Proof.
  intros T.
  destruct (@insertion_fold_spec p a T []) as (_ & _ & F); [constructor|].
  exact F.
Qed.

Lemma split_at (a : list nat) (p : nat) :
  p < length a -> a = firstn p a ++ get a p :: skipn (S p) a.
Proof.
  revert p; induction a as [|x a IH]; intros [|p] H; simpl in *; try lia.
  - reflexivity.
  - unfold get in *. simpl. f_equal. apply IH. lia.
Qed.

Lemma in_firstn_get (a : list nat) (p x : nat) :
  In x (firstn p a) -> exists k, k < p /\ k < length a /\ x = get a k.
Proof.
  intros H. destruct (In_nth _ _ 0 H) as (k & Hk & E).
  rewrite length_firstn in Hk. rewrite nth_firstn in E.
  exists k. destruct (k <? p) eqn:L; [|apply Nat.ltb_ge in L; lia].
  repeat split; try lia. now symmetry.
Qed.

Lemma in_skipn_get (a : list nat) (p x : nat) :
  In x (skipn p a) -> exists k, p <= k /\ k < length a /\ x = get a k.
Proof.
  intros H. destruct (In_nth _ _ 0 H) as (k & Hk & E).
  rewrite length_skipn in Hk. rewrite nth_skipn in E.
  exists (p + k). repeat split; try lia. now symmetry.
Qed.

Lemma aquicksort_spec :
  forall fuel a,
    length a <= fuel ->
    Permutation (aquicksort lt v fuel a) a
    /\ StronglySorted (le_at lt v) (aquicksort lt v fuel a).
Proof.
  induction fuel as [|f IH]; intros a Hf.
  - destruct a; [|simpl in Hf; lia]. simpl. split; constructor.
  - cbn [aquicksort].
    destruct (SMALL_QUICKSORT <? length a - 1) eqn:E;
      [|apply insertion_sort_spec].
    apply Nat.ltb_lt in E.
    destruct (partition_spec a E) as (P & L & Hp & Lo & Hi).
    destruct (partition lt v a) as [a' p]. cbn [fst snd] in *.
    destruct (IH (firstn p a')) as (P1 & S1);
      [rewrite length_firstn; lia|].
    destruct (IH (skipn (S p) a')) as (P2 & S2);
      [rewrite length_skipn; lia|].
    split.
    + rewrite P1, P2. simpl. rewrite <- split_at by lia. assumption.
    + apply StronglySorted_app; [assumption | |].
      * simpl. constructor; [assumption|]. apply Forall_forall.
        intros y Hy. apply (Permutation_in _ P2) in Hy.
        apply in_skipn_get in Hy as (k & H1 & H2 & ->).
        unfold le_at. apply Hi; lia.
      * intros x y Hx Hy. apply (Permutation_in _ P1) in Hx.
        apply in_firstn_get in Hx as (k & H1 & H2 & ->).
        assert (Hk : lt (v (get a' p)) (v (get a' k)) = false)
          by (apply Lo; lia).
        destruct Hy as [<- | Hy]; [exact Hk|].
        apply (Permutation_in _ P2) in Hy.
        apply in_skipn_get in Hy as (j & H3 & H4 & ->).
        unfold le_at. apply (@lt_negtrans _ (v (get a' p))); [|assumption].
        apply Hi; lia.
Qed.

Lemma aquicksort_small (fuel : nat) (a : list nat) :
  length a <= fuel -> length a <= 16 ->
  aquicksort lt v fuel a = insertion_sort lt v a.
Proof.
  intros Hf Hs. destruct fuel as [|f].
  - destruct a; [reflexivity | simpl in Hf; lia].
  - cbn [aquicksort]. unfold SMALL_QUICKSORT.
    destruct (15 <? length a - 1) eqn:E; [|reflexivity].
    apply Nat.ltb_lt in E. lia.
Qed.

End ArgsortFacts.
(** ** Dates are ordered *)

Lemma lex_ltb_asym (a : list Z) :
  forall b, lex_ltb a b = true -> lex_ltb b a = false.
Proof.
  induction a as [|x a IH]; intros [|y b]; simpl; try congruence.
  intros H. apply orb_true_iff in H as [H | H].
  - apply Z.ltb_lt in H. apply orb_false_iff. split.
    + apply Z.ltb_ge; lia.
    + apply andb_false_iff. left. apply Z.eqb_neq; lia.
  - apply andb_true_iff in H as [E H]. apply Z.eqb_eq in E; subst y.
    rewrite Z.ltb_irrefl, Z.eqb_refl. simpl. now apply IH.
Qed.

Lemma lex_ltb_negtrans (a : list Z) :
  forall b c, lex_ltb a b = false -> lex_ltb b c = false -> lex_ltb a c = false.
Proof.
  induction a as [|x a IH]; intros [|y b] [|z c]; simpl; try congruence.
  intros H1 H2.
  apply orb_false_iff in H1 as [L1 E1]. apply orb_false_iff in H2 as [L2 E2].
  apply Z.ltb_ge in L1, L2. apply orb_false_iff. split.
  - apply Z.ltb_ge; lia.
  - destruct (x =? z)%Z eqn:E; [|reflexivity]. apply Z.eqb_eq in E; subst z.
    assert (x = y) by lia; subst y. rewrite Z.eqb_refl in E1, E2.
    simpl in *. now apply (IH b).
Qed.

Lemma dt_ltb_asym (a b : datetime) : dt_ltb a b = true -> dt_ltb b a = false.
Proof. apply lex_ltb_asym. Qed.

Lemma dt_ltb_negtrans (a b c : datetime) :
  dt_ltb a b = false -> dt_ltb b c = false -> dt_ltb a c = false.
Proof. apply lex_ltb_negtrans. Qed.

(** ** [sort] *)

Lemma take_cons {A : Type} (rows : list A) (i : nat) (idx : list nat) :
  Pandas.take rows (i :: idx)
  = match nth_error rows i with Some r => [r] | None => [] end
    ++ Pandas.take rows idx.
Proof. reflexivity. Qed.

Lemma take_seq {A : Type} (rows : list A) :
  forall pre,
    Pandas.take (pre ++ rows) (seq (length pre) (length rows)) = rows.
Proof.
  induction rows as [|x rows IH]; intros pre; [reflexivity|].
  cbn [length seq]. rewrite take_cons.
  rewrite nth_error_app2, Nat.sub_diag by lia. simpl.
  f_equal. specialize (IH (pre ++ [x])).
  rewrite <- app_assoc, length_app, Nat.add_1_r in IH. exact IH.
Qed.

Lemma take_Permutation {A : Type} (rows : list A) (idx : list nat) :
  Permutation idx (seq 0 (length rows)) ->
  Permutation (Pandas.take rows idx) rows.
Proof.
  intros P. rewrite <- (take_seq rows []) at 2. simpl.
  unfold Pandas.take. now apply Permutation_flat_map.
Qed.

Lemma take_filter {A : Type} (q : A -> bool) (rows : list A)
  (idx : list nat) :
  filter q (Pandas.take rows idx)
  = Pandas.take rows
      (filter (fun i => match nth_error rows i with
                        | Some r => q r
                        | None => false
                        end) idx).
Proof.
  induction idx as [|i idx IH]; [reflexivity|].
  rewrite take_cons, filter_app, IH. simpl.
  destruct (nth_error rows i) as [r|] eqn:E; simpl.
  - destruct (q r); [|reflexivity]. now rewrite take_cons, E.
  - reflexivity.
Qed.

Lemma take_sorted (rows : list row) (idx : list nat) :
  StronglySorted
    (Numpy.le_at dt_ltb (fun i => nth i (map date rows) epoch)) idx ->
  StronglySorted (fun a b => dt_leb (date a) (date b) = true)
    (Pandas.take rows idx).
Proof.
  assert (N : forall i r, nth_error rows i = Some r ->
                          nth i (map date rows) epoch = date r).
  { intros i r H. apply (map_nth_error date) in H.
    now apply nth_error_nth. }
  induction 1 as [|i idx S IH F]; [constructor|].
  rewrite take_cons. destruct (nth_error rows i) as [r|] eqn:E; [|exact IH].
  simpl. constructor; [assumption|].
  apply Forall_forall. intros r' Hr'.
  unfold Pandas.take in Hr'. apply in_flat_map in Hr' as (j & Hj & Hr').
  destruct (nth_error rows j) as [r''|] eqn:E'; [|destruct Hr'].
  destruct Hr' as [<- | []].
  rewrite Forall_forall in F. specialize (F j Hj). unfold Numpy.le_at in F.
  rewrite (N _ _ E), (N _ _ E') in F. unfold dt_leb. now rewrite F.
Qed.

Lemma argsort_spec (dates : list datetime) :
  Permutation (Numpy.argsort dt_ltb epoch dates) (seq 0 (length dates))
  /\ StronglySorted (Numpy.le_at dt_ltb (fun i => nth i dates epoch))
       (Numpy.argsort dt_ltb epoch dates).
Proof.
  apply aquicksort_spec.
  - apply dt_ltb_asym.
  - apply dt_ltb_negtrans.
  - now rewrite length_seq.
Qed.

Lemma sort_by_date_Permutation (rows : list row) :
  Permutation (sort_by_date rows) rows.
Proof.
  apply take_Permutation. rewrite <- (length_map date). apply argsort_spec.
Qed.

Lemma sort_by_date_sorted (rows : list row) :
  StronglySorted (fun a b => dt_leb (date a) (date b) = true)
    (sort_by_date rows).
Proof. apply take_sorted. apply argsort_spec. Qed.

Lemma sort_by_date_stable (rows : list row) (t : datetime) :
  length rows <= 16 ->
  filter (fun r => dt_eqb (date r) t) (sort_by_date rows)
  = filter (fun r => dt_eqb (date r) t) rows.
Proof.
  intros Hn. unfold sort_by_date, Numpy.argsort.
  rewrite aquicksort_small; rewrite ?length_seq, ?length_map; try lia.
  rewrite take_filter, insertion_sort_stable.
  - rewrite <- take_filter. pose proof (take_seq rows []) as T.
    simpl in T. now rewrite T.
  - apply dt_ltb_asym.
  - apply dt_ltb_negtrans.
  - intros i j Hi Hj.
    destruct (nth_error rows i) as [ri|] eqn:Ei; [|discriminate].
    destruct (nth_error rows j) as [rj|] eqn:Ej; [|discriminate].
    rewrite (nth_error_nth _ _ _ (map_nth_error date _ _ Ei)).
    rewrite (nth_error_nth _ _ _ (map_nth_error date _ _ Ej)).
    unfold dt_eqb in *. apply andb_true_iff in Hi as [Hi _].
    apply andb_true_iff in Hj as [_ Hj]. apply negb_true_iff in Hi, Hj.
    exact (dt_ltb_negtrans _ _ _ Hi Hj).
Qed.

(** C2 (as stated, refuted): eighteen events of the same second, by the
    users [a] to [r] in this order, leave the sort in another order: the
    events of [b] to [p] come out in reverse. *)
Lemma tie_rows_reordered :
  apply_transform_row utc (QUERY tie_log) = Ok (Transformed tie_rows)
  /\ map user tie_rows
     = map lit ["a"; "b"; "c"; "d"; "e"; "f"; "g"; "h"; "i"; "j"; "k"; "l";
                "m"; "n"; "o"; "p"; "q"; "r"]%string
  /\ map date tie_rows = repeat (mk_datetime 2021 1 5 15 4 5) 18
  /\ map user (sort_by_date tie_rows)
     = map lit ["a"; "p"; "o"; "n"; "m"; "l"; "k"; "j"; "i"; "h"; "g"; "f";
                "e"; "d"; "c"; "b"; "q"; "r"]%string.
Proof. repeat split; vm_compute; reflexivity. Qed.

(** C2 (amended): after the sort the events are in ascending order of
    timestamp (every event is at most as late as every event after it),
    and they are the events before the sort, each as often; events with
    equal timestamps keep their relative order when there are at most 16
    events, a larger frame is partitioned by quicksort, which gives no
    such guarantee. *)
Theorem sort_by_date_spec (rows : list row) :
  StronglySorted (fun a b => dt_leb (date a) (date b) = true)
    (sort_by_date rows)
  /\ Permutation (sort_by_date rows) rows
  /\ (length rows <= 16 ->
      forall t, filter (fun r => dt_eqb (date r) t) (sort_by_date rows)
                = filter (fun r => dt_eqb (date r) t) rows).
Proof.
  split; [apply sort_by_date_sorted|].
  split; [apply sort_by_date_Permutation|].
  intros Hn t. now apply sort_by_date_stable.
Qed.

(** ** [groupby] *)

Lemma unique_In (l : list str) (x : str) : In x (Pandas.unique l) <-> In x l.
Proof.
  induction l as [|y l IH]; simpl; [tauto|].
  rewrite filter_In, IH, negb_true_iff, str_eqb_neq.
  destruct (list_eq_dec ascii_dec y x) as [-> | Hne]; tauto.
Qed.

Lemma unique_NoDup (l : list str) : NoDup (Pandas.unique l).
Proof.
  induction l as [|y l IH]; simpl; constructor.
  - rewrite filter_In, negb_true_iff, str_eqb_neq. tauto.
  - now apply NoDup_filter.
Qed.

Lemma insert_key_Permutation (x : str) (l : list str) :
  Permutation (Pandas.insert_key x l) (x :: l).
Proof.
  induction l as [|y l IH]; simpl; [apply Permutation_refl|].
  destruct (str_ltb y x); [|apply Permutation_refl].
  rewrite IH. apply perm_swap.
Qed.

Lemma sorted_keys_Permutation (l : list str) :
  Permutation (Pandas.sorted_keys l) (Pandas.unique l).
Proof.
  unfold Pandas.sorted_keys. induction (Pandas.unique l) as [|x u IH]; simpl.
  - apply Permutation_refl.
  - rewrite insert_key_Permutation. now constructor.
Qed.

Lemma sorted_keys_In (l : list str) (x : str) :
  In x (Pandas.sorted_keys l) <-> In x l.
Proof.
  rewrite <- (unique_In l x). split; apply Permutation_in;
    [|symmetry]; apply sorted_keys_Permutation.
Qed.

Lemma sorted_keys_NoDup (l : list str) : NoDup (Pandas.sorted_keys l).
Proof.
  apply (Permutation_NoDup (l := Pandas.unique l)).
  - symmetry. apply sorted_keys_Permutation.
  - apply unique_NoDup.
Qed.

Lemma filter_or_Permutation {A : Type} (p q : A -> bool) (l : list A) :
  (forall x, In x l -> p x = true -> q x = false) ->
  Permutation (filter (fun x => p x || q x) l) (filter p l ++ filter q l).
Proof.
  induction l as [|x l IH]; intros H; simpl; [constructor|].
  assert (IH' := IH (fun y Hy => H y (or_intror Hy))).
  destruct (p x) eqn:Px; simpl.
  - rewrite (H x (or_introl eq_refl) Px). now constructor.
  - destruct (q x); [|assumption].
    rewrite IH'. apply Permutation_middle.
Qed.

Lemma groups_Permutation {A : Type} (key : A -> str) (rows : list A)
  (keys : list str) :
  NoDup keys ->
  Permutation
    (flat_map (fun k => filter (fun r => str_eqb (key r) k) rows) keys)
    (filter (fun r => existsb (str_eqb (key r)) keys) rows).
Proof.
  induction 1 as [|k keys Hk _ IH]; simpl.
  - induction rows; simpl; auto.
  - rewrite IH. symmetry. apply filter_or_Permutation.
    intros r _ E. apply str_eqb_eq in E.
    destruct (existsb (str_eqb (key r)) keys) eqn:X; [|reflexivity].
    apply existsb_exists in X as (k' & Hin & E'). apply str_eqb_eq in E'.
    congruence.
Qed.

Lemma filter_all {A : Type} (p : A -> bool) (l : list A) :
  (forall x, In x l -> p x = true) -> filter p l = l.
Proof.
  induction l as [|x l IH]; intros H; simpl; [reflexivity|].
  rewrite (H x (or_introl eq_refl)). f_equal. apply IH.
  intros y Hy. apply H. now right.
Qed.

Lemma groupby_keys {A : Type} (key : A -> str) (rows : list A) :
  map fst (Pandas.groupby key rows) = Pandas.sorted_keys (map key rows).
Proof.
  unfold Pandas.groupby. rewrite map_map. simpl. apply map_id.
Qed.

Lemma groupby_In {A : Type} (key : A -> str) (rows : list A)
  (k : str) (g : list A) :
  In (k, g) (Pandas.groupby key rows) ->
  (exists r, In r rows /\ key r = k)
  /\ g = filter (fun r => str_eqb (key r) k) rows.
Proof.
  unfold Pandas.groupby. intros H.
  apply in_map_iff in H as (k' & E & Hk). injection E as -> <-.
  split; [|reflexivity].
  apply sorted_keys_In, in_map_iff in Hk as (r & <- & Hr). eauto.
Qed.

Lemma groupby_Permutation {A : Type} (key : A -> str) (rows : list A) :
  Permutation (concat (map snd (Pandas.groupby key rows))) rows.
Proof.
  unfold Pandas.groupby. rewrite map_map. cbn [snd].
  rewrite <- flat_map_concat_map.
  rewrite groups_Permutation by apply sorted_keys_NoDup.
  rewrite filter_all; [apply Permutation_refl|].
  intros r Hr. apply existsb_exists. exists (key r).
  split; [|apply str_eqb_refl].
  apply sorted_keys_In. now apply in_map.
Qed.

Lemma report_Ok (lt : Strptime.locale_time) (log : list Log.row)
  (rep : list (str * list row)) :
  report lt log = Ok rep ->
  exists rows,
    map_result (transform_row lt) (QUERY log) = Ok rows
    /\ rep = Pandas.groupby user (sort_by_date rows).
Proof.
  unfold report, apply_transform_row.
  destruct (QUERY log) as [|r l]; [discriminate|].
  destruct (map_result (transform_row lt) (r :: l)) as [rows|e];
    [|discriminate].
  simpl. intros H; injection H as <-. eauto.
Qed.

(** C9: when the pipeline completes, the report has one group per
    distinct user of the decomposed selected events; a group holds exactly
    the events of its user, in the order of the sorted frame; and the
    groups together hold the decomposed events, each as often as it
    occurs: no event is dropped, none is in two groups. *)
Theorem report_partition (lt : Strptime.locale_time) (log : list Log.row)
  (rep : list (str * list row)) :
  report lt log = Ok rep ->
  exists rows,
    map_result (transform_row lt) (QUERY log) = Ok rows
    /\ NoDup (map fst rep)
    /\ (forall u, In u (map fst rep) <-> exists r, In r rows /\ user r = u)
    /\ (forall u g, In (u, g) rep ->
          g = filter (fun r => str_eqb (user r) u) (sort_by_date rows)
          /\ forall r, In r g -> In r rows /\ user r = u)
    /\ Permutation (concat (map snd rep)) rows.
Proof.
  intros H. apply report_Ok in H as (rows & Hrows & ->).
  exists rows. split; [assumption|].
  assert (P := sort_by_date_Permutation rows).
  split; [rewrite groupby_keys; apply sorted_keys_NoDup|]. split; [|split].
  - intros u. rewrite groupby_keys, sorted_keys_In, in_map_iff. split.
    + intros (r & E & Hr). exists r. split; [|assumption].
      now apply (Permutation_in _ P).
    + intros (r & Hr & E). exists r. split; [assumption|].
      apply (Permutation_in _ (Permutation_sym P)). assumption.
  - intros u g Hg. apply groupby_In in Hg as (_ & ->).
    split; [reflexivity|]. intros r Hr. apply filter_In in Hr as [Hr E].
    apply str_eqb_eq in E. split; [|assumption].
    now apply (Permutation_in _ P).
  - now rewrite groupby_Permutation.
Qed.

Lemma report_partition_witness :
  report pacific example_log
  = Ok [(lit "alice@example.com", [alice_authorized; alice_revoked])]
  /\ exists rows,
    map_result (transform_row pacific) (QUERY example_log) = Ok rows
    /\ NoDup [lit "alice@example.com"]
    /\ (forall u, In u [lit "alice@example.com"]
                  <-> exists r, In r rows /\ user r = u)
    /\ (forall u g,
          In (u, g) [(lit "alice@example.com",
                      [alice_authorized; alice_revoked])] ->
          g = filter (fun r => str_eqb (user r) u) (sort_by_date rows)
          /\ forall r, In r g -> In r rows /\ user r = u)
    /\ Permutation [alice_authorized; alice_revoked] rows.
Proof.
  split; [vm_compute; reflexivity|].
  apply (@report_partition pacific example_log
           [(lit "alice@example.com", [alice_authorized; alice_revoked])]).
  vm_compute; reflexivity.
Defined.

(** ** Collapsed whitespace *)

Lemma collapse_single_spaced (s : str) :
  forall blank, single_spaced blank (collapse blank s) = true.
Proof.
  induction s as [|c s IH]; intros blank; simpl; [reflexivity|].
  destruct (re_space c) eqn:E.
  - destruct blank; [apply IH|]. simpl. now rewrite IH.
  - simpl. rewrite E. apply IH.
Qed.

Lemma single_spaced_collapse (s : str) :
  forall blank, single_spaced blank s = true -> collapse blank s = s.
Proof.
  induction s as [|c s IH]; intros blank H; simpl in *; [reflexivity|].
  destruct (re_space c) eqn:E.
  - apply andb_true_iff in H as [H H3]. apply andb_true_iff in H as [H1 H2].
    apply negb_true_iff in H1; subst blank. apply chr_eqb_eq in H2; subst c.
    now rewrite IH.
  - now rewrite IH.
Qed.

Lemma collapse_idem (s : str) :
  collapse false (collapse false s) = collapse false s.
Proof. apply single_spaced_collapse, collapse_single_spaced. Qed.

(** In a single-spaced text a run of whitespace is one space, and what
    follows it is not whitespace. *)
Lemma single_spaced_run (a ws b : str) :
  forall blank,
    single_spaced blank (a ++ ws ++ b) = true ->
    ws <> [] -> forallb re_space ws = true ->
    ws = lit " " /\ single_spaced true b = true.
Proof.
  induction a as [|c a IH]; intros blank H Hne Hws.
  - destruct ws as [|c ws]; [congruence|]. simpl in *.
    apply andb_true_iff in Hws as [Hc Hws]. rewrite Hc in H.
    apply andb_true_iff in H as [H H3]. apply andb_true_iff in H as [_ H2].
    apply chr_eqb_eq in H2; subst c.
    destruct ws as [|c' ws]; [auto|]. simpl in *.
    apply andb_true_iff in Hws as [Hc' _]. rewrite Hc' in H3. discriminate.
  - simpl in H. destruct (re_space c).
    + apply andb_true_iff in H as [_ H]. now apply (IH true).
    + now apply (IH false).
Qed.

Lemma single_spaced_no_blank (b : str) (c : ascii) :
  single_spaced true (c :: b) = true -> re_space c = false.
Proof. simpl. destruct (re_space c); [discriminate | reflexivity]. Qed.

Lemma single_spaced_weaken (s : str) :
  forall blank, single_spaced blank s = true -> single_spaced false s = true.
Proof.
  destruct s as [|c s]; intros blank H; simpl in *; [reflexivity|].
  destruct (re_space c); [|assumption].
  apply andb_true_iff in H as [H H3]. apply andb_true_iff in H as [_ H2].
  now rewrite H2, H3.
Qed.

Lemma single_spaced_app_r (a b : str) :
  forall blank,
    single_spaced blank (a ++ b) = true -> single_spaced false b = true.
Proof.
  induction a as [|c a IH]; intros blank H.
  - now apply single_spaced_weaken in H.
  - simpl in H. destruct (re_space c).
    + apply andb_true_iff in H as [_ H]. now apply (IH true).
    + now apply (IH false).
Qed.
(** ** The expressions of the directives *)

Ltac caseless_by_cases :=
  let b := fresh "b" in
  intros b; destruct b as [[] [] [] [] [] [] [] []];
  simpl; intros; try reflexivity; discriminate.

Lemma caseless_space : caseless " ". Proof. caseless_by_cases. Qed.
Lemma caseless_colon : caseless ":". Proof. caseless_by_cases. Qed.
Lemma caseless_0 : caseless "0". Proof. caseless_by_cases. Qed.
Lemma caseless_1 : caseless "1". Proof. caseless_by_cases. Qed.
Lemma caseless_3 : caseless "3". Proof. caseless_by_cases. Qed.
Lemma caseless_6 : caseless "6". Proof. caseless_by_cases. Qed.

Lemma same_text_caseless (w x : str) :
  Forall caseless w -> same_text true w x -> x = w.
Proof.
  intros F H. induction H as [|a b w x Hab _ IH]; [reflexivity|].
  inversion F as [|? ? Ha Hw]; subst. rewrite (Ha _ Hab). f_equal. auto.
Qed.

Lemma same_text_refl (icase : bool) (w : str) : same_text icase w w.
Proof.
  induction w; constructor; auto.
  unfold same_chr. destruct icase; apply chr_eqb_refl.
Qed.

Lemma same_text_lower (w x : str) :
  same_text true w x <-> lower_str w = lower_str x.
Proof.
  split.
  - induction 1 as [|a b w x Hab _ IH]; [reflexivity|].
    simpl in *. apply chr_eqb_eq in Hab. congruence.
  - revert x; induction w as [|a w IH]; intros [|b x] H; try discriminate.
    + constructor.
    + simpl in H. injection H as H1 H2. constructor; [|now apply IH].
      simpl. rewrite H1. apply chr_eqb_refl.
Qed.

Ltac fix_texts :=
  repeat match goal with
  | H : same_text true _ _ |- _ =>
      apply same_text_caseless in H;
      [ cbn in H; subst
      | repeat constructor;
        first [ apply caseless_space | apply caseless_colon
              | apply caseless_0 | apply caseless_1 | apply caseless_3
              | apply caseless_6 ] ]
  end.

Ltac bools :=
  repeat match goal with
  | H : _ && _ = true |- _ => apply andb_true_iff in H as [? ?]
  | H : _ || _ = true |- _ => apply orb_true_iff in H as [? | ?]
  | H : chr_eqb _ _ = true |- _ => apply chr_eqb_eq in H; subst
  end.

Ltac use_classes :=
  cbn [Datatypes.app];
  unfold is_day, is_year, is_hour, is_minute, is_second;
  repeat match goal with
  | H : ?p ?c = true |- context [?p ?c] => rewrite H
  end;
  rewrite ?chr_eqb_refl; cbn [andb orb]; rewrite ?orb_true_r; reflexivity.

Ltac build_match :=
  solve
    [ apply M_Class; assumption
    | apply M_Chars; apply same_text_refl
    | apply M_AltL; build_match
    | apply M_AltR; build_match
    | match goal with
      | |- matches _ (Seq _ _) _ (?a :: ?r) _ _ =>
          apply (M_Seq (x1 := [a]) (x2 := r) (c1 := []) (c2 := []));
          build_match
      end ].

Lemma re_d_matches (pos : nat) (x tail : str) (c : captures) :
  matches true Strptime.re_d pos x tail c <->
  c = []
  /\ (is_day x = true
      \/ exists a, x = [" "%char; a] /\ Strptime.range "1" "9" a = true).
Proof.
  unfold Strptime.re_d, Strptime.digit. split.
  - intros H. inv_matches; fix_texts; (split; [reflexivity|]);
      try (left; use_classes).
    right. eexists. split; [reflexivity | assumption].
  - intros [-> [H | (a & -> & H)]].
    + destruct x as [|a [|b [|? ?]]]; try discriminate; simpl in H; bools;
        build_match.
    + build_match.
Qed.

Lemma re_I_matches (pos : nat) (x tail : str) (c : captures) :
  matches true Strptime.re_I pos x tail c <-> c = [] /\ is_hour x = true.
Proof.
  unfold Strptime.re_I, Strptime.digit. split.
  - intros H. inv_matches; fix_texts; (split; [reflexivity|]); use_classes.
  - intros [-> H].
    destruct x as [|a [|b [|? ?]]]; try discriminate; simpl in H; bools;
      build_match.
Qed.

Lemma re_M_matches (pos : nat) (x tail : str) (c : captures) :
  matches true Strptime.re_M pos x tail c <-> c = [] /\ is_minute x = true.
Proof.
  unfold Strptime.re_M, Strptime.digit. split.
  - intros H. inv_matches; fix_texts; (split; [reflexivity|]); use_classes.
  - intros [-> H].
    destruct x as [|a [|b [|? ?]]]; try discriminate; simpl in H; bools;
      build_match.
Qed.

Lemma re_S_matches (pos : nat) (x tail : str) (c : captures) :
  matches true Strptime.re_S pos x tail c <-> c = [] /\ is_second x = true.
Proof.
  unfold Strptime.re_S, Strptime.digit. split.
  - intros H. inv_matches; fix_texts; (split; [reflexivity|]); use_classes.
  - intros [-> H].
    destruct x as [|a [|b [|? ?]]]; try discriminate; simpl in H; bools;
      build_match.
Qed.

Lemma re_Y_matches (pos : nat) (x tail : str) (c : captures) :
  matches true Strptime.re_Y pos x tail c <-> c = [] /\ is_year x = true.
Proof.
  unfold Strptime.re_Y, Strptime.digit. split.
  - intros H. inv_matches; fix_texts; (split; [reflexivity|]); use_classes.
  - intros [-> H].
    destruct x as [|a [|b [|c [|d [|? ?]]]]]; try discriminate; simpl in H;
      bools; build_match.
Qed.
(** ** Alternatives of words *)

Lemma alts_matches (icase : bool) (ws : list str) (pos : nat)
  (x tail : str) (c : captures) :
  ws <> [] ->
  (matches icase (alts ws) pos x tail c <->
   c = [] /\ exists w, In w ws /\ same_text icase w x).
Proof.
  induction ws as [|w ws IH]; [congruence|]. intros _.
  destruct ws as [|w' ws].
  - simpl. split.
    + intros H. inversion H; subst. eauto.
    + intros [-> (w0 & [<- | []] & H)]. now constructor.
  - change (alts (w :: w' :: ws)) with (Alt (Chars w) (alts (w' :: ws))).
    split.
    + intros H. inversion H as [| | | | |? ? ? ? ? ? H1|? ? ? ? ? ? H1| | |]; subst.
      * inversion H1; subst. split; [reflexivity|]. exists w. split; [now left | assumption].
      * apply IH in H1 as [-> (w0 & Hin & Hw)]; [|discriminate].
        split; [reflexivity|]. exists w0. split; [now right | assumption].
    + intros [-> (w0 & [<- | Hin] & Hw)].
      * apply M_AltL. now constructor.
      * apply M_AltR. apply IH; [discriminate|]. eauto.
Qed.

Lemma insert_by_len_In (w x : str) (l : list str) :
  In x (Strptime.insert_by_len w l) <-> x = w \/ In x l.
Proof.
  induction l as [|y l IH]; simpl.
  - intuition.
  - destruct (length y <=? length w); simpl; [intuition|].
    rewrite IH. intuition.
Qed.

Lemma sort_by_len_In (x : str) (l : list str) :
  In x (Strptime.sort_by_len l) <-> In x l.
Proof.
  unfold Strptime.sort_by_len. induction l as [|y l IH]; simpl; [tauto|].
  rewrite insert_by_len_In, IH. intuition.
Qed.

Lemma sort_by_len_nonempty (l : list str) :
  l <> [] -> Strptime.sort_by_len l <> [].
Proof.
  destruct l as [|y l]; [congruence|]. intros _ E.
  assert (H : In y (Strptime.sort_by_len (y :: l)))
    by (apply sort_by_len_In; now left).
  rewrite E in H. destruct H.
Qed.

Lemma insert_by_len_sorted (w : str) (l : list str) :
  StronglySorted (fun a b => length b <= length a) l ->
  StronglySorted (fun a b => length b <= length a)
    (Strptime.insert_by_len w l).
Proof.
  induction 1 as [|y l S IH F]; simpl.
  - repeat constructor.
  - destruct (length y <=? length w) eqn:E.
    + apply Nat.leb_le in E. constructor; [now constructor|].
      constructor; [assumption|].
      rewrite Forall_forall in *. intros z Hz. specialize (F z Hz). lia.
    + apply Nat.leb_gt in E. constructor; [assumption|].
      apply Forall_forall. intros z Hz.
      apply insert_by_len_In in Hz as [-> | Hz]; [lia|].
      rewrite Forall_forall in F. now apply F.
Qed.

Lemma sort_by_len_sorted (l : list str) :
  StronglySorted (fun a b => length b <= length a) (Strptime.sort_by_len l).
Proof.
  unfold Strptime.sort_by_len. induction l as [|y l IH]; simpl.
  - constructor.
  - now apply insert_by_len_sorted.
Qed.

(** A group of words that are their own lower case. *)
Lemma seqToRE_matches (names : list str) (d : String.string) (pos : nat)
  (x tail : str) (c : captures) :
  names <> [] -> Forall (fun w => lower_str w = w) names ->
  (matches true (Strptime.seqToRE names d) pos x tail c <->
   c = [(Strptime.key d, x)] /\ In (lower_str x) names).
Proof.
  intros Hne Hlow. unfold Strptime.seqToRE. split.
  - intros H. inversion H as [| | | | | | |? ? ? ? ? ? H1| |]; subst.
    apply alts_matches in H1 as [-> (w & Hin & Hw)];
      [|now apply sort_by_len_nonempty].
    split; [reflexivity|]. apply (proj1 (sort_by_len_In _ _)) in Hin.
    apply same_text_lower in Hw. rewrite <- Hw.
    rewrite Forall_forall in Hlow. now rewrite (Hlow w Hin).
  - intros [-> Hin]. constructor. apply alts_matches;
      [now apply sort_by_len_nonempty|].
    split; [reflexivity|]. exists (lower_str x).
    split; [now apply sort_by_len_In|].
    apply same_text_lower. apply lower_str_idem.
Qed.

Lemma timezone_lower (lt : Strptime.locale_time) :
  Forall (fun w => lower_str w = w) (Strptime.timezone lt).
Proof.
  unfold Strptime.timezone.
  repeat (constructor; [first [reflexivity | apply lower_str_idem]|]).
  destruct (Strptime.daylight lt); repeat constructor. apply lower_str_idem.
Qed.

Lemma timezone_nonempty (lt : Strptime.locale_time) :
  Strptime.timezone lt <> [].
Proof. discriminate. Qed.

(** ** The zone group ends the text when a zone name does *)

Lemma eat_length (icase : bool) (w s s' : str) :
  eat icase w s = Some s' -> length s = length w + length s'.
Proof.
  intros H. apply eat_same_text in H as (x & -> & Hx).
  rewrite length_app, (same_text_length Hx). reflexivity.
Qed.

Lemma m_alts_total (ws : list str) (pos : nat) (s : str) (caps : captures)
  (k : nat -> str -> captures -> option mend) (w0 : str) :
  (forall p t c, k p t c <> None) ->
  StronglySorted (fun a b => length b <= length a) ws ->
  In w0 ws -> eat true w0 s = Some [] ->
  exists w, In w ws /\ eat true w s = Some []
            /\ m true (alts ws) pos s caps k = k (pos + length w) [] caps.
Proof.
  intros Hk S Hin H0. pose proof (eat_length _ _ _ H0) as L0.
  induction S as [|w ws S IH F]; [destruct Hin|].
  assert (Hlen : length s <= length w).
  { destruct Hin as [-> | Hin]; [simpl in L0; lia|].
    rewrite Forall_forall in F. specialize (F _ Hin). simpl in L0. lia. }
  assert (Hfull : forall s', eat true w s = Some s' -> s' = []).
  { intros s' E. apply eat_length in E.
    destruct s'; [reflexivity | simpl in E; lia]. }
  destruct ws as [|w' ws].
  - destruct Hin as [-> | []]. exists w0. split; [now left|].
    split; [assumption|]. simpl. now rewrite H0.
  - change (alts (w :: w' :: ws)) with (Alt (Chars w) (alts (w' :: ws))).
    cbn [m]. destruct (eat true w s) as [s'|] eqn:E.
    + assert (s' = []) by (apply Hfull; reflexivity). subst s'.
      exists w. split; [now left|]. split; [exact E|].
      destruct (k (pos + length w) [] caps) eqn:K; [reflexivity|].
      now apply Hk in K.
    + destruct Hin as [-> | Hin]; [congruence|].
      destruct (IH Hin) as (w1 & Hin1 & E1 & M1).
      exists w1. split; [now right|]. split; assumption.
Qed.
(** ** The expression of [DATE_FORMAT] *)

Lemma pattern_DATE_FORMAT (lt : Strptime.locale_time) :
  Strptime.pattern lt DATE_FORMAT
  = Some (DATE_PREFIX_RE
          ++ [Strptime.seqToRE (Strptime.timezone lt) "Z"]).
Proof. reflexivity. Qed.

Lemma Seq_inv (icase : bool) (r1 r2 : regex) (pos : nat) (x tail : str)
  (c : captures) :
  matches icase (Seq r1 r2) pos x tail c ->
  exists x1 x2 c1 c2,
    x = x1 ++ x2 /\ c = c2 ++ c1
    /\ matches icase r1 pos x1 (x2 ++ tail) c1
    /\ matches icase r2 (pos + length x1) x2 tail c2.
Proof. intros H; inversion H; subst. do 4 eexists; eauto. Qed.

Lemma Group_inv (icase : bool) (n : nat) (r : regex) (pos : nat)
  (x tail : str) (c : captures) :
  matches icase (Group n r) pos x tail c ->
  exists c', c = (n, x) :: c' /\ matches icase r pos x tail c'.
Proof. intros H; inversion H; subst. eauto. Qed.

Lemma PlusClass_inv (icase : bool) (p : ascii -> bool) (pos : nat)
  (x tail : str) (c : captures) :
  matches icase (PlusClass p) pos x tail c ->
  c = [] /\ x <> [] /\ forallb p x = true.
Proof. intros H; inversion H; subst. auto. Qed.

Lemma Chars_inv (w : str) (pos : nat) (x tail : str) (c : captures) :
  Forall caseless w -> matches true (Chars w) pos x tail c ->
  c = [] /\ x = w.
Proof.
  intros F H; inversion H; subst. split; [reflexivity|].
  now apply same_text_caseless.
Qed.

Lemma Empty_inv (icase : bool) (pos : nat) (x tail : str) (c : captures) :
  matches icase Empty pos x tail c -> c = [] /\ x = [].
Proof. intros H; inversion H; subst. auto. Qed.

Lemma f_month_lower : Forall (fun w => lower_str w = w) Strptime.f_month.
Proof. repeat constructor. Qed.

Lemma am_pm_lower : Forall (fun w => lower_str w = w) Strptime.am_pm.
Proof. repeat constructor. Qed.

Ltac one_run S :=
  match type of S with
  | single_spaced _ (?a ++ ?ws ++ ?b) = true =>
      let E := fresh "E" in
      let S' := fresh "S" in
      destruct (@single_spaced_run a ws b _ S) as [E S'];
      [assumption | assumption | subst ws; clear S]
  end.

Lemma prefix_inv (pos : nat) (x tail : str) (c : captures) (blank : bool)
  (z : str) :
  matches true (seqs DATE_PREFIX_RE) pos x tail c ->
  single_spaced blank (x ++ tail) = true ->
  exists f,
    t_zone f = z /\ x = date_prefix f /\ c = prefix_caps f
    /\ prefix_accepted f /\ single_spaced true tail = true.
Proof.
  unfold DATE_PREFIX_RE, seqs, blanks. cbn [fold_right]. intros H S.
  apply Seq_inv in H as (mon & ? & ? & ? & -> & -> & HB & H).
  apply Seq_inv in H as (w1 & ? & ? & ? & -> & -> & H1 & H).
  apply Seq_inv in H as (d & ? & ? & ? & -> & -> & Hd & H).
  apply Seq_inv in H as (w2 & ? & ? & ? & -> & -> & H2 & H).
  apply Seq_inv in H as (y & ? & ? & ? & -> & -> & HY & H).
  apply Seq_inv in H as (w3 & ? & ? & ? & -> & -> & H3 & H).
  apply Seq_inv in H as (h & ? & ? & ? & -> & -> & HI & H).
  apply Seq_inv in H as (k1 & ? & ? & ? & -> & -> & Hk1 & H).
  apply Seq_inv in H as (mi & ? & ? & ? & -> & -> & HM & H).
  apply Seq_inv in H as (k2 & ? & ? & ? & -> & -> & Hk2 & H).
  apply Seq_inv in H as (sec & ? & ? & ? & -> & -> & HS & H).
  apply Seq_inv in H as (w4 & ? & ? & ? & -> & -> & H4 & H).
  apply Seq_inv in H as (ap & ? & ? & ? & -> & -> & Hp & H).
  apply Seq_inv in H as (w5 & ? & ? & ? & -> & -> & H5 & H).
  apply Empty_inv in H as [-> ->].
  apply seqToRE_matches in HB as [-> HB];
    [|discriminate | apply f_month_lower].
  apply seqToRE_matches in Hp as [-> Hp];
    [|discriminate | apply am_pm_lower].
  apply Group_inv in Hd as (? & -> & Hd). apply re_d_matches in Hd as [-> Hd].
  apply Group_inv in HY as (? & -> & HY). apply re_Y_matches in HY as [-> HY].
  apply Group_inv in HI as (? & -> & HI). apply re_I_matches in HI as [-> HI].
  apply Group_inv in HM as (? & -> & HM). apply re_M_matches in HM as [-> HM].
  apply Group_inv in HS as (? & -> & HS). apply re_S_matches in HS as [-> HS].
  apply Chars_inv in Hk1 as [-> ->];
    [|repeat constructor; apply caseless_colon].
  apply Chars_inv in Hk2 as [-> ->];
    [|repeat constructor; apply caseless_colon].
  apply PlusClass_inv in H1 as (-> & N1 & B1).
  apply PlusClass_inv in H2 as (-> & N2 & B2).
  apply PlusClass_inv in H3 as (-> & N3 & B3).
  apply PlusClass_inv in H4 as (-> & N4 & B4).
  apply PlusClass_inv in H5 as (-> & N5 & B5).
  rewrite app_nil_r in *. repeat rewrite <- app_assoc in S.
  one_run S.
  destruct Hd as [Hd | (a & -> & _)]; [|discriminate].
  one_run S0. one_run S.
  assert (S1 : single_spaced true
                 ((h ++ lit ":" ++ mi ++ lit ":" ++ sec) ++ w4 ++ ap ++ w5
                  ++ tail) = true)
    by (repeat rewrite <- app_assoc; exact S0).
  clear S0. one_run S1. one_run S.
  exists {| t_month := mon; t_day := d; t_year := y; t_hour := h;
            t_minute := mi; t_second := sec; t_ampm := ap; t_zone := z |}.
  split; [reflexivity|]. split; [reflexivity|]. split; [reflexivity|].
  split; [|assumption]. unfold prefix_accepted. cbn. auto 10.
Qed.
Lemma prefix_intro (pos : nat) (f : date_text) (tail : str) :
  prefix_accepted f ->
  matches true (seqs DATE_PREFIX_RE) pos (date_prefix f) tail (prefix_caps f).
Proof.
  intros (HB & Hd & HY & HI & HM & HS & Hp).
  assert (E : date_prefix f
              = t_month f ++ lit " " ++ t_day f ++ lit " " ++ t_year f
                ++ lit " " ++ t_hour f ++ lit ":" ++ t_minute f ++ lit ":"
                ++ t_second f ++ lit " " ++ t_ampm f ++ lit " " ++ [])
    by (unfold date_prefix; now rewrite app_nil_r).
  rewrite E. clear E.
  assert (G : exists c,
             matches true (seqs DATE_PREFIX_RE) pos
               (t_month f ++ lit " " ++ t_day f ++ lit " " ++ t_year f
                ++ lit " " ++ t_hour f ++ lit ":" ++ t_minute f ++ lit ":"
                ++ t_second f ++ lit " " ++ t_ampm f ++ lit " " ++ [])
               tail c
             /\ c = prefix_caps f).
  { unfold DATE_PREFIX_RE, seqs, blanks. cbn [fold_right].
    eexists. split.
    - eapply M_Seq.
      { apply seqToRE_matches; [discriminate | apply f_month_lower |].
        split; [reflexivity | exact HB]. }
      eapply M_Seq. { apply M_PlusClass; [discriminate | reflexivity]. }
      eapply M_Seq.
      { apply M_Group. apply re_d_matches. split; [reflexivity | now left]. }
      eapply M_Seq. { apply M_PlusClass; [discriminate | reflexivity]. }
      eapply M_Seq.
      { apply M_Group. apply re_Y_matches. split; [reflexivity | exact HY]. }
      eapply M_Seq. { apply M_PlusClass; [discriminate | reflexivity]. }
      eapply M_Seq.
      { apply M_Group. apply re_I_matches. split; [reflexivity | exact HI]. }
      eapply M_Seq. { apply M_Chars. apply same_text_refl. }
      eapply M_Seq.
      { apply M_Group. apply re_M_matches. split; [reflexivity | exact HM]. }
      eapply M_Seq. { apply M_Chars. apply same_text_refl. }
      eapply M_Seq.
      { apply M_Group. apply re_S_matches. split; [reflexivity | exact HS]. }
      eapply M_Seq. { apply M_PlusClass; [discriminate | reflexivity]. }
      eapply M_Seq.
      { apply seqToRE_matches; [discriminate | apply am_pm_lower |].
        split; [reflexivity | exact Hp]. }
      eapply M_Seq. { apply M_PlusClass; [discriminate | reflexivity]. }
      apply M_Empty.
    - reflexivity. }
  destruct G as (c & M & ->). exact M.
Qed.

(** ** The parts of a date text are determined by the text *)

Lemma split_unique (sep : ascii) (a : str) :
  forall b a' b',
    ~ In sep a -> ~ In sep a' ->
    a ++ sep :: b = a' ++ sep :: b' -> a = a' /\ b = b'.
Proof.
  induction a as [|c a IH]; intros b [|c' a'] b' Ha Ha' E; simpl in *.
  - injection E as <-. auto.
  - injection E as <- _. tauto.
  - injection E as -> _. tauto.
  - injection E as <- E. destruct (IH b a' b') as [-> ->]; auto.
Qed.

Lemma lower_In (c : ascii) (x : str) :
  lower c = c -> In c x -> In c (lower_str x).
Proof.
  intros Hc H. unfold lower_str. rewrite <- Hc. now apply in_map.
Qed.

Lemma month_no_space (x : str) :
  In (lower_str x) Strptime.f_month -> ~ In " "%char x.
Proof.
  intros H Hin. apply (@lower_In " "%char x eq_refl) in Hin.
  unfold Strptime.f_month in H. simpl in H.
  repeat (destruct H as [H | H];
          [rewrite <- H in Hin; simpl in Hin; intuition discriminate|]).
  destruct H.
Qed.

Lemma am_pm_no_space (x : str) :
  In (lower_str x) Strptime.am_pm -> ~ In " "%char x.
Proof.
  intros H Hin. apply (@lower_In " "%char x eq_refl) in Hin.
  unfold Strptime.am_pm in H. simpl in H.
  repeat (destruct H as [H | H];
          [rewrite <- H in Hin; simpl in Hin; intuition discriminate|]).
  destruct H.
Qed.

Lemma range_digit (a b : String.string) (c : ascii) :
  Strptime.range a b c = true ->
  match lit a, lit b with
  | [x], [y] => (48 <=? code x)%N && (code y <=? 57)%N
  | _, _ => false
  end = true ->
  re_digit c = true.
Proof.
  unfold Strptime.range, re_digit.
  destruct (lit a) as [|x [|? ?]]; try discriminate.
  destruct (lit b) as [|y [|? ?]]; try discriminate.
  intros H Hxy.
  apply andb_true_iff in H as [H1 H2]. apply andb_true_iff in Hxy as [H3 H4].
  apply N.leb_le in H1, H2, H3, H4.
  apply andb_true_iff. split; apply N.leb_le; lia.
Qed.

Ltac digits :=
  repeat match goal with
  | H : Strptime.range _ _ ?c = true |- _ =>
      apply range_digit in H; [|reflexivity]
  | H : re_digit ?c = true |- context [re_digit ?c] => rewrite H
  end; try reflexivity.

Lemma is_day_digits (x : str) :
  is_day x = true -> x <> [] /\ forallb re_digit x = true.
Proof.
  destruct x as [|a [|b [|? ?]]]; try discriminate; simpl; intros H;
    (split; [discriminate|]); bools; digits.
Qed.

Lemma is_year_digits (x : str) :
  is_year x = true -> x <> [] /\ forallb re_digit x = true.
Proof.
  destruct x as [|a [|b [|c [|d [|? ?]]]]]; try discriminate; simpl;
    intros H; (split; [discriminate|]); bools; digits.
Qed.

Lemma is_hour_digits (x : str) :
  is_hour x = true -> x <> [] /\ forallb re_digit x = true.
Proof.
  destruct x as [|a [|b [|? ?]]]; try discriminate; simpl; intros H;
    (split; [discriminate|]); bools; digits.
Qed.

Lemma is_minute_digits (x : str) :
  is_minute x = true -> x <> [] /\ forallb re_digit x = true.
Proof.
  destruct x as [|a [|b [|? ?]]]; try discriminate; simpl; intros H;
    (split; [discriminate|]); bools; digits.
Qed.

Lemma is_second_digits (x : str) :
  is_second x = true -> x <> [] /\ forallb re_digit x = true.
Proof.
  destruct x as [|a [|b [|? ?]]]; try discriminate; simpl; intros H;
    (split; [discriminate|]); bools; digits.
Qed.

Lemma digits_no (sep : ascii) (x : str) :
  re_digit sep = false -> forallb re_digit x = true -> ~ In sep x.
Proof.
  intros Hs H Hin. rewrite forallb_forall in H. apply H in Hin. congruence.
Qed.

Lemma digit_not_space (c : ascii) : re_digit c = true -> isspace c = false.
Proof.
  destruct c as [[] [] [] [] [] [] [] []]; simpl; intros;
    try reflexivity; discriminate.
Qed.

Lemma int_digits (x : str) :
  forallb re_digit x = true -> Strptime.int_ x = int_of_digits x.
Proof.
  destruct x as [|c x]; [reflexivity|]. simpl. intros H.
  apply andb_true_iff in H as [H _]. now rewrite (digit_not_space _ H).
Qed.

Lemma prefix_unique (f f' : date_text) (z z' : str) :
  prefix_accepted f -> prefix_accepted f' ->
  date_prefix f ++ z = date_prefix f' ++ z' ->
  date_prefix f = date_prefix f' /\ prefix_caps f = prefix_caps f'
  /\ date_value f = date_value f' /\ z = z'.
Proof.
  intros (HB & Hd & HY & HI & HM & HS & Hp) (HB' & Hd' & HY' & HI' & HM' & HS' & Hp').
  unfold date_prefix, prefix_caps, date_value.
  destruct f as [mon d y h mi sec ap zz], f' as [mon' d' y' h' mi' sec' ap' zz'].
  cbn [t_month t_day t_year t_hour t_minute t_second t_ampm t_zone] in *.
  repeat rewrite <- app_assoc. cbn [lit String.list_ascii_of_string app Datatypes.app].
  intros E.
  apply is_day_digits in Hd as [_ Hd], Hd' as [_ Hd'].
  apply is_year_digits in HY as [_ HY], HY' as [_ HY'].
  apply is_hour_digits in HI as [_ HI], HI' as [_ HI'].
  apply is_minute_digits in HM as [_ HM], HM' as [_ HM'].
  apply is_second_digits in HS as [_ HS], HS' as [_ HS'].
  apply split_unique in E as [-> E];
    [|now apply month_no_space | now apply month_no_space].
  apply split_unique in E as [-> E]; [|now apply digits_no | now apply digits_no].
  apply split_unique in E as [-> E]; [|now apply digits_no | now apply digits_no].
  apply split_unique in E as [-> E]; [|now apply digits_no | now apply digits_no].
  apply split_unique in E as [-> E]; [|now apply digits_no | now apply digits_no].
  apply split_unique in E as [-> E]; [|now apply digits_no | now apply digits_no].
  apply split_unique in E as [-> E];
    [|now apply am_pm_no_space | now apply am_pm_no_space].
  auto.
Qed.
(** ** [parse_date] *)

Lemma more_ext (p : ascii -> bool) (s : str) :
  forall pos k1 k2,
    (forall q t, k1 q t = k2 q t) -> more p pos s k1 = more p pos s k2.
Proof.
  induction s as [|c s IH]; intros pos k1 k2 H; simpl; [apply H|].
  destruct (p c); [|apply H]. rewrite (IH _ k1 k2 H), H. reflexivity.
Qed.

Lemma m_ext (icase : bool) (r : regex) :
  forall pos s caps k1 k2,
    (forall q t c, k1 q t c = k2 q t c) ->
    m icase r pos s caps k1 = m icase r pos s caps k2.
Proof.
  induction r as [|w|p|p|r1 IH1 r2 IH2|r1 IH1 r2 IH2|n r IH| |];
    intros pos s caps k1 k2 H; cbn [m].
  - apply H.
  - destruct (eat icase w s); [apply H | reflexivity].
  - destruct s as [|c s]; [reflexivity|].
    destruct (p c); [apply H | reflexivity].
  - destruct s as [|c s]; [reflexivity|]. destruct (p c); [|reflexivity].
    apply more_ext. intros; apply H.
  - apply IH1. intros. now apply IH2.
  - rewrite (IH1 _ _ _ k1 k2 H), (IH2 _ _ _ k1 k2 H). reflexivity.
  - apply IH. intros. apply H.
  - destruct (Nat.eqb pos 0); [apply H | reflexivity].
  - destruct s as [|c [|c' s]]; [apply H | | reflexivity].
    destruct (chr_eqb c newline); [apply H | reflexivity].
Qed.

Lemma seqs_app (icase : bool) (l1 l2 : list regex) :
  forall pos s caps k,
    m icase (seqs (l1 ++ l2)) pos s caps k
    = m icase (seqs l1) pos s caps
        (fun q t c => m icase (seqs l2) q t c k).
Proof.
  induction l1 as [|r l1 IH]; intros pos s caps k; [reflexivity|].
  change (seqs ((r :: l1) ++ l2)) with (Seq r (seqs (l1 ++ l2))).
  change (seqs (r :: l1)) with (Seq r (seqs l1)).
  cbn [m]. apply m_ext. intros. apply IH.
Qed.

(** The zone group, the last of the expression: given a text that is a
    zone name up to case, it takes the whole text. *)
Lemma zone_group_total (lt : Strptime.locale_time) (pos : nat) (z : str)
  (caps : captures) :
  In (lower_str z) (Strptime.timezone lt) ->
  m true (seqs [Strptime.seqToRE (Strptime.timezone lt) "Z"]) pos z caps
    (@accept)
  = Some (pos + length z, [], (Strptime.key "Z", z) :: caps).
Proof.
  intros Hin. unfold seqs, Strptime.seqToRE. cbn [fold_right m].
  assert (E0 : eat true (lower_str z) z = Some []).
  { rewrite <- (app_nil_r z) at 2. apply same_text_eat.
    apply same_text_lower. apply lower_str_idem. }
  destruct (@m_alts_total (Strptime.sort_by_len (Strptime.timezone lt)) pos z
              caps
              (fun pos' s' caps' =>
                 accept pos' s' ((Strptime.key "Z", firstn (pos' - pos) z)
                                 :: caps'))
              (lower_str z))
    as (w & _ & Ew & ->).
  - intros p t c. discriminate.
  - apply sort_by_len_sorted.
  - now apply sort_by_len_In.
  - exact E0.
  - apply eat_length in Ew. simpl in Ew. rewrite Nat.add_0_r in Ew.
    unfold accept. rewrite <- Ew.
    replace (pos + length z - pos) with (length z) by lia.
    now rewrite firstn_all.
Qed.

Lemma zone_group_sound (lt : Strptime.locale_time) (pos : nat) (s : str)
  (caps : captures) (e : mend) :
  m true (seqs [Strptime.seqToRE (Strptime.timezone lt) "Z"]) pos s caps
    (@accept) = Some e ->
  exists z rest,
    s = z ++ rest /\ In (lower_str z) (Strptime.timezone lt)
    /\ e = (pos + length z, rest, (Strptime.key "Z", z) :: caps).
Proof.
  intros H. apply m_sound in H as (x & tail & c & -> & M & Hk).
  unfold seqs in M. cbn [fold_right] in M.
  apply Seq_inv in M as (z & ? & ? & ? & -> & -> & MZ & M).
  apply Empty_inv in M as [-> ->].
  apply seqToRE_matches in MZ as [-> HZ];
    [|apply timezone_nonempty | apply timezone_lower].
  rewrite app_nil_r in *. unfold accept in Hk. injection Hk as <-.
  exists z, tail. auto.
Qed.

Lemma check_Ok (d d' : datetime) :
  Strptime.check d = Ok d' <-> d' = d /\ date_valid d.
Proof.
  unfold Strptime.check, date_valid.
  destruct ((1 <=? year d) && (year d <=? 9999))%Z eqn:E1; simpl.
  - destruct ((1 <=? day d) && (day d <=? days_in_month (year d) (month d)))%Z
      eqn:E2; simpl.
    + destruct (second d <=? 59)%Z eqn:E3; simpl.
      * apply andb_true_iff in E1 as [A1 A2], E2 as [A3 A4].
        apply Z.leb_le in A1, A2, A3, A4, E3.
        split; [intros H; injection H as <-; auto 10 | intros [-> _]; auto].
      * apply Z.leb_gt in E3. split; [discriminate | intros [_ H]; lia].
    + split; [discriminate|]. intros [_ (_ & A & _)].
      apply andb_false_iff in E2 as [E2 | E2]; apply Z.leb_gt in E2; lia.
  - split; [discriminate|]. intros [_ (A & _)].
    apply andb_false_iff in E1 as [E1 | E1]; apply Z.leb_gt in E1; lia.
Qed.

Lemma fields_caps (f : date_text) (z : str) :
  prefix_accepted f ->
  Strptime.fields ((Strptime.key "Z", z) :: prefix_caps f) = date_value f.
Proof.
  intros (HB & Hd & HY & HI & HM & HS & Hp).
  apply is_day_digits in Hd as [_ Hd]. apply is_year_digits in HY as [_ HY].
  apply is_hour_digits in HI as [_ HI].
  apply is_minute_digits in HM as [_ HM].
  apply is_second_digits in HS as [_ HS].
  unfold Strptime.fields, Strptime.found, prefix_caps, date_value, hour24.
  cbn [group Strptime.key lit String.list_ascii_of_string nat_of_ascii
       Nat.eqb].
  cbv [nat_of_ascii N_of_ascii N_of_digits N.to_nat N.add N.mul Pos.to_nat
       Pos.iter_op Pos.add Pos.succ Pos.mul Nat.add Nat.eqb].
  rewrite !int_digits by assumption.
  f_equal. unfold Strptime.am_pm in Hp.
  destruct Hp as [<- | [<- | []]]; reflexivity.
Qed.
Lemma parse_date_unfold (lt : Strptime.locale_time) (s : str) :
  parse_date lt s
  = match m true (seqs DATE_PREFIX_RE) 0 (collapse false s) []
            (fun q t c =>
               m true (seqs [Strptime.seqToRE (Strptime.timezone lt) "Z"])
                 q t c (@accept)) with
    | None =>
        Raise (ValueError (lit "time data "
                           ++ Strptime.repr_u (collapse false s)
                           ++ lit " does not match format "
                           ++ Strptime.repr_s DATE_FORMAT))
    | Some (_, rest, c) =>
        match rest with
        | _ :: _ => Raise (ValueError (lit "unconverted data remains: " ++ rest))
        | [] => Strptime.check (Strptime.fields c)
        end
    end.
Proof.
  unfold parse_date, Strptime.strptime. rewrite pattern_DATE_FORMAT.
  unfold match_. rewrite seqs_app. reflexivity.
Qed.

Lemma parse_date_Ok (lt : Strptime.locale_time) (s : str) (dt : datetime) :
  parse_date lt s = Ok dt ->
  exists f,
    collapse false s = date_render f /\ date_accepted lt f
    /\ dt = date_value f /\ date_valid dt.
Proof.
  rewrite parse_date_unfold.
  destruct (m true (seqs DATE_PREFIX_RE) 0 (collapse false s) [] _)
    as [[[p rest] c]|] eqn:E; [|discriminate].
  destruct rest; [|discriminate]. intros Hc.
  apply m_sound in E as (x & tail & c1 & Ecs & M & K).
  apply zone_group_sound in K as (z & rest & -> & Hz & K).
  injection K as _ <- ->. rewrite app_nil_r in *.
  destruct (@prefix_inv 0 x z c1 false z M) as (f & Fz & -> & -> & Hf & _).
  { rewrite <- Ecs. apply collapse_single_spaced. }
  rewrite fields_caps in Hc by assumption.
  apply check_Ok in Hc as [-> Hv].
  exists f. unfold date_render, date_accepted. rewrite Fz. auto.
Qed.

Lemma parse_date_complete (lt : Strptime.locale_time) (s : str)
  (f : date_text) :
  collapse false s = date_render f -> date_accepted lt f ->
  date_valid (date_value f) ->
  parse_date lt s = Ok (date_value f).
Proof.
  intros Ecs [Hf Hz] Hv. rewrite parse_date_unfold, Ecs.
  unfold date_render.
  pose proof (prefix_intro 0 (t_zone f ++ []) Hf) as M.
  rewrite app_nil_r in M.
  destruct (@m_complete true (seqs DATE_PREFIX_RE) 0 (date_prefix f)
              (t_zone f) (prefix_caps f) M []
              (fun (q : nat) (t : str) (c : captures) =>
                 m true (seqs [Strptime.seqToRE (Strptime.timezone lt) "Z"])
                   q t c (@accept))
              (0 + length (date_prefix f) + length (t_zone f), [],
               (Strptime.key "Z", t_zone f) :: prefix_caps f ++ []))
    as [e He].
  { now apply zone_group_total. }
  rewrite He.
  apply m_sound in He as (x & tail & c1 & Ex & M' & K).
  destruct (@prefix_inv 0 x tail c1 false (t_zone f) M')
    as (f' & _ & -> & -> & Hf' & _).
  { rewrite <- Ex. fold (date_render f). rewrite <- Ecs.
    apply collapse_single_spaced. }
  destruct (@prefix_unique f f' (t_zone f) tail Hf Hf' Ex)
    as (E1 & E2 & E3 & <-).
  rewrite zone_group_total in K by assumption. injection K as <-.
  change (Strptime.check
            (Strptime.fields ((Strptime.key "Z", t_zone f) :: prefix_caps f'))
          = Ok (date_value f)).
  rewrite fields_caps, <- E3 by assumption.
  apply check_Ok. auto.
Qed.

(** C6 (as stated, refuted): [February 30 2021 3:04:05 PM UTC] has the
    shape of the specification, and [parse_date] raises on it. *)
Lemma february_30_rejected :
  spec_timestamp_shape
    (collapse false (lit "February 30 2021 3:04:05 PM UTC"))
  /\ parse_date utc (lit "February 30 2021 3:04:05 PM UTC")
     = Raise (ValueError (lit "day is out of range for month")).
Proof.
  split; [|reflexivity].
  exists {| t_month := lit "February"; t_day := lit "30";
            t_year := lit "2021"; t_hour := lit "3"; t_minute := lit "04";
            t_second := lit "05"; t_ampm := lit "PM"; t_zone := lit "UTC" |}.
  repeat split; try reflexivity.
  - simpl. tauto.
  - now right.
  - discriminate.
Qed.

(** C6 (amended): [parse_date] depends on a text only through the text
    with every run of whitespace collapsed into one space.  It succeeds
    exactly when the collapsed text reads
    [<month> <day> <year> <hour>:<minute>:<second> <am/pm> <zone>] with an
    English month name, AM or PM, and UTC, GMT or a zone name of the
    process, in any letter case, with numbers in the ranges of the
    directives, and the date exists ([date_valid]); the result is then the
    naive datetime of these parts, the hour taken from the 12-hour clock;
    no zone is attached to it.  Every other text raises. *)
Theorem parse_date_spec (lt : Strptime.locale_time) :
  (forall s t,
      collapse false s = collapse false t -> parse_date lt s = parse_date lt t)
  /\ (forall s, parse_date lt (collapse false s) = parse_date lt s)
  /\ (forall s dt,
        parse_date lt s = Ok dt <->
        exists f,
          collapse false s = date_render f /\ date_accepted lt f
          /\ dt = date_value f /\ date_valid dt)
  /\ (forall s, (exists dt, parse_date lt s = Ok dt)
                \/ (exists msg, parse_date lt s = Raise (ValueError msg))).
Proof.
  split; [|split; [|split]].
  - intros s t E. unfold parse_date. now rewrite E.
  - intros s. unfold parse_date. now rewrite collapse_idem.
  - intros s dt. split; [apply parse_date_Ok|].
    intros (f & Ecs & Hf & -> & Hv). now apply parse_date_complete.
  - intros s. destruct (parse_date lt s) as [dt|e] eqn:E; [eauto|].
    right. apply parse_date_raises in E as [msg ->]. eauto.
Qed.

(** ** The end-to-end example *)

(** Whether a date text of accepted parts is parsed is decided by its
    zone alone. *)
Lemma parse_date_zone (lt : Strptime.locale_time) (s : str) (f : date_text) :
  collapse false s = date_render f -> prefix_accepted f ->
  date_valid (date_value f) ->
  (In (lower_str (t_zone f)) (Strptime.timezone lt) ->
   parse_date lt s = Ok (date_value f))
  /\ (~ In (lower_str (t_zone f)) (Strptime.timezone lt) ->
      exists msg, parse_date lt s = Raise (ValueError msg)).
Proof.
  intros Es Hf Hv. split.
  - intros Hz. apply parse_date_complete; [assumption | now split | assumption].
  - intros Hz. destruct (parse_date lt s) as [dt|e] eqn:P.
    + exfalso. apply parse_date_Ok in P as (f' & Es' & [Hf' Hz'] & _).
      rewrite Es in Es'. unfold date_render in Es'.
      apply (@prefix_unique f f' _ _ Hf Hf') in Es' as (_ & _ & _ & Ez).
      apply Hz. now rewrite Ez.
    + apply parse_date_raises in P as [msg ->]. eauto.
Qed.

Lemma transform_row_matched (lt : Strptime.locale_time) (r : Log.row)
  (p : nat) (rest u act a x : str) :
  search false EVENT_PARSER (Log.event r)
  = Some (p, rest, [(4, x); (3, a); (2, act); (1, u)]) ->
  transform_row lt r
  = (d <- parse_date lt (Log.date r) ;;
     Ok {| user := u; action := act; app := a; scope := split x;
           date := d |}).
Proof. unfold transform_row. intros ->. reflexivity. Qed.

(** C1 (as stated, refuted): in a process whose zone is UTC the query
    selects rows 1 and 2 of the example and the run stops on the date of
    row 1: no report, nothing printed, exit status 1. *)
Lemma example_report_utc :
  QUERY example_log = firstn 2 example_log
  /\ report utc example_log
     = Raise (ValueError
                (lit "time data u'January 5 2021 3:04:05 PM PST' does not match format '%B %d %Y %I:%M:%S %p %Z'"))
  /\ run utc example_log
     = {| stdout := [];
          status := 1;
          raised :=
            Some (ValueError
                    (lit "time data u'January 5 2021 3:04:05 PM PST' does not match format '%B %d %Y %I:%M:%S %p %Z'")) |}.
Proof. repeat split; vm_compute; reflexivity. Qed.

(** C1 (amended): on the three rows of the example the query selects
    rows 1 and 2.  In a process that has PST among the names of its local
    zone the report has the single user [alice@example.com] with the
    AUTHORIZE event of January 5 2021 3:04:05 PM followed by the REVOKE
    event of January 6 2021 9:00:00 AM, and the process prints that report
    and exits with status 0.  In every other process [strptime] rejects
    the zone of the dates: the run stops with a [ValueError], prints
    nothing and exits with status 1. *)
Theorem example_report_zone (lt : Strptime.locale_time) :
  QUERY example_log = firstn 2 example_log
  /\ (In (lit "pst") (Strptime.timezone lt) ->
      report lt example_log
      = Ok [(lit "alice@example.com", [alice_authorized; alice_revoked])]
      /\ run lt example_log
         = {| stdout :=
                [lit "";
                 lit "=== alice@example.com ===";
                 lit "2021-01-05 15:04:05: authorized docs.google.com/feeds: read write";
                 lit "2021-01-06 09:00:00: revoked docs.google.com/feeds: read write"];
              status := 0;
              raised := None |})
  /\ (~ In (lit "pst") (Strptime.timezone lt) ->
      exists msg,
        report lt example_log = Raise (ValueError msg)
        /\ run lt example_log
           = {| stdout := []; status := 1;
                raised := Some (ValueError msg) |}).
Proof.
  assert (Q : QUERY example_log = firstn 2 example_log) by reflexivity.
  assert (A5 : prefix_accepted january_5)
    by (repeat split; try reflexivity; simpl; tauto).
  assert (A6 : prefix_accepted january_6)
    by (repeat split; try reflexivity; simpl; tauto).
  assert (V5 : date_valid (date_value january_5)) by (vm_compute; intuition discriminate).
  assert (V6 : date_valid (date_value january_6)) by (vm_compute; intuition discriminate).
  destruct (@parse_date_zone lt (lit "January 5 2021 3:04:05 PM PST")
              january_5 eq_refl A5 V5) as [P5 N5].
  destruct (@parse_date_zone lt (lit "January 6 2021 9:00:00 AM PST")
              january_6 eq_refl A6 V6) as [P6 _].
  assert (R : report lt example_log
              = (rows <- map_result (transform_row lt) (firstn 2 example_log) ;;
                 Ok (Pandas.groupby user (sort_by_date rows)))).
  { unfold report, apply_transform_row. rewrite Q. cbn [firstn example_log].
    destruct (map_result _ _); reflexivity. }
  assert (T : map_result (transform_row lt) (firstn 2 example_log)
              = (d5 <- parse_date lt (lit "January 5 2021 3:04:05 PM PST") ;;
                 d6 <- parse_date lt (lit "January 6 2021 9:00:00 AM PST") ;;
                 Ok [{| user := lit "alice@example.com";
                        action := lit "authorized";
                        app := lit "docs.google.com/feeds";
                        scope := [lit "read"; lit "write"]; date := d5 |};
                     {| user := lit "alice@example.com";
                        action := lit "revoked";
                        app := lit "docs.google.com/feeds";
                        scope := [lit "read"; lit "write"]; date := d6 |}])).
  { cbn [firstn example_log map_result].
    erewrite 2 transform_row_matched by (vm_compute; reflexivity).
    cbn [log_row Log.date].
    destruct (parse_date lt (lit "January 5 2021 3:04:05 PM PST"));
      [|reflexivity].
    destruct (parse_date lt (lit "January 6 2021 9:00:00 AM PST"));
      reflexivity. }
  split; [exact Q|]. split.
  - intros Hz.
    assert (E : report lt example_log
                = Ok [(lit "alice@example.com",
                       [alice_authorized; alice_revoked])]).
    { rewrite R, T, (P5 Hz), (P6 Hz). vm_compute. reflexivity. }
    split; [exact E|]. unfold run, main. rewrite E. vm_compute. reflexivity.
  - intros Hz. destruct (N5 Hz) as [msg Hm]. exists msg.
    assert (E : report lt example_log = Raise (ValueError msg)).
    { rewrite R, T, Hm. reflexivity. }
    split; [exact E|]. unfold run, main. now rewrite E.
Qed.

Lemma example_report_zone_witness :
  In (lit "pst") (Strptime.timezone pacific)
  /\ report pacific example_log
     = Ok [(lit "alice@example.com", [alice_authorized; alice_revoked])]
  /\ run pacific example_log
     = {| stdout :=
            [lit "";
             lit "=== alice@example.com ===";
             lit "2021-01-05 15:04:05: authorized docs.google.com/feeds: read write";
             lit "2021-01-06 09:00:00: revoked docs.google.com/feeds: read write"];
          status := 0;
          raised := None |}.
Proof.
  assert (Hz : In (lit "pst") (Strptime.timezone pacific))
    by (right; right; left; reflexivity).
  split; [exact Hz|].
  exact (proj1 (proj2 (example_report_zone pacific)) Hz).
Defined.

(** ** [split] and [join] *)

Lemma split_from_word (w : str) :
  forall cur s,
    forallb (fun c => negb (isspace c)) w = true ->
    split_from cur (w ++ s) = split_from (rev w ++ cur) s.
Proof.
  induction w as [|c w IH]; intros cur s H; [reflexivity|].
  simpl in H. apply andb_true_iff in H as [Hc Hw].
  apply negb_true_iff in Hc. simpl. rewrite Hc, IH by assumption.
  now rewrite <- app_assoc.
Qed.

Lemma split_from_blank (cur s : str) :
  split_from cur (" "%char :: s)
  = match cur with [] => [] | _ => [rev cur] end ++ split_from [] s.
Proof. simpl. destruct cur; reflexivity. Qed.

Lemma split_word_blank (w s : str) :
  token w -> split (w ++ " "%char :: s) = w :: split s.
Proof.
  intros [Hne Hw]. unfold split. rewrite split_from_word by assumption.
  rewrite split_from_blank, app_nil_r, rev_involutive.
  destruct (rev w) eqn:E; [|reflexivity].
  apply (f_equal (@rev ascii)) in E. rewrite rev_involutive in E.
  simpl in E. congruence.
Qed.

Lemma split_word (w : str) : token w -> split w = [w].
Proof.
  intros [Hne Hw]. unfold split. rewrite <- (app_nil_r w) at 1.
  rewrite split_from_word by assumption. simpl.
  rewrite app_nil_r, rev_involutive.
  destruct (rev w) eqn:E; [|reflexivity].
  apply (f_equal (@rev ascii)) in E. rewrite rev_involutive in E.
  simpl in E. congruence.
Qed.

Lemma split_join (toks : list str) :
  Forall token toks -> split (join (lit " ") toks) = toks.
Proof.
  induction 1 as [|w toks Hw _ IH]; [reflexivity|].
  destruct toks as [|w' toks].
  - simpl. now apply split_word.
  - change (join (lit " ") (w :: w' :: toks))
      with (w ++ " "%char :: join (lit " ") (w' :: toks)).
    rewrite split_word_blank by assumption. now rewrite IH.
Qed.

Lemma split_after_blank (p s : str) :
  forall cur, exists pre,
    split_from cur (p ++ " "%char :: s) = pre ++ split s.
Proof.
  induction p as [|c p IH]; intros cur.
  - rewrite app_nil_l, split_from_blank. eauto.
  - simpl. destruct (isspace c).
    + destruct cur.
      * apply IH.
      * destruct (IH []) as [pre ->]. exists (rev (a :: cur) :: pre).
        reflexivity.
    + apply IH.
Qed.

(** A word between two blanks is a token of the text. *)
Lemma split_contains (w p q : str) :
  token w -> In w (split (p ++ " "%char :: w ++ " "%char :: q)).
Proof.
  intros Hw. destruct (split_after_blank p (w ++ " "%char :: q) []) as [pre E].
  unfold split at 1. rewrite E, split_word_blank by assumption.
  apply in_or_app. right. now left.
Qed.

Lemma join_plain (toks : list str) :
  Forall token toks -> forallb dot (join (lit " ") toks) = true.
Proof.
  assert (D : forall w, token w -> forallb dot w = true).
  { intros w [_ Hw]. rewrite forallb_forall in *. intros c Hc.
    specialize (Hw c Hc). unfold dot.
    destruct (chr_eqb c newline) eqn:E; [|reflexivity].
    apply chr_eqb_eq in E; subst c. discriminate. }
  induction 1 as [|w toks Hw _ IH]; [reflexivity|].
  destruct toks as [|w' toks].
  - simpl. now apply D.
  - change (join (lit " ") (w :: w' :: toks))
      with (w ++ " "%char :: join (lit " ") (w' :: toks)).
    rewrite forallb_app, D by assumption.
    change (true && (true && forallb dot (join (lit " ") (w' :: toks)))
            = true).
    now rewrite IH.
Qed.

Lemma join_nonempty (toks : list str) :
  Forall token toks -> toks <> [] -> join (lit " ") toks <> [].
Proof.
  intros H Hne. destruct H as [|w toks [Hw _] _]; [congruence|].
  destruct w; [congruence|]. destruct toks; discriminate.
Qed.

(** ** The greedy [+] takes the longest text that lets the rest match *)

Lemma more_max (p : ascii -> bool) (s : str) :
  forall pos k e,
    more p pos s k = Some e ->
    exists y tail,
      s = y ++ tail /\ forallb p y = true
      /\ k (pos + length y) tail = Some e
      /\ forall d rest,
           d <> [] -> tail = d ++ rest -> forallb p d = true ->
           k (pos + length y + length d) rest = None.
Proof.
  induction s as [|c s IH]; intros pos k e H; simpl in H.
  - exists [], []. rewrite Nat.add_0_r. repeat split; auto.
    intros d rest Hd E. destruct d; [congruence | discriminate].
  - assert (Stop : k pos (c :: s) = Some e -> p c = false \/
                     more p (S pos) s k = None ->
                   exists y tail,
                     c :: s = y ++ tail /\ forallb p y = true
                     /\ k (pos + length y) tail = Some e
                     /\ forall d rest,
                          d <> [] -> tail = d ++ rest ->
                          forallb p d = true ->
                          k (pos + length y + length d) rest = None).
    { intros Hk Hn. exists [], (c :: s). rewrite Nat.add_0_r.
      repeat split; auto. intros d rest Hd E Hp.
      destruct d as [|c' d]; [congruence|]. simpl in E. injection E as <- ->.
      simpl in Hp. apply andb_true_iff in Hp as [Hc Hp].
      destruct Hn as [Hn | Hn]; [congruence|].
      match goal with
      | |- k ?n rest = None =>
          replace n with (S pos + length d) by (simpl; lia)
      end.
      destruct (k (S pos + length d) rest) eqn:K; [|reflexivity].
      destruct (@more_complete p d (S pos) rest k _ Hp K) as [e' He'].
      congruence. }
    destruct (p c) eqn:Hc; [|apply Stop; auto].
    destruct (more p (S pos) s k) eqn:Hm; [|apply Stop; auto].
    injection H as <-.
    destruct (IH _ _ _ Hm) as (y & tail & -> & Hy & Hk & Hmax).
    exists (c :: y), tail. simpl. rewrite Hc, Hy.
    replace (pos + S (length y)) with (S pos + length y) by lia.
    repeat split; auto.
Qed.

Lemma firstn_span (pos q : nat) (x t : str) :
  q = pos + length x -> firstn (q - pos) (x ++ t) = x.
Proof.
  intros ->. replace (pos + length x - pos) with (length x) by lia.
  rewrite firstn_app, Nat.sub_diag, firstn_all. simpl. apply app_nil_r.
Qed.

Lemma group_plus_max (icase : bool) (n : nat) (p : ascii -> bool)
  (rest_re : regex) (pos : nat) (s : str) (caps : captures)
  (k : nat -> str -> captures -> option mend) (e : mend) :
  m icase (Seq (Group n (PlusClass p)) rest_re) pos s caps k = Some e ->
  exists y tail,
    s = y ++ tail /\ y <> [] /\ forallb p y = true
    /\ m icase rest_re (pos + length y) tail ((n, y) :: caps) k = Some e
    /\ forall d rest,
         d <> [] -> tail = d ++ rest -> forallb p d = true ->
         m icase rest_re (pos + length y + length d) rest
           ((n, y ++ d) :: caps) k = None.
Proof.
  cbn [m]. destruct s as [|c s]; [discriminate|].
  destruct (p c) eqn:Hc; [|discriminate]. intros H.
  apply more_max in H as (y & tail & -> & Hy & Hk & Hmax).
  exists (c :: y), tail. split; [reflexivity|]. split; [discriminate|].
  split; [simpl; now rewrite Hc, Hy|]. split.
  - change (c :: y ++ tail) with ((c :: y) ++ tail) in Hk.
    rewrite firstn_span in Hk by (cbn [length]; lia).
    replace (pos + length (c :: y)) with (S pos + length y)
      by (cbn [length]; lia).
    exact Hk.
  - intros d rest Hd -> Hp. specialize (Hmax d rest Hd eq_refl Hp).
    change (c :: y ++ d ++ rest) with ((c :: y) ++ d ++ rest) in Hmax.
    rewrite app_assoc, firstn_span in Hmax
      by (rewrite length_app; cbn [length]; lia).
    replace (pos + length (c :: y) + length d)
      with (S pos + length y + length d) by (cbn [length]; lia).
    exact Hmax.
Qed.
(** ** The reading [EVENT_PARSER] takes *)

Lemma EVENT_PARSER_parts :
  EVENT_PARSER
  = Seq Bol (Seq (Group 1 (PlusClass dot))
               (seqs (AFTER_USER ++ Group 3 (PlusClass dot) :: AFTER_APP))).
Proof. reflexivity. Qed.

Lemma AFTER_APP_matches (pos : nat) (x nl : str) :
  plain x -> nl = [] \/ nl = [newline] ->
  matches false (seqs AFTER_APP) pos (after_app_text x) nl [(4, x)].
Proof.
  intros Hx Hnl. unfold AFTER_APP, seqs, after_app_text; simpl fold_right.
  apply (M_Seq (x1 := lit " for ") (c1 := []) (c2 := [(4, x)])).
  { constructor. now apply same_text_exact. }
  apply (M_Seq (x1 := x) (c1 := [(4, x)]) (c2 := [])).
  { constructor. constructor; apply Hx. }
  apply (M_Seq (x1 := lit " scopes") (x2 := []) (c1 := []) (c2 := [])).
  { constructor. now apply same_text_exact. }
  apply (M_Seq (x1 := []) (x2 := []) (c1 := []) (c2 := [])).
  { now constructor. }
  constructor.
Qed.

Lemma after_user_matches (pos : nat) (act a x nl : str) :
  act = lit "revoked" \/ act = lit "authorized" -> plain a -> plain x ->
  nl = [] \/ nl = [newline] ->
  matches false (seqs (AFTER_USER ++ Group 3 (PlusClass dot) :: AFTER_APP))
    pos (after_user_text act a x) nl [(4, x); (3, a); (2, act)].
Proof.
  intros Hact Ha Hx Hnl.
  unfold AFTER_USER, seqs, after_user_text; simpl fold_right.
  apply (M_Seq (x1 := lit " ") (c1 := []) (c2 := [(4, x); (3, a); (2, act)])).
  { constructor. now apply same_text_exact. }
  apply (M_Seq (x1 := act) (c1 := [(2, act)]) (c2 := [(4, x); (3, a)])).
  { constructor. destruct Hact as [-> | ->].
    - apply M_AltL. constructor. now apply same_text_exact.
    - apply M_AltR. constructor. now apply same_text_exact. }
  apply (M_Seq (x1 := lit " access to ") (c1 := []) (c2 := [(4, x); (3, a)])).
  { constructor. now apply same_text_exact. }
  apply (M_Seq (x1 := a) (c1 := [(3, a)]) (c2 := [(4, x)])).
  { constructor. constructor; apply Ha. }
  now apply AFTER_APP_matches.
Qed.

Lemma AFTER_APP_inv (pos : nat) (y tail : str) (c : captures) :
  matches false (seqs AFTER_APP) pos y tail c ->
  exists x,
    y = after_app_text x /\ c = [(4, x)] /\ plain x
    /\ (tail = [] \/ tail = [newline]).
Proof.
  intros H. unfold AFTER_APP in H. inv_matches.
  all: repeat match goal with
       | H : same_text false _ _ |- _ => apply same_text_exact in H; subst
       end.
  eexists. unfold after_app_text. rewrite ?app_nil_r. repeat split; eauto.
Qed.

Lemma AFTER_USER_inv (pos : nat) (y tail : str) (c : captures) :
  matches false (seqs AFTER_USER) pos y tail c ->
  exists act,
    y = lit " " ++ act ++ lit " access to " /\ c = [(2, act)]
    /\ (act = lit "revoked" \/ act = lit "authorized").
Proof.
  intros H. unfold AFTER_USER in H. inv_matches.
  all: repeat match goal with
       | H : same_text false _ _ |- _ => apply same_text_exact in H; subst
       end.
  all: eexists; rewrite ?app_nil_r; repeat split; eauto.
Qed.

Lemma event_text_user (u d act a x nl : str) :
  event_text (u ++ d) act a x nl = u ++ d ++ after_user_text act a x ++ nl.
Proof.
  unfold event_text, after_user_text, after_app_text.
  now repeat rewrite <- app_assoc.
Qed.

Lemma event_text_app (u act a d x nl : str) :
  event_text u act (a ++ d) x nl
  = u ++ (lit " " ++ act ++ lit " access to ")
      ++ a ++ d ++ after_app_text x ++ nl.
Proof.
  unfold event_text, after_app_text. now repeat rewrite <- app_assoc.
Qed.

(** What [search] returns is the longest reading of the text. *)
Lemma search_EVENT_PARSER_longest (s : str) (e : mend) :
  search false EVENT_PARSER s = Some e ->
  exists u act a x,
    snd e = [(4, x); (3, a); (2, act); (1, u)] /\ longest_reading s u act a x.
Proof.
  intros H. pose proof (search_EVENT_PARSER_sound _ H) as Hs.
  rewrite EVENT_PARSER_parts, search_anchored in H. unfold match_ in H.
  cbn [m Nat.eqb] in H.
  apply group_plus_max in H as (u & t1 & -> & Hu & Hdu & H & Hmax1).
  pose proof H as H1. rewrite seqs_app in H1.
  apply m_sound in H1 as (x1 & t2 & c1 & -> & M1 & H1).
  apply AFTER_USER_inv in M1 as (act & -> & -> & Hact).
  change (seqs (Group 3 (PlusClass dot) :: AFTER_APP))
    with (Seq (Group 3 (PlusClass dot)) (seqs AFTER_APP)) in H1.
  apply group_plus_max in H1 as (a & t3 & -> & Ha & Hda & H3 & Hmax3).
  pose proof H3 as H4.
  apply m_sound in H4 as (x3 & nl & c3 & -> & M3 & Hk).
  apply AFTER_APP_inv in M3 as (x & -> & -> & Hx & Hnl).
  unfold accept in Hk. injection Hk as <-.
  destruct Hs as (u' & act' & a' & x' & Hc & Hs).
  cbn [snd Datatypes.app] in Hc. injection Hc as <- <- <- <-.
  exists u, act, a, x. split; [reflexivity|]. split; [exact Hs|]. split.
  - intros d act' a' x' Hd (Hud & Hact' & Ha' & Hx' & nl' & Hnl' & E).
    rewrite event_text_user in E. apply app_inv_head in E.
    destruct Hud as [_ Hud]. rewrite forallb_app in Hud.
    apply andb_true_iff in Hud as [_ Hd'].
    specialize (Hmax1 d _ Hd E Hd').
    assert (exists e',
              m false
                (seqs (AFTER_USER ++ Group 3 (PlusClass dot) :: AFTER_APP))
                (0 + length u + length d) (after_user_text act' a' x' ++ nl')
                [(1, u ++ d)] accept = Some e') as [e' He'].
    { eapply m_complete; [now apply after_user_matches | reflexivity]. }
    assert (C : Some e' = None) by (rewrite <- He'; exact Hmax1).
    discriminate.
  - intros d x' Hd (_ & _ & [_ Had] & Hx' & nl' & Hnl' & E).
    rewrite event_text_app in E. apply app_inv_head in E.
    do 2 apply app_inv_head in E.
    rewrite forallb_app in Had. apply andb_true_iff in Had as [_ Hd'].
    specialize (Hmax3 d _ Hd E Hd').
    match type of Hmax3 with
    | m _ _ ?q _ ?c _ = None =>
        assert (exists e',
                  m false (seqs AFTER_APP) q (after_app_text x' ++ nl') c
                    accept = Some e') as [e' He']
    end.
    { eapply m_complete; [now apply AFTER_APP_matches | reflexivity]. }
    assert (C : Some e' = None) by (rewrite <- He'; exact Hmax3).
    discriminate.
Qed.
Lemma scopes_tail (x x' nl nl' : str) :
  nl = [] \/ nl = [newline] -> nl' = [] \/ nl' = [newline] ->
  x ++ lit " scopes" ++ nl = x' ++ lit " scopes" ++ nl' ->
  x = x' /\ nl = nl'.
Proof.
  assert (N : forall y y', y ++ lit " scopes" <> y' ++ lit " scopes" ++ [newline]).
  { intros y y' E.
    change (y ++ lit " scopes") with (y ++ lit " scope" ++ ["s"%char]) in E.
    change (y' ++ lit " scopes" ++ [newline])
      with (y' ++ lit " scopes" ++ [newline]) in E.
    rewrite 2 app_assoc in E. apply app_inj_tail in E as [_ E].
    discriminate. }
  intros [-> | ->] [-> | ->] E.
  - rewrite app_nil_r in E. apply app_inv_tail in E. auto.
  - rewrite app_nil_r in E. now apply N in E.
  - rewrite app_nil_r in E. symmetry in E. now apply N in E.
  - apply app_inv_tail in E. auto.
Qed.

(** A text has one longest reading. *)
Lemma longest_reading_unique (s u act a x u' act' a' x' : str) :
  longest_reading s u act a x -> longest_reading s u' act' a' x' ->
  u = u' /\ act = act' /\ a = a' /\ x = x'.
Proof.
  intros (S1 & MU1 & MA1) (S2 & MU2 & MA2).
  assert (Eu : u = u').
  { pose proof S1 as (_ & _ & _ & _ & nl & _ & E1).
    pose proof S2 as (_ & _ & _ & _ & nl' & _ & E2).
    rewrite E1 in E2. unfold event_text in E2.
    apply app_eq_app in E2 as [l [[-> _] | [-> _]]].
    - destruct l as [|c l]; [now rewrite app_nil_r|].
      exfalso. apply (MU2 (c :: l) act a x); [discriminate | exact S1].
    - destruct l as [|c l]; [now rewrite app_nil_r|].
      exfalso. apply (MU1 (c :: l) act' a' x'); [discriminate | exact S2]. }
  subst u'. split; [reflexivity|].
  assert (Eact : act = act').
  { pose proof S1 as (_ & Hact & _ & _ & nl & _ & E1).
    pose proof S2 as (_ & Hact' & _ & _ & nl' & _ & E2).
    rewrite E1 in E2. unfold event_text in E2. apply app_inv_head in E2.
    destruct Hact as [-> | ->], Hact' as [-> | ->];
      try reflexivity; discriminate E2. }
  subst act'. split; [reflexivity|].
  assert (Ea : a = a').
  { pose proof S1 as (_ & _ & _ & _ & nl & _ & E1).
    pose proof S2 as (_ & _ & _ & _ & nl' & _ & E2).
    rewrite E1 in E2. unfold event_text in E2.
    do 4 apply app_inv_head in E2.
    apply app_eq_app in E2 as [l [[-> _] | [-> _]]].
    - destruct l as [|c l]; [now rewrite app_nil_r|].
      exfalso. apply (MA2 (c :: l) x); [discriminate | exact S1].
    - destruct l as [|c l]; [now rewrite app_nil_r|].
      exfalso. apply (MA1 (c :: l) x'); [discriminate | exact S2]. }
  subst a'. split; [reflexivity|].
  pose proof S1 as (_ & _ & _ & _ & nl & Hnl & E1).
  pose proof S2 as (_ & _ & _ & _ & nl' & Hnl' & E2).
  rewrite E1 in E2. unfold event_text in E2.
  do 6 apply app_inv_head in E2.
  now apply scopes_tail in E2.
Qed.

(** [search] finds the longest reading, when there is one. *)
Lemma search_EVENT_PARSER_spec (s u act a x : str) :
  longest_reading s u act a x <->
  exists e,
    search false EVENT_PARSER s = Some e
    /\ snd e = [(4, x); (3, a); (2, act); (1, u)].
Proof.
  split.
  - intros L. destruct (search_EVENT_PARSER_complete (proj1 L)) as [e He].
    exists e. split; [exact He|].
    destruct (search_EVENT_PARSER_longest _ He)
      as (u' & act' & a' & x' & -> & L').
    destruct (longest_reading_unique L L') as (-> & -> & -> & ->).
    reflexivity.
  - intros (e & He & Hc).
    destruct (search_EVENT_PARSER_longest _ He)
      as (u' & act' & a' & x' & Hc' & L').
    rewrite Hc in Hc'. injection Hc' as -> -> -> ->. exact L'.
Qed.

(** C8 (amended): when [transform_row] succeeds, user and application are
    not empty and the action is [authorized] or [revoked].  The scopes text
    [x] is the one the expression matched: user, action, application and
    [x] are the reading of the event text that [EVENT_PARSER] takes, and
    no other text reads as the scopes beside them.  It is not empty, and
    [scope] is that text split on whitespace: every token is non-empty and
    free of whitespace, and there is no token exactly when the scopes text
    is all whitespace. *)
Theorem transform_row_outputs (lt : Strptime.locale_time) (r : Log.row)
  (t : row) :
  transform_row lt r = Ok t ->
  user t <> [] /\ app t <> []
  /\ (action t = lit "authorized" \/ action t = lit "revoked")
  /\ exists x,
       longest_reading (Log.event r) (user t) (action t) (app t) x
       /\ (forall x',
             event_shape (Log.event r) (user t) (action t) (app t) x' ->
             x' = x)
       /\ x <> [] /\ scope t = split x /\ Forall token (scope t)
       /\ (scope t = [] <-> forallb isspace x = true).
Proof.
  unfold transform_row.
  destruct (search false EVENT_PARSER (Log.event r)) as [[[p rest] c]|] eqn:E;
    [|discriminate].
  apply search_EVENT_PARSER_longest in E as (u & act & a & x & Hc & L).
  simpl in Hc; subst c. cbn [groups group Nat.eqb].
  destruct (parse_date lt (Log.date r)) as [dt|e]; simpl; [|discriminate].
  intros H. injection H as <-. cbn [user action app scope].
  pose proof L as ((Hu & Hact & Ha & Hx & nl & Hnl & Es) & _).
  split; [apply Hu|]. split; [apply Ha|]. split; [tauto|].
  exists x. split; [exact L|]. split.
  - intros x' (_ & _ & _ & _ & nl' & Hnl' & Es').
    rewrite Es in Es'. unfold event_text in Es'.
    do 6 apply app_inv_head in Es'.
    apply scopes_tail in Es' as [Ex _]; auto.
  - split; [apply Hx|]. split; [reflexivity|].
    split; [apply split_tokens | apply split_nil].
Qed.

Lemma transform_row_outputs_witness :
  transform_row pacific (hd odd_row example_log) = Ok alice_authorized
  /\ user alice_authorized <> [] /\ app alice_authorized <> []
  /\ (action alice_authorized = lit "authorized"
      \/ action alice_authorized = lit "revoked")
  /\ exists x,
       longest_reading (Log.event (hd odd_row example_log))
         (user alice_authorized) (action alice_authorized)
         (app alice_authorized) x
       /\ (forall x',
             event_shape (Log.event (hd odd_row example_log))
               (user alice_authorized) (action alice_authorized)
               (app alice_authorized) x' ->
             x' = x)
       /\ x <> [] /\ scope alice_authorized = split x
       /\ Forall token (scope alice_authorized)
       /\ (scope alice_authorized = [] <-> forallb isspace x = true).
Proof.
  split; [reflexivity|].
  apply (@transform_row_outputs pacific (hd odd_row example_log)).
  reflexivity.
Defined.

(** ** The rendered event *)

Lemma token_no_blank (w : str) : token w -> ~ In " "%char w.
Proof.
  intros [_ Hw] Hin. rewrite forallb_forall in Hw. apply Hw in Hin.
  discriminate.
Qed.

Lemma first_blank (d : str) :
  ~ In " "%char d \/ exists a b, d = a ++ " "%char :: b /\ ~ In " "%char a.
Proof.
  induction d as [|c d IH]; [left; intros []|].
  destruct (ascii_dec c " "%char) as [-> | Hc].
  - right. exists [], d. split; [reflexivity | intros []].
  - destruct IH as [IH | (a & b & -> & Ha)].
    + left. intros [E | Hin]; auto.
    + right. exists (c :: a), b. split; [reflexivity|].
      intros [E | Hin]; auto.
Qed.

Lemma join_cons (sep x y : str) (l : list str) :
  join sep (x :: y :: l) = x ++ sep ++ join sep (y :: l).
Proof. reflexivity. Qed.

Lemma join_app (sep : str) (l1 l2 : list str) :
  l1 <> [] -> l2 <> [] ->
  join sep (l1 ++ l2) = join sep l1 ++ sep ++ join sep l2.
Proof.
  intros H1 H2. induction l1 as [|x l1 IH]; [congruence|].
  destruct l1 as [|y l1].
  - destruct l2; [congruence | reflexivity].
  - change ((x :: y :: l1) ++ l2) with (x :: y :: (l1 ++ l2)).
    rewrite 2 join_cons. change (y :: l1 ++ l2) with ((y :: l1) ++ l2).
    rewrite IH by discriminate. now repeat rewrite <- app_assoc.
Qed.

(** The first word of joined tokens is the first token. *)
Lemma join_first_word (toks : list str) (w y : str) :
  Forall token toks -> ~ In " "%char w ->
  join (lit " ") toks = w ++ " "%char :: y ->
  exists rest, toks = w :: rest /\ rest <> [].
Proof.
  intros Ht Hw E. destruct Ht as [|t1 toks Ht1 Ht].
  - destruct w; discriminate.
  - destruct toks as [|t2 r].
    + exfalso. apply (token_no_blank Ht1). simpl in E. rewrite E.
      apply in_or_app. right. now left.
    + rewrite join_cons in E.
      apply split_unique in E as [-> _]; auto using token_no_blank.
      exists (t2 :: r). split; [reflexivity | discriminate].
Qed.

(** A word between two blanks of joined tokens is a token, and not the
    last. *)
Lemma join_inner_word (toks : list str) (w : str) :
  forall p y,
    Forall token toks -> ~ In " "%char w ->
    join (lit " ") toks = p ++ " "%char :: w ++ " "%char :: y ->
    In w (removelast toks).
Proof.
  induction toks as [|t1 toks IH]; intros p y Ht Hw E.
  - destruct p; discriminate.
  - inversion Ht as [|? ? Ht1 Ht']; subst. destruct toks as [|t2 r].
    + exfalso. apply (token_no_blank Ht1). simpl in E. rewrite E.
      apply in_or_app. right. now left.
    + rewrite join_cons in E.
      change (removelast (t1 :: t2 :: r)) with (t1 :: removelast (t2 :: r)).
      right. destruct (first_blank p) as [Hp | (a & b & -> & Ha)].
      * apply split_unique in E as [_ E]; auto using token_no_blank.
        apply join_first_word in E as (rest & Er & Hne); auto.
        injection Er as -> ->. destruct rest; [congruence|]. now left.
      * rewrite <- app_assoc in E.
        change ((" "%char :: b) ++ " "%char :: w ++ " "%char :: y)
          with (" "%char :: b ++ " "%char :: w ++ " "%char :: y) in E.
        apply split_unique in E as [_ E]; auto using token_no_blank.
        now apply (IH b y).
Qed.

Lemma In_removelast (w : str) (l : list str) :
  In w (removelast l) -> exists l1 l2, l = l1 ++ w :: l2 /\ l2 <> [].
Proof.
  induction l as [|x l IH]; [intros []|].
  destruct l as [|y l]; [intros []|].
  change (removelast (x :: y :: l)) with (x :: removelast (y :: l)).
  intros [-> | H].
  - exists [], (y :: l). split; [reflexivity | discriminate].
  - destruct (IH H) as (l1 & l2 & E & Hne). exists (x :: l1), l2.
    rewrite E. split; [reflexivity | assumption].
Qed.

(** In [ for <scopes> scopes], where no scope but the last is [for], the
    text [ for ] before the scopes is the last one that scopes follow. *)
Lemma no_later_for (toks : list str) (d y nl : str) :
  Forall token toks -> ~ In (lit "for") (removelast toks) -> d <> [] ->
  nl = [] \/ nl = [newline] ->
  after_app_text (join (lit " ") toks) = d ++ after_app_text y ++ nl ->
  False.
Proof.
  intros Ht Hfor Hd Hnl E. unfold after_app_text in E.
  assert (Tf : ~ In " "%char (lit "for")) by (simpl; intuition discriminate).
  assert (E' : lit " for " ++ join (lit " ") toks = d ++ lit " for " ++ y).
  { rewrite <- (app_nil_r (lit " scopes")) in E at 1.
    replace (d ++ (lit " for " ++ y ++ lit " scopes") ++ nl)
      with ((d ++ lit " for " ++ y) ++ lit " scopes" ++ nl) in E
      by (now repeat rewrite <- app_assoc).
    rewrite (app_assoc (lit " for ")) in E.
    apply scopes_tail in E as [E _]; auto. }
  clear E. apply Hfor.
  destruct d as [|c0 [|c1 [|c2 [|c3 [|c4 d]]]]]; try congruence;
    try discriminate E'.
  - injection E' as _ _ _ _ E'.
    change (join (lit " ") toks = lit "for" ++ " "%char :: y) in E'.
    apply join_first_word in E' as (rest & -> & Hne); auto.
    destruct rest; [congruence|]. now left.
  - injection E' as _ _ _ _ _ E'.
    change (join (lit " ") toks
            = d ++ " "%char :: lit "for" ++ " "%char :: y) in E'.
    now apply join_inner_word in E'.
Qed.

(** Where a scope other than the last is [for], scopes follow a later
    [ for ]. *)
Lemma later_for (toks : list str) :
  Forall token toks -> In (lit "for") (removelast toks) ->
  exists d y,
    d <> [] /\ forallb dot d = true /\ plain y
    /\ after_app_text (join (lit " ") toks) = d ++ after_app_text y.
Proof.
  intros Ht Hin. apply In_removelast in Hin as (l1 & l2 & -> & Hne).
  apply Forall_app in Ht as [Ht1 Ht2]. inversion Ht2 as [|? ? Hf Ht2']; subst.
  assert (Hy : plain (join (lit " ") l2))
    by (split; [now apply join_nonempty | now apply join_plain]).
  destruct l1 as [|x l1].
  - exists (lit " for"), (join (lit " ") l2).
    split; [discriminate|]. split; [reflexivity|]. split; [assumption|].
    destruct l2; [congruence | reflexivity].
  - exists (lit " for " ++ join (lit " ") (x :: l1)), (join (lit " ") l2).
    split; [discriminate|]. split; [|split; [assumption|]].
    + rewrite forallb_app, join_plain by assumption. reflexivity.
    + rewrite join_app by discriminate.
      destruct l2 as [|z l2]; [congruence|]. rewrite join_cons.
      unfold after_app_text. now repeat rewrite <- app_assoc.
Qed.

(** The rendered text has the reading the event was decomposed from, its
    scopes joined by single blanks, as its longest reading. *)
Lemma render_longest (s u act a x : str) (toks : list str) :
  longest_reading s u act a x ->
  Forall token toks -> toks <> [] -> ~ In (lit "for") (removelast toks) ->
  longest_reading (event_text u act a (join (lit " ") toks) []) u act a
    (join (lit " ") toks).
Proof.
  intros (S1 & MU & MA) Ht Hne Hfor.
  pose proof S1 as (Hu & Hact & Ha & Hx & nl & Hnl & E1).
  set (J := join (lit " ") toks).
  assert (HJ : plain J)
    by (split; [now apply join_nonempty | now apply join_plain]).
  assert (HT : forallb dot (lit " " ++ act ++ lit " access to " ++ a) = true).
  { rewrite !forallb_app, (proj2 Ha).
    destruct Hact as [-> | ->]; reflexivity. }
  split; [|split].
  - repeat (split; [assumption|]). exists []. auto.
  - intros d act' a' x' Hd S2.
    pose proof S2 as (Hud & Hact' & Ha' & Hx' & nl' & Hnl' & E2).
    rewrite event_text_user in E2. unfold event_text in E2.
    apply app_inv_head in E2.
    assert (E : (lit " " ++ act ++ lit " access to " ++ a) ++ after_app_text J
                = (d ++ lit " " ++ act' ++ lit " access to ")
                  ++ a' ++ after_app_text x' ++ nl').
    { unfold after_user_text in E2. unfold after_app_text at 1.
      rewrite app_nil_r in E2. repeat rewrite <- app_assoc.
      repeat rewrite <- app_assoc in E2. exact E2. }
    apply app_eq_app in E as [l [[ET ER] | [EW ER]]].
    + destruct l as [|c l].
      * apply (@no_later_for toks a' x' nl' Ht Hfor (proj1 Ha') Hnl').
        now rewrite ER.
      * apply (MU d act' (c :: l) x Hd).
        rewrite ET, forallb_app in HT. apply andb_true_iff in HT as [_ Hl].
        split; [assumption|]. split; [assumption|].
        split; [split; [discriminate | assumption]|].
        split; [assumption|]. exists nl. split; [assumption|].
        rewrite E1. unfold event_text.
        replace (u ++ lit " " ++ act ++ lit " access to " ++ a ++ lit " for "
                 ++ x ++ lit " scopes" ++ nl)
          with (u ++ (lit " " ++ act ++ lit " access to " ++ a) ++ lit " for "
                ++ x ++ lit " scopes" ++ nl)
          by (now repeat rewrite <- app_assoc).
        rewrite ET. now repeat rewrite <- app_assoc.
    + rewrite app_assoc in ER.
      apply (@no_later_for toks (l ++ a') x' nl' Ht Hfor); auto.
      intros C. apply app_eq_nil in C as [_ C]. now apply (proj1 Ha').
  - intros d x' Hd S2.
    pose proof S2 as (_ & _ & _ & Hx' & nl' & Hnl' & E2).
    rewrite event_text_app in E2. unfold event_text in E2.
    apply app_inv_head in E2. rewrite app_nil_r in E2.
    repeat rewrite <- app_assoc in E2. do 4 apply app_inv_head in E2.
    now apply (@no_later_for toks d x' nl' Ht Hfor Hd Hnl').
Qed.

Lemma render_event_text (t : row) :
  render_event t
  = event_text (user t) (action t) (app t) (join (lit " ") (scope t)) [].
Proof. unfold render_event, event_text. now rewrite app_nil_r. Qed.

(** C4 (as stated, refuted): the event text
    [a authorized access to b for   scopes] is decomposed into an event
    without scopes, and the rendering of that event is rejected; the event
    text with the scopes [p], [for] and [q] between tabs is decomposed, and
    the rendering of that event is decomposed into another event, of
    application [b for p] and of the one scope [q]. *)
Lemma render_event_not_decomposed :
  transform_row utc blank_scope_row = Ok blank_scope_event
  /\ transform_row utc
       {| Log.event := render_event blank_scope_event;
          Log.date := Log.date blank_scope_row |}
     = Raise (RuntimeError
                (lit "Event does not follow expected format: a authorized access to b for  scopes"))
  /\ transform_row utc tab_scope_row = Ok tab_scope_event
  /\ transform_row utc
       {| Log.event := render_event tab_scope_event;
          Log.date := Log.date tab_scope_row |}
     = Ok {| user := lit "a"; action := lit "authorized";
             app := lit "b for p"; scope := [lit "q"];
             date := mk_datetime 2021 1 5 15 4 5 |}.
Proof. repeat split; reflexivity. Qed.

(** C4 (amended): an event that [transform_row] produced is produced
    again, with the same user, action, application and scopes, from its
    fields rendered as
    [<user> <action> access to <app> for <scope-1> ... <scope-n> scopes]
    (and the same date text) exactly when it has a scope and none of its
    scopes but the last is the word [for]. *)
Theorem render_round_trip (lt : Strptime.locale_time) (r : Log.row)
  (t : row) :
  transform_row lt r = Ok t ->
  (transform_row lt {| Log.event := render_event t; Log.date := Log.date r |}
   = Ok t
   <-> scope t <> [] /\ ~ In (lit "for") (removelast (scope t))).
Proof.
  intros H. unfold transform_row in H.
  destruct (search false EVENT_PARSER (Log.event r)) as [[[p rest] c]|] eqn:E;
    [|discriminate].
  apply search_EVENT_PARSER_longest in E as (u & act & a & x & Hc & L).
  simpl in Hc; subst c. cbn [groups group Nat.eqb] in H.
  destruct (parse_date lt (Log.date r)) as [dt|e] eqn:P; simpl in H;
    [|discriminate].
  injection H as <-. cbn [scope]. rewrite render_event_text.
  cbn [user action app scope]. set (J := join (lit " ") (split x)).
  unfold transform_row. cbn [Log.event Log.date]. split.
  - destruct (search false EVENT_PARSER (event_text u act a J []))
      as [[[p' rest'] c']|] eqn:E'; [|discriminate].
    apply search_EVENT_PARSER_longest in E'
      as (u' & act' & a' & x' & Hc' & S' & _ & MA').
    simpl in Hc'; subst c'. cbn [groups group Nat.eqb]. rewrite P. simpl.
    intros H. injection H as -> -> -> Hx.
    destruct S' as (_ & _ & Ha & Hx' & nl' & Hnl' & E').
    unfold event_text in E'. do 6 apply app_inv_head in E'.
    apply scopes_tail in E' as [<- _]; auto. split.
    + intros C. apply (proj1 Hx'). unfold J. now rewrite C.
    + intros Hin.
      destruct (later_for (split_tokens x) Hin) as (d & y & Hd & Hdd & Hy & Ed).
      apply (MA' d y Hd). split; [apply L|]. split; [apply L|].
      split.
      { split; [|rewrite forallb_app, (proj2 Ha); exact Hdd].
        intros C. apply app_eq_nil in C as [C _]. exact (proj1 Ha C). }
      split; [assumption|]. exists []. split; [now left|].
      rewrite event_text_app, app_nil_r. fold J in Ed. rewrite <- Ed.
      unfold event_text, after_app_text. rewrite app_nil_r.
      now repeat rewrite <- app_assoc.
  - intros [Hne Hfor].
    pose proof (render_longest L (split_tokens x) Hne Hfor) as L'.
    apply search_EVENT_PARSER_spec in L' as ([[p' rest'] c'] & E' & Hc').
    simpl in Hc'; subst c'. fold J in E'. rewrite E'.
    cbn [groups group Nat.eqb]. rewrite P. simpl. unfold J.
    rewrite split_join by apply split_tokens. reflexivity.
Qed.

Lemma render_round_trip_witness :
  transform_row pacific wide_scope_row = Ok alice_authorized
  /\ (transform_row pacific
        {| Log.event := render_event alice_authorized;
           Log.date := Log.date wide_scope_row |}
      = Ok alice_authorized
      <-> scope alice_authorized <> []
          /\ ~ In (lit "for") (removelast (scope alice_authorized))).
Proof.
  split; [reflexivity|].
  apply (@render_round_trip pacific wide_scope_row). reflexivity.
Defined.

(** * Part III: further properties of the code *)

(** ** [transform_row], outcome by outcome *)

Lemma transform_row_reading (lt : Strptime.locale_time) (r : Log.row)
  (t : row) :
  transform_row lt r = Ok t <->
  (exists x,
      longest_reading (Log.event r) (user t) (action t) (app t) x
      /\ scope t = split x)
  /\ parse_date lt (Log.date r) = Ok (date t).
Proof.
  unfold transform_row.
  destruct (search false EVENT_PARSER (Log.event r)) as [[[p rest] c]|] eqn:E.
  - apply search_EVENT_PARSER_longest in E as (u & act & a & x & Hc & L).
    simpl in Hc; subst c. cbn [groups group Nat.eqb].
    destruct (parse_date lt (Log.date r)) as [dt|e] eqn:P; simpl.
    + split.
      * intros H. injection H as <-. simpl. eauto.
      * intros [(x' & L' & Hx) Hd].
        destruct (longest_reading_unique L L') as (-> & -> & -> & ->).
        injection Hd as ->. rewrite <- Hx. now destruct t.
    + split; [discriminate | intros [_ H]; discriminate].
  - split; [discriminate|]. intros [(x & L & _) _].
    apply search_EVENT_PARSER_spec in L as (e & He & _). congruence.
Qed.

Lemma search_EVENT_PARSER_None (s : str) :
  search false EVENT_PARSER s = None <->
  ~ exists u act a x, event_shape s u act a x.
Proof.
  split.
  - intros H (u & act & a & x & Hs).
    apply search_EVENT_PARSER_complete in Hs as [e He]. congruence.
  - intros H. destruct (search false EVENT_PARSER s) as [e|] eqn:E;
      [|reflexivity].
    exfalso. apply H.
    apply search_EVENT_PARSER_sound in E as (u & act & a & x & _ & Hs). eauto.
Qed.

(** X1: the three outcomes of [transform_row].  It returns a row exactly
    when the event text reads
    [<user> (revoked|authorized) access to <app> for <scopes> scopes] and
    the date text parses: the row then has the user, action and
    application of the reading with the longest user and, for that user,
    the longest application, the scopes text split on whitespace, and the
    parsed date.  It raises [RuntimeError], with the event text in the
    message, exactly when the event text does not read so, whatever the
    date text is.  It raises a [ValueError] exactly when the event text
    reads so and [parse_date] raises that error.  It raises nothing
    else. *)
Theorem transform_row_outcomes (lt : Strptime.locale_time) (r : Log.row) :
  (forall t,
      transform_row lt r = Ok t <->
      (exists x,
          longest_reading (Log.event r) (user t) (action t) (app t) x
          /\ scope t = split x)
      /\ parse_date lt (Log.date r) = Ok (date t))
  /\ (forall msg,
        transform_row lt r = Raise (RuntimeError msg) <->
        (~ exists u act a x, event_shape (Log.event r) u act a x)
        /\ msg = lit "Event does not follow expected format: "
                 ++ Log.event r)
  /\ (forall msg,
        transform_row lt r = Raise (ValueError msg) <->
        (exists u act a x, event_shape (Log.event r) u act a x)
        /\ parse_date lt (Log.date r) = Raise (ValueError msg))
  /\ (forall k, transform_row lt r = Raise (KeyError k) <-> False).
Proof.
  split; [intros t; apply transform_row_reading|].
  split.
  { intros msg. rewrite transform_row_RuntimeError.
    now rewrite search_EVENT_PARSER_None. }
  unfold transform_row.
  destruct (search false EVENT_PARSER (Log.event r)) as [[[p rest] c]|] eqn:E.
  - pose proof (search_EVENT_PARSER_sound _ E) as (u & act & a & x & _ & Hs).
    destruct (groups c) as [[[u' act'] a'] x'].
    destruct (parse_date lt (Log.date r)) as [dt|e] eqn:P; simpl.
    + split; intros; split; try discriminate; try tauto.
      intros [_ H]; discriminate.
    + pose proof (parse_date_raises _ _ P) as [m' ->]. split.
      * intros msg. split.
        -- intros H. injection H as ->. split; eauto.
        -- intros [_ H]. injection H as ->. reflexivity.
      * intros k. split; [discriminate | tauto].
  - apply search_EVENT_PARSER_None in E. split.
    + intros msg. split; [discriminate|]. intros [H _]. now apply E in H.
    + intros k. split; [discriminate | tauto].
Qed.

(** ** Newlines in the event text *)

Lemma event_text_plain (u act a x : str) :
  plain u -> act = lit "revoked" \/ act = lit "authorized" -> plain a ->
  plain x -> forallb dot (event_text u act a x []) = true.
Proof.
  intros [_ Hu] Hact [_ Ha] [_ Hx]. unfold event_text.
  rewrite !forallb_app, Hu, Ha, Hx.
  destruct Hact as [-> | ->]; reflexivity.
Qed.

Lemma event_text_nl (u act a x nl : str) :
  event_text u act a x nl = event_text u act a x [] ++ nl.
Proof.
  unfold event_text. rewrite app_nil_r. now repeat rewrite <- app_assoc.
Qed.

Lemma dot_no_newline (s : str) :
  forallb dot s = true -> ~ In newline s.
Proof.
  intros H Hin. rewrite forallb_forall in H. apply H in Hin. discriminate.
Qed.

Lemma event_shape_final_newline (s u act a x : str) :
  forallb dot s = true ->
  event_shape (s ++ [newline]) u act a x <-> event_shape s u act a x.
Proof.
  intros Hs. split.
  - intros (Hu & Hact & Ha & Hx & nl & Hnl & E).
    rewrite event_text_nl in E. destruct Hnl as [-> | ->].
    + exfalso. rewrite app_nil_r in E.
      apply (dot_no_newline _ (event_text_plain Hu Hact Ha Hx)).
      rewrite <- E. apply in_or_app. right. now left.
    + apply app_inj_tail in E as [-> _].
      repeat (split; [assumption|]). exists []. auto.
  - intros (Hu & Hact & Ha & Hx & nl & Hnl & E).
    rewrite event_text_nl in E. destruct Hnl as [-> | ->].
    + rewrite app_nil_r in E. subst s.
      repeat (split; [assumption|]). exists [newline]. split; [now right|].
      symmetry. apply event_text_nl.
    + exfalso. apply (dot_no_newline _ Hs). rewrite E.
      apply in_or_app. right. now left.
Qed.

Lemma longest_reading_final_newline (s u act a x : str) :
  forallb dot s = true ->
  longest_reading (s ++ [newline]) u act a x <-> longest_reading s u act a x.
Proof.
  intros Hs. unfold longest_reading. split.
  - intros (S1 & MU & MA). split; [now apply event_shape_final_newline|].
    split.
    + intros d act' a' x' Hd H. apply (MU d act' a' x' Hd).
      now apply event_shape_final_newline.
    + intros d x' Hd H. apply (MA d x' Hd).
      now apply event_shape_final_newline.
  - intros (S1 & MU & MA). split; [now apply event_shape_final_newline|].
    split.
    + intros d act' a' x' Hd H. apply (MU d act' a' x' Hd).
      now apply (proj1 (@event_shape_final_newline s _ _ _ _ Hs)).
    + intros d x' Hd H. apply (MA d x' Hd).
      now apply (proj1 (@event_shape_final_newline s _ _ _ _ Hs)).
Qed.

(** X2: [$] accepts one newline at the end of the event text, and the
    newline is in no group: an event text without a newline gives the same
    row with a newline added at its end. *)
Theorem final_newline_ignored (lt : Strptime.locale_time) (s d : str)
  (t : row) :
  forallb dot s = true ->
  (transform_row lt {| Log.event := s ++ [newline]; Log.date := d |} = Ok t
   <-> transform_row lt {| Log.event := s; Log.date := d |} = Ok t).
Proof.
  intros Hs. rewrite 2 transform_row_reading. cbn [Log.event Log.date].
  split; intros [(x & L & Hx) Hd]; (split; [|exact Hd]); exists x;
    (split; [|exact Hx]).
  - now apply (proj1 (@longest_reading_final_newline s _ _ _ _ Hs)).
  - now apply (proj2 (@longest_reading_final_newline s _ _ _ _ Hs)).
Qed.

Lemma final_newline_ignored_witness :
  forallb dot (Log.event (hd odd_row example_log)) = true
  /\ (transform_row pacific
        {| Log.event := Log.event (hd odd_row example_log) ++ [newline];
           Log.date := Log.date (hd odd_row example_log) |}
      = Ok alice_authorized
      <-> transform_row pacific
            {| Log.event := Log.event (hd odd_row example_log);
               Log.date := Log.date (hd odd_row example_log) |}
          = Ok alice_authorized).
Proof.
  split; [reflexivity|].
  apply (@final_newline_ignored pacific
           (Log.event (hd odd_row example_log))
           (Log.date (hd odd_row example_log)) alice_authorized).
  reflexivity.
Defined.

Lemma removelast_In {A : Type} (x : A) (l : list A) :
  In x (removelast l) -> In x l.
Proof.
  induction l as [|y l IH]; [intros []|].
  destruct l as [|z l]; [intros []|].
  change (removelast (y :: z :: l)) with (y :: removelast (z :: l)).
  intros [-> | H]; [now left | right; auto].
Qed.

(** X3: a newline anywhere but at the very end of the event text makes
    [transform_row] raise [RuntimeError]: [.] matches no newline, and [^]
    and [$] match only at the two ends of the text. *)
Theorem inner_newline_rejected (lt : Strptime.locale_time) (r : Log.row) :
  existsb (chr_eqb newline) (removelast (Log.event r)) = true ->
  transform_row lt r
  = Raise (RuntimeError
             (lit "Event does not follow expected format: " ++ Log.event r)).
Proof.
  intros H. apply transform_row_RuntimeError. split; [|reflexivity].
  apply search_EVENT_PARSER_None.
  intros (u & act & a & x & Hu & Hact & Ha & Hx & nl & Hnl & E).
  apply existsb_exists in H as (c & Hin & Hc).
  apply chr_eqb_eq in Hc. subst c.
  apply (dot_no_newline _ (event_text_plain Hu Hact Ha Hx)).
  rewrite E, event_text_nl in Hin. destruct Hnl as [-> | ->].
  - rewrite app_nil_r in Hin. now apply removelast_In.
  - now rewrite removelast_last in Hin.
Qed.

Lemma inner_newline_rejected_witness :
  existsb (chr_eqb newline) (removelast (Log.event broken_line_row)) = true
  /\ transform_row pacific broken_line_row
     = Raise (RuntimeError
                (lit "Event does not follow expected format: "
                 ++ Log.event broken_line_row)).
Proof.
  split; [reflexivity|].
  apply (@inner_newline_rejected pacific broken_line_row). reflexivity.
Defined.

(** ** Whitespace around the date text *)

(** X4: [parse_date] collapses whitespace and strips none: a date text
    that starts with whitespace raises [ValueError]. *)
Theorem leading_blank_date_rejected (lt : Strptime.locale_time) (c : ascii)
  (s : str) :
  re_space c = true ->
  exists msg, parse_date lt (c :: s) = Raise (ValueError msg).
Proof.
  intros Hc. destruct (parse_date lt (c :: s)) as [dt|e] eqn:P.
  - exfalso. apply parse_date_Ok in P as (f & E & [Hf _] & _).
    simpl in E. rewrite Hc in E.
    destruct Hf as (Hm & _). pose proof (month_no_space _ Hm) as Hns.
    unfold date_render, date_prefix in E.
    destruct (t_month f) as [|m0 mo] eqn:Em.
    + simpl in Hm. intuition discriminate.
    + repeat rewrite <- app_assoc in E. simpl in E. injection E as E _.
      apply Hns. left. now symmetry.
  - apply parse_date_raises in P as [msg ->]. eauto.
Qed.

Lemma leading_blank_date_rejected_witness :
  re_space " "%char = true
  /\ exists msg,
       parse_date pacific (" "%char :: lit "January 5 2021 3:04:05 PM PST")
       = Raise (ValueError msg).
Proof.
  split; [reflexivity|].
  apply (@leading_blank_date_rejected pacific " "%char
           (lit "January 5 2021 3:04:05 PM PST")).
  reflexivity.
Defined.
(** ** The report: when there is one *)

Lemma report_unfold (lt : Strptime.locale_time) (log : list Log.row) :
  report lt log
  = match QUERY log with
    | [] => Raise (KeyError (lit "user"))
    | _ :: _ =>
        match map_result (transform_row lt) (QUERY log) with
        | Ok rows => Ok (Pandas.groupby user (sort_by_date rows))
        | Raise e => Raise e
        end
    end.
Proof.
  unfold report, apply_transform_row.
  destruct (QUERY log) as [|r l]; [reflexivity|].
  destruct (map_result (transform_row lt) (r :: l)); reflexivity.
Qed.

Lemma map_result_Forall {A B : Type} (f : A -> result B) (l : list A) :
  (exists ys, map_result f l = Ok ys)
  <-> Forall (fun x => exists y, f x = Ok y) l.
Proof.
  split.
  - intros [ys H]. apply map_result_Ok in H.
    induction H; constructor; eauto.
  - induction 1 as [|x l [y Hy] _ [ys IH]]; simpl; [eauto|].
    rewrite Hy, IH. simpl. eauto.
Qed.

(** X5: the pipeline yields a report exactly when the query selects at
    least one row and [transform_row] succeeds on every selected row.
    When the query selects nothing (an empty log, or no row with a
    marker), there is no empty report: [groupby('user')] raises
    [KeyError], the untransformed frame having no such column. *)
Theorem report_completes (lt : Strptime.locale_time) (log : list Log.row) :
  ((exists rep, report lt log = Ok rep) <->
   QUERY log <> []
   /\ Forall (fun r => exists t, transform_row lt r = Ok t) (QUERY log))
  /\ (QUERY log = [] -> report lt log = Raise (KeyError (lit "user"))).
Proof.
  rewrite report_unfold. split.
  - rewrite <- map_result_Forall.
    destruct (QUERY log) as [|r l] eqn:E.
    + split; [intros [rep H]; discriminate | intros [H _]; congruence].
    + destruct (map_result (transform_row lt) (r :: l)) as [rows|e]; split.
      * intros _. split; [discriminate | eauto].
      * eauto.
      * intros [rep H]; discriminate.
      * intros [_ [ys H]]; discriminate.
  - intros ->. reflexivity.
Qed.

(** ** The report: its order *)

Lemma code_inj (a b : ascii) : code a = code b -> a = b.
Proof.
  unfold code. intros H. rewrite <- (ascii_N_embedding a).
  rewrite H. apply ascii_N_embedding.
Qed.

Lemma str_ltb_trans (s : str) :
  forall t u, str_ltb s t = true -> str_ltb t u = true -> str_ltb s u = true.
Proof.
  induction s as [|a s IH]; intros [|b t] [|c u]; simpl; try congruence.
  intros H1 H2.
  apply orb_true_iff in H1 as [H1 | H1]; apply orb_true_iff in H2 as [H2 | H2];
    apply orb_true_iff.
  - left. apply N.ltb_lt in H1, H2. apply N.ltb_lt. lia.
  - apply andb_true_iff in H2 as [E _]. apply N.eqb_eq in E.
    left. now rewrite <- E.
  - apply andb_true_iff in H1 as [E _]. apply N.eqb_eq in E.
    left. now rewrite E.
  - apply andb_true_iff in H1 as [E1 L1]. apply andb_true_iff in H2 as [E2 L2].
    apply N.eqb_eq in E1, E2. right. apply andb_true_iff. split.
    + apply N.eqb_eq. congruence.
    + now apply (IH t u).
Qed.

Lemma str_ltb_total (s : str) :
  forall t, str_ltb s t = false -> s <> t -> str_ltb t s = true.
Proof.
  induction s as [|a s IH]; intros [|b t]; simpl; try congruence; auto.
  intros H Hne. apply orb_false_iff in H as [L E].
  apply N.ltb_ge in L. apply orb_true_iff.
  destruct (N.eq_dec (code a) (code b)) as [Eab | Nab].
  - right. rewrite Eab, N.eqb_refl in *. simpl in *.
    apply code_inj in Eab. subst b. apply IH; congruence.
  - left. apply N.ltb_lt. lia.
Qed.

Lemma insert_key_sorted (x : str) (l : list str) :
  StronglySorted (fun u v => str_ltb u v = true) l -> ~ In x l ->
  StronglySorted (fun u v => str_ltb u v = true) (Pandas.insert_key x l).
Proof.
  induction 1 as [|y l Hs IH Hy]; intros Hx; simpl.
  - repeat constructor.
  - destruct (str_ltb y x) eqn:E.
    + constructor; [apply IH; intros H; apply Hx; now right|].
      apply (Permutation_Forall (Permutation_sym (insert_key_Permutation x l))).
      now constructor.
    + assert (L : str_ltb x y = true).
      { apply str_ltb_total; [assumption|]. intros ->. apply Hx. now left. }
      constructor; [now constructor|]. constructor; [assumption|].
      apply Forall_forall. intros z Hz. rewrite Forall_forall in Hy.
      apply (str_ltb_trans _ _ _ L). now apply Hy.
Qed.

Lemma sorted_keys_sorted (l : list str) :
  StronglySorted (fun u v => str_ltb u v = true) (Pandas.sorted_keys l).
Proof.
  unfold Pandas.sorted_keys. pose proof (unique_NoDup l) as N.
  induction N as [|x u Hx _ IH]; simpl; [constructor|].
  apply insert_key_sorted; [assumption|]. intros H. apply Hx.
  revert H. apply Permutation_in. clear.
  induction u as [|y u IH]; simpl; [apply Permutation_refl|].
  rewrite insert_key_Permutation. now constructor.
Qed.

(** X6: the users of the report come in strictly ascending order of
    their text, compared character code by character code ([groupby]
    sorts its keys); no order of the log changes that. *)
Theorem report_users_ascending (lt : Strptime.locale_time)
  (log : list Log.row) (rep : list (str * list row)) :
  report lt log = Ok rep ->
  StronglySorted (fun u v => str_ltb u v = true) (map fst rep).
Proof.
  intros H. apply report_Ok in H as (rows & _ & ->).
  rewrite groupby_keys. apply sorted_keys_sorted.
Qed.

Lemma report_users_ascending_witness :
  report pacific two_user_log = Ok two_user_report
  /\ StronglySorted (fun u v => str_ltb u v = true) (map fst two_user_report).
Proof.
  split; [vm_compute; reflexivity|].
  apply (@report_users_ascending pacific two_user_log two_user_report).
  vm_compute; reflexivity.
Defined.

Lemma StronglySorted_filter {A : Type} (R : A -> A -> Prop) (p : A -> bool)
  (l : list A) :
  StronglySorted R l -> StronglySorted R (filter p l).
Proof.
  induction 1 as [|a l Hs IH Ha]; simpl; [constructor|].
  destruct (p a); [|assumption]. constructor; [assumption|].
  rewrite Forall_forall in *. intros x Hx. apply filter_In in Hx as [Hx _].
  now apply Ha.
Qed.

(** X7: within the group of a user the events are in ascending order of
    date: the frame is sorted before it is grouped, and a group keeps the
    order of the frame. *)
Theorem report_groups_by_date (lt : Strptime.locale_time)
  (log : list Log.row) (rep : list (str * list row)) :
  report lt log = Ok rep ->
  Forall (fun g => StronglySorted (fun a b => dt_leb (date a) (date b) = true)
                     (snd g)) rep.
Proof.
  intros H. apply report_Ok in H as (rows & _ & ->).
  apply Forall_forall. intros [u g] Hg. apply groupby_In in Hg as (_ & ->).
  apply StronglySorted_filter, sort_by_date_sorted.
Qed.

Lemma report_groups_by_date_witness :
  report pacific two_user_log = Ok two_user_report
  /\ Forall (fun g => StronglySorted
                        (fun a b => dt_leb (date a) (date b) = true) (snd g))
       two_user_report.
Proof.
  split; [vm_compute; reflexivity|].
  apply (@report_groups_by_date pacific two_user_log two_user_report).
  vm_compute; reflexivity.
Defined.

(** ** The report: what it does not depend on *)

(** X8: a row the query does not select has no effect, whatever its event
    and date texts are: the report, or the exception, is the one of the
    log without that row. *)
Theorem unselected_row_no_effect (lt : Strptime.locale_time)
  (before after : list Log.row) (r : Log.row) :
  QUERY_where (Log.event r) = false ->
  report lt (before ++ r :: after) = report lt (before ++ after)
  /\ run lt (before ++ r :: after) = run lt (before ++ after).
Proof.
  intros H.
  assert (E : QUERY (before ++ r :: after) = QUERY (before ++ after)).
  { unfold QUERY. rewrite 2 filter_app. simpl. now rewrite H. }
  unfold run, main, report. now rewrite E.
Qed.

Lemma unselected_row_no_effect_witness :
  QUERY_where (Log.event odd_date_row) = false
  /\ report pacific (firstn 2 two_user_log ++ odd_date_row
                     :: skipn 2 two_user_log)
     = report pacific (firstn 2 two_user_log ++ skipn 2 two_user_log)
  /\ run pacific (firstn 2 two_user_log ++ odd_date_row
                  :: skipn 2 two_user_log)
     = run pacific (firstn 2 two_user_log ++ skipn 2 two_user_log).
Proof.
  split; [reflexivity|].
  apply (@unselected_row_no_effect pacific (firstn 2 two_user_log)
           (skipn 2 two_user_log) odd_date_row).
  reflexivity.
Defined.

Lemma filter_Permutation {A : Type} (p : A -> bool) (l l' : list A) :
  Permutation l l' -> Permutation (filter p l) (filter p l').
Proof.
  induction 1 as [|x l l' _ IH|x y l|l l' l'' _ IH1 _ IH2]; simpl.
  - constructor.
  - destruct (p x); [now constructor | assumption].
  - destruct (p x), (p y); try apply Permutation_refl. apply perm_swap.
  - now transitivity (filter p l').
Qed.

Lemma lex_ltb_antisym (a : list Z) :
  forall b, length a = length b ->
    lex_ltb a b = false -> lex_ltb b a = false -> a = b.
Proof.
  induction a as [|x a IH]; intros [|y b] Hl; simpl in *; try congruence.
  intros H1 H2. apply orb_false_iff in H1 as [L1 E1].
  apply orb_false_iff in H2 as [L2 E2]. apply Z.ltb_ge in L1, L2.
  assert (x = y) by lia. subst y. rewrite Z.eqb_refl in E1, E2.
  simpl in *. f_equal. apply IH; congruence.
Qed.

Lemma dt_leb_antisym (a b : datetime) :
  dt_leb a b = true -> dt_leb b a = true -> a = b.
Proof.
  unfold dt_leb, dt_ltb. intros H1 H2.
  apply negb_true_iff in H1, H2.
  assert (E : dt_tuple a = dt_tuple b)
    by (apply lex_ltb_antisym; [reflexivity | assumption | assumption]).
  destruct a, b. unfold dt_tuple in E. simpl in E. now injection E as -> -> -> -> -> ->.
Qed.

Lemma NoDup_map_eq {A B : Type} (f : A -> B) (l : list A) :
  NoDup (map f l) -> forall a b, In a l -> In b l -> f a = f b -> a = b.
Proof.
  induction l as [|x l IH]; simpl; intros N a b Ha Hb E; [destruct Ha|].
  inversion N as [|? ? Hx N']; subst.
  destruct Ha as [-> | Ha], Hb as [-> | Hb]; auto.
  - exfalso. apply Hx. rewrite E. now apply in_map.
  - exfalso. apply Hx. rewrite <- E. now apply in_map.
Qed.

(** Two sorted lists with the same elements are the same list, where
    the order is antisymmetric on the elements. *)
Lemma sorted_Permutation_eq {A : Type} (R : A -> A -> Prop) (l1 : list A) :
  forall l2,
    StronglySorted R l1 -> StronglySorted R l2 -> Permutation l1 l2 ->
    (forall a b, In a l1 -> In b l1 -> R a b -> R b a -> a = b) ->
    l1 = l2.
Proof.
  induction l1 as [|a l1 IH]; intros l2 S1 S2 P Anti.
  - apply Permutation_nil in P. now subst.
  - destruct l2 as [|b l2].
    { apply Permutation_sym, Permutation_nil in P. discriminate. }
    apply StronglySorted_inv in S1 as [S1 F1].
    apply StronglySorted_inv in S2 as [S2 F2].
    rewrite Forall_forall in F1, F2.
    assert (Hb : In b (a :: l1))
      by (apply (Permutation_in _ (Permutation_sym P)); now left).
    assert (Ha : In a (b :: l2)) by (apply (Permutation_in _ P); now left).
    assert (E : a = b).
    { destruct Hb as [E | Hb]; [assumption|].
      destruct Ha as [E | Ha]; [now symmetry|].
      apply Anti; [now left | now right | now apply F1 | now apply F2]. }
    subst b. f_equal. apply IH; try assumption.
    + now apply Permutation_cons_inv in P.
    + intros x y Hx Hy. apply Anti; now right.
Qed.

Lemma sort_by_date_unique (rows rows' : list row) :
  Permutation rows rows' -> NoDup (map date rows) ->
  sort_by_date rows' = sort_by_date rows.
Proof.
  intros P N. apply sorted_Permutation_eq with
    (R := fun a b => dt_leb (date a) (date b) = true).
  - apply sort_by_date_sorted.
  - apply sort_by_date_sorted.
  - rewrite 2 sort_by_date_Permutation. now symmetry.
  - intros a b Ha Hb H1 H2.
    assert (N' : NoDup (map date (sort_by_date rows'))).
    { apply (Permutation_NoDup (l := map date rows)); [|assumption].
      apply Permutation_map. rewrite sort_by_date_Permutation. assumption. }
    apply (NoDup_map_eq date _ N' a b Ha Hb).
    now apply dt_leb_antisym.
Qed.

(** X9: when [transform_row] succeeds on every selected row and no two
    selected events have the same date, the report does not depend on the
    order of the rows in the log. *)
Theorem report_row_order (lt : Strptime.locale_time)
  (log log' : list Log.row) (rows : list row) :
  Permutation log log' ->
  map_result (transform_row lt) (QUERY log) = Ok rows ->
  NoDup (map date rows) ->
  report lt log' = report lt log.
Proof.
  intros P M N.
  assert (PQ : Permutation (QUERY log) (QUERY log'))
    by now apply filter_Permutation.
  pose proof M as M'. apply map_result_Ok in M'.
  destruct (Permutation_Forall2 PQ M') as (rows' & Pr & F).
  apply map_result_Ok in F. rewrite 2 report_unfold, M, F.
  rewrite (sort_by_date_unique Pr N).
  destruct (QUERY log) as [|r l] eqn:E.
  - apply Permutation_nil in PQ. now rewrite PQ.
  - destruct (QUERY log') as [|r' l'] eqn:E'; [|reflexivity].
    apply Permutation_sym, Permutation_nil in PQ. discriminate.
Qed.

Lemma report_row_order_witness :
  Permutation two_user_log (rev two_user_log)
  /\ map_result (transform_row pacific) (QUERY two_user_log)
     = Ok two_user_rows
  /\ NoDup (map date two_user_rows)
  /\ report pacific (rev two_user_log) = report pacific two_user_log.
Proof.
  assert (N : NoDup (map date two_user_rows)).
  { repeat constructor; simpl; intuition discriminate. }
  split; [apply Permutation_rev|]. split; [vm_compute; reflexivity|].
  split; [exact N|].
  apply (@report_row_order pacific two_user_log (rev two_user_log)
           two_user_rows).
  - apply Permutation_rev.
  - vm_compute; reflexivity.
  - exact N.
Defined.

(** ** Collapsing whitespace *)

Lemma collapse_keeps (s : str) :
  forall blank,
    filter (fun c => negb (re_space c)) (collapse blank s)
    = filter (fun c => negb (re_space c)) s.
Proof.
  induction s as [|c s IH]; intros blank; simpl; [reflexivity|].
  destruct (re_space c) eqn:E; simpl.
  - destruct blank; simpl; apply IH.
  - rewrite E. simpl. now rewrite IH.
Qed.

Lemma collapse_length (s : str) :
  forall blank, length (collapse blank s) <= length s.
Proof.
  induction s as [|c s IH]; intros blank; simpl; [lia|].
  destruct (re_space c); [destruct blank|]; simpl;
    [specialize (IH true) | specialize (IH true) | specialize (IH false)]; lia.
Qed.

(** X10: the first step of [parse_date] brings a text into a normal form
    and changes nothing else.  The result has no whitespace but single
    spaces, each followed by a character that is not whitespace or by the
    end; a text is left as it is exactly when it is of this form already;
    the characters that are not whitespace are kept, in order; and the
    text never gets longer. *)
Theorem collapse_normal_form :
  (forall s, single_spaced false (collapse false s) = true)
  /\ (forall s, collapse false s = s <-> single_spaced false s = true)
  /\ (forall s,
        filter (fun c => negb (re_space c)) (collapse false s)
        = filter (fun c => negb (re_space c)) s)
  /\ (forall s, length (collapse false s) <= length s).
Proof.
  split; [intros s; apply collapse_single_spaced|].
  split; [|split; intros s; [apply collapse_keeps | apply collapse_length]].
  intros s. split.
  - intros E. rewrite <- E. apply collapse_single_spaced.
  - apply single_spaced_collapse.
Qed.
